(** * Capital adequacy stress testing

    A shallow embedding of [capital_adequacy_stress_testing.py]: the stress
    formula (lines 92-98), the Monte Carlo block (lines 113-133), the what-if
    totals (lines 157-167), the scenario table [get_scenario_parameters]
    (lines 213-236) and the scenario comparison (lines 239-261).

    The script computes on Python floats.  Its arithmetic is written once,
    against the interface [PyFloat], and read at two instances:
    - [Binary64]: IEEE 754 binary64 with round-to-nearest-even, which is what
      CPython's [float] is; statements at this instance are about the values
      the script really computes;
    - [Exact]: rational numbers, the same formulas without rounding or
      overflow; statements at this instance say what the formulas mean, and
      are given next to the binary64 statement they explain, never in its
      place. *)

From Stdlib Require Import ZArith QArith Reals Lia List String Bool.
From Stdlib Require Import Uint63 Floats Psatz.
Import ListNotations.

Set Warnings "-inexact-float".
Set Implicit Arguments.

(** ** Python calls: a value or an exception *)

Inductive exn : Set :=
| ZeroDivisionError             (* float division by zero *)
| ValueError                    (* numpy: reduction of a zero-size array *)
| TypeError                     (* cannot unpack non-iterable NoneType object *)
| StreamlitDuplicateElementKey. (* a widget key used twice in one script run *)

Inductive outcome (X : Type) : Type :=
| Return (x : X)
| Raise (e : exn).
Arguments Return {X} x.
Arguments Raise {X} e.

Definition bind {X Y : Type} (m : outcome X) (k : X -> outcome Y) : outcome Y :=
  match m with
  | Return x => k x
  | Raise e => Raise e
  end.

Declare Scope py_scope.
Delimit Scope py_scope with py.

Notation "x <- m ;; k" := (bind m (fun x => k))
  (at level 61, m at next level, right associativity) : py_scope.

(** ** The arithmetic of the script *)

Class PyFloat (A : Type) : Type := {
  fadd : A -> A -> A;
  fsub : A -> A -> A;
  fmul : A -> A -> A;
  (* the quotient, once Python has checked that the divisor is not zero *)
  fdiv : A -> A -> A;
  (* Python's == and < on floats *)
  feqb : A -> A -> bool;
  fltb : A -> A -> bool;
  fisnan : A -> bool;
  (* the float denoted by a literal such as 2.5, or an int such as 100 *)
  of_Q : Q -> A
}.
Arguments of_Q {A _} q%_Q.

(** Conversion of an int to binary64; exact below 2^53. *)
Definition float_of_Z (z : Z) : float :=
  match z with
  | Z0 => PrimFloat.zero
  | Zpos _ => PrimFloat.of_uint63 (Uint63.of_Z z)
  | Zneg p => PrimFloat.opp (PrimFloat.of_uint63 (Uint63.of_Z (Zpos p)))
  end.

(** A decimal literal n/d is read as the binary64 nearest to it: for n, d
    below 2^53 this is the correctly rounded quotient. *)
Definition float_of_Q (q : Q) : float :=
  PrimFloat.div (float_of_Z (Qnum q)) (float_of_Z (Zpos (Qden q))).

#[export] Instance Binary64 : PyFloat float := {
  fadd := PrimFloat.add;
  fsub := PrimFloat.sub;
  fmul := PrimFloat.mul;
  fdiv := PrimFloat.div;
  feqb := PrimFloat.eqb;
  fltb := PrimFloat.ltb;
  fisnan := PrimFloat.is_nan;
  of_Q := float_of_Q
}.

(** Rationals have no NaN; [Qdiv] by 0 is 0, a quotient the script can only
    form in [np.mean] of an empty list, since Python checks its own
    divisions. *)
#[export] Instance Exact : PyFloat Q := {
  fadd := Qplus;
  fsub := Qminus;
  fmul := Qmult;
  fdiv := Qdiv;
  feqb := Qeq_bool;
  fltb := fun x y => negb (Qle_bool y x);
  fisnan := fun _ => false;
  of_Q := fun q => q
}.

(** Python's [x / y] on floats: ZeroDivisionError when [y == 0] (both signed
    zeros compare equal to 0), the IEEE quotient otherwise. *)
Definition truediv {A} `{PyFloat A} (x y : A) : outcome A :=
  if feqb y (of_Q 0) then Raise ZeroDivisionError else Return (fdiv x y).

Notation "x + y" := (fadd x y) : py_scope.
Notation "x - y" := (fsub x y) : py_scope.
Notation "x * y" := (fmul x y) : py_scope.
Notation "x / y" := (truediv x y) : py_scope.

(** ** numpy's reductions *)

(** [np.min] and [np.max] reduce a non-empty array with numpy's minimum and
    maximum of two values.  The order in which a build of numpy combines the
    elements is its own (the vector lanes of the CPU it was compiled for), so
    which of several elements that compare equal, 0.0 and -0.0, comes out is
    not fixed by the list.  The two reductions are therefore a parameter of
    the model; what every build guarantees is stated as [extremum_laws]. *)
Class NumpyBuild (A : Type) : Type := {
  minimum_reduce : list A -> A;
  maximum_reduce : list A -> A
}.

(** ** Data *)

(** The four sidebar inputs of lines 21-24. *)
Record BankFinancials (A : Type) : Type := {
  initial_cet1 : A;
  initial_tier1 : A;
  initial_total_capital : A;
  risk_weighted_assets : A
}.

(** The three stress magnitudes, in percent. *)
Record StressTriple (A : Type) : Type := {
  interest_rate_hike : A;
  credit_loss_rate : A;
  market_shock : A
}.

(** The six values assigned by lines 92-98. *)
Record StressResult (A : Type) : Type := {
  interest_rate_loss : A;
  credit_losses : A;
  market_shock_loss : A;
  total_losses : A;
  updated_cet1 : A;
  updated_cet1_ratio : A
}.

Section Engine.
Context {A : Type} `{PyFloat A}.
Local Open Scope py_scope.

(** Lines 92-98, the stress testing logic. *)
Definition compute_result (f : BankFinancials A) (t : StressTriple A)
  : outcome (StressResult A) :=
  p_rate <- interest_rate_hike t / of_Q 100 ;;
  let interest_rate_loss := risk_weighted_assets f * p_rate in
  p_credit <- credit_loss_rate t / of_Q 100 ;;
  let credit_losses := risk_weighted_assets f * p_credit in
  p_market <- market_shock t / of_Q 100 ;;
  let market_shock_loss := initial_tier1 f * p_market in
  let total_losses := interest_rate_loss + credit_losses + market_shock_loss in
  let updated_cet1 := initial_cet1 f - total_losses in
  q <- updated_cet1 / risk_weighted_assets f ;;
  let updated_cet1_ratio := q * of_Q 100 in
  Return (Build_StressResult interest_rate_loss credit_losses
            market_shock_loss total_losses updated_cet1 updated_cet1_ratio).

(** Line 105, the unstressed ratio shown as "Initial CET1 Ratio (%)". *)
Definition initial_cet1_ratio (f : BankFinancials A) : outcome A :=
  q <- initial_cet1 f / risk_weighted_assets f ;;
  Return (q * of_Q 100).

(** *** What-if analysis, lines 157-167 *)

(** Lines 157-159: the current rates plus the what-if sliders.  The sum is
    not clamped to the slider ranges. *)
Definition compose (current what_if : StressTriple A) : StressTriple A :=
  let total_interest_rate := interest_rate_hike current + interest_rate_hike what_if in
  let total_default_rate := credit_loss_rate current + credit_loss_rate what_if in
  let total_market_shock := market_shock current + market_shock what_if in
  Build_StressTriple total_interest_rate total_default_rate total_market_shock.

(** Lines 161-167: the stress formula again, on the totals. *)
Definition what_if_cet1_ratio (f : BankFinancials A) (current what_if : StressTriple A)
  : outcome A :=
  let total := compose current what_if in
  p_rate <- interest_rate_hike total / of_Q 100 ;;
  let what_if_interest_rate_loss := risk_weighted_assets f * p_rate in
  p_credit <- credit_loss_rate total / of_Q 100 ;;
  let what_if_credit_losses := risk_weighted_assets f * p_credit in
  p_market <- market_shock total / of_Q 100 ;;
  let what_if_market_shock_loss := initial_tier1 f * p_market in
  let what_if_total_losses :=
    what_if_interest_rate_loss + what_if_credit_losses + what_if_market_shock_loss in
  let what_if_cet1 := initial_cet1 f - what_if_total_losses in
  q <- what_if_cet1 / risk_weighted_assets f ;;
  Return (q * of_Q 100).

(** *** The scenario table, lines 213-236 *)

(** What a call of [get_scenario_parameters] hands back: a 3-tuple, or
    Python's [None] when the function body ends without a [return]. *)
Inductive pyret : Type :=
| PyTuple (a b c : A)
| PyNone.

(** The three "... for Custom Scenario" sliders are widgets; their current
    values are an input of the call. *)
Definition get_scenario_parameters (custom : StressTriple A) (scenario : string)
  : outcome pyret :=
  if (scenario =? "Baseline (No Stress)")%string then
    Return (PyTuple (of_Q 0.0) (of_Q 0.0) (of_Q 0.0))
  else if (scenario =? "Mild Recession")%string then
    Return (PyTuple (of_Q 1.0) (of_Q 2.0) (of_Q 3.0))
  else if (scenario =? "Severe Recession")%string then
    Return (PyTuple (of_Q 2.5) (of_Q 5.0) (of_Q 8.0))
  else if (scenario =? "Interest Rate Shock")%string then
    Return (PyTuple (of_Q 3.0) (of_Q 0.0) (of_Q 0.0))
  else if (scenario =? "Market Crash")%string then
    Return (PyTuple (of_Q 0.0) (of_Q 0.0) (of_Q 10.0))
  else if (scenario =? "Credit Crisis")%string then
    Return (PyTuple (of_Q 0.5) (of_Q 8.0) (of_Q 3.0))
  else if (scenario =? "Inflation Shock")%string then
    Return (PyTuple (of_Q 4.0) (of_Q 1.0) (of_Q 2.0))
  else if (scenario =? "Liquidity Stress")%string then
    Return (PyTuple (of_Q 0.0) (of_Q 3.0) (of_Q 5.0))
  else if (scenario =? "Currency Devaluation")%string then
    Return (PyTuple (of_Q 1.5) (of_Q 2.5) (of_Q 6.0))
  else if (scenario =? "Custom Scenario")%string then
    Return (PyTuple (interest_rate_hike custom) (credit_loss_rate custom)
              (market_shock custom))
  else
    Return PyNone.

(** Lines 239-240: [a, b, c = get_scenario_parameters(...)].  Unpacking
    [None] raises TypeError. *)
Definition unpack3 (v : pyret) : outcome (StressTriple A) :=
  match v with
  | PyTuple a b c => Return (Build_StressTriple a b c)
  | PyNone => Raise TypeError
  end.

Definition lookup (custom : StressTriple A) (scenario : string)
  : outcome (StressTriple A) :=
  v <- get_scenario_parameters custom scenario ;;
  unpack3 v.

(** *** Scenario comparison, lines 239-261 *)

(** The widgets a call of [get_scenario_parameters] creates, by key: the
    three sliders of its Custom branch (lines 233-235); the other branches
    create none. *)
Definition widget_keys (scenario : string) : list string :=
  if (scenario =? "Custom Scenario")%string
  then ["custom_hike"; "custom_loss"; "custom_shock"]%string
  else [].

(** Streamlit keeps the keys of the widgets created so far in a run of the
    script and refuses to create a widget under a key it already holds. *)
Definition st_register (registered keys : list string) : outcome (list string) :=
  if existsb (fun k => existsb (String.eqb k) registered) keys
  then Raise StreamlitDuplicateElementKey
  else Return (registered ++ keys).

(** Lines 243-248 (and again 250-255): losses and ratio of one scenario. *)
Definition updated_cet1_ratio_scenario (f : BankFinancials A) (t : StressTriple A)
  : outcome A :=
  p_rate <- interest_rate_hike t / of_Q 100 ;;
  p_credit <- credit_loss_rate t / of_Q 100 ;;
  p_market <- market_shock t / of_Q 100 ;;
  let total_losses :=
    risk_weighted_assets f * p_rate
    + risk_weighted_assets f * p_credit
    + initial_tier1 f * p_market in
  q <- (initial_cet1 f - total_losses) / risk_weighted_assets f ;;
  Return (q * of_Q 100).

(** The two ratios and the difference shown as "CET1 Ratio Difference (%)"
    (line 260). *)
Definition compare (f : BankFinancials A) (t1 t2 : StressTriple A)
  : outcome (A * A * A) :=
  updated_cet1_ratio_scenario_1 <- updated_cet1_ratio_scenario f t1 ;;
  updated_cet1_ratio_scenario_2 <- updated_cet1_ratio_scenario f t2 ;;
  Return (updated_cet1_ratio_scenario_1, updated_cet1_ratio_scenario_2,
          updated_cet1_ratio_scenario_2 - updated_cet1_ratio_scenario_1).

(** Lines 239-261 as a whole.  The two selectboxes hold the keys
    "scenario_1" and "scenario_2" (lines 178-210).  Each of the two calls
    creates the widgets of its branch before it returns, the second call in
    the run that holds the keys of the first: with "Custom Scenario"
    selected twice the second call asks for the three slider keys again. *)
Definition scenario_comparison (f : BankFinancials A) (custom : StressTriple A)
    (scenario_1 scenario_2 : string) : outcome (A * A * A) :=
  registered <- st_register ["scenario_1"; "scenario_2"]%string (widget_keys scenario_1) ;;
  t1 <- lookup custom scenario_1 ;;
  _ <- st_register registered (widget_keys scenario_2) ;;
  t2 <- lookup custom scenario_2 ;;
  compare f t1 t2.

(** *** The Monte Carlo block, lines 113-133 *)

(** numpy's process-wide generator, which [np.random.uniform] reads and
    advances.  A generator state fixes the whole sequence of values still to
    come: [stream g k low high] is what the k-th call returns when asked for
    a sample between [low] and [high]; [position] counts the calls made. *)
Record rng : Type := {
  stream : nat -> A -> A -> A;
  position : nat
}.

(** What the block puts on the page, in order: the header (line 130), the
    three aggregates (lines 131-133), the histogram (lines 136-148). *)
Inductive shown : Type :=
| ShowHeader
| MeanRatio (x : A)
| MinRatio (x : A)
| MaxRatio (x : A)
| Histogram (ratios : list A).

(** The state the block reads and writes besides its inputs. *)
Record process : Type := {
  np_random : rng;
  page : list shown
}.

(** A statement runs in a process; an exception leaves the process as it was
    when raised. *)
Definition prog (X : Type) : Type := process -> outcome X * process.

Definition ret {X : Type} (x : X) : prog X := fun s => (Return x, s).

Definition pbind {X Y : Type} (m : prog X) (k : X -> prog Y) : prog Y :=
  fun s =>
    match m s with
    | (Return x, s') => k x s'
    | (Raise e, s') => (Raise e, s')
    end.

Definition lift {X : Type} (m : outcome X) : prog X := fun s => (m, s).

Notation "x <~ m ;; k" := (pbind m (fun x => k))
  (at level 61, m at next level, right associativity).

Definition np_random_uniform (low high : A) : prog A :=
  fun s =>
    let g := np_random s in
    (Return (stream g (position g) low high),
     {| np_random := {| stream := stream g; position := S (position g) |};
        page := page s |}).

Definition st_write (item : shown) : prog unit :=
  fun s => (Return tt, {| np_random := np_random s; page := page s ++ [item] |}).

(** Lines 120-126: losses and ratio of one draw. *)
Definition simulated_cet1_ratio (f : BankFinancials A)
    (simulated_interest_rate_hike simulated_credit_loss_rate simulated_market_shock : A)
  : outcome A :=
  p_rate <- simulated_interest_rate_hike / of_Q 100 ;;
  p_credit <- simulated_credit_loss_rate / of_Q 100 ;;
  p_market <- simulated_market_shock / of_Q 100 ;;
  let simulated_losses :=
    risk_weighted_assets f * p_rate
    + risk_weighted_assets f * p_credit
    + initial_tier1 f * p_market in
  let simulated_cet1 := initial_cet1 f - simulated_losses in
  q <- simulated_cet1 / risk_weighted_assets f ;;
  Return (q * of_Q 100).

(** Lines 116-127: one turn of the loop. *)
Definition simulation_step (f : BankFinancials A) : prog A :=
  simulated_interest_rate_hike <~ np_random_uniform (of_Q 0) (of_Q 5) ;;
  simulated_credit_loss_rate <~ np_random_uniform (of_Q 0) (of_Q 10) ;;
  simulated_market_shock <~ np_random_uniform (of_Q 0) (of_Q 10) ;;
  lift (simulated_cet1_ratio f simulated_interest_rate_hike
          simulated_credit_loss_rate simulated_market_shock).

(** Line 115: [for _ in range(n)], appending to [simulation_results]. *)
Fixpoint simulation_loop (f : BankFinancials A) (n : nat) (simulation_results : list A)
  : prog (list A) :=
  match n with
  | O => ret simulation_results
  | S n' =>
      simulated_cet1_ratio <~ simulation_step f ;;
      simulation_loop f n' (simulation_results ++ [simulated_cet1_ratio])
  end.

(** **** [np.mean]

    numpy adds a binary64 array by pairwise summation (its
    [DOUBLE_pairwise_sum]).  Up to 128 elements, from the 8th on, go into
    eight running sums, one for each index modulo 8, as long as eight more
    elements remain; the eight sums are then added as
    ((r0+r1)+(r2+r3))+((r4+r5)+(r6+r7)) and what is left of the array is
    added to that, one element after the other. *)
Fixpoint block_sum (r0 r1 r2 r3 r4 r5 r6 r7 : A) (a : list A) : A :=
  match a with
  | x0 :: x1 :: x2 :: x3 :: x4 :: x5 :: x6 :: x7 :: rest =>
      block_sum (r0 + x0) (r1 + x1) (r2 + x2) (r3 + x3)
                (r4 + x4) (r5 + x5) (r6 + x6) (r7 + x7) rest
  | rest =>
      fold_left fadd rest (((r0 + r1) + (r2 + r3)) + ((r4 + r5) + (r6 + r7)))
  end.

(** Fewer than 8 elements are added to 0 in order; 8 to 128 elements by
    [block_sum]; a longer array is cut in two, the first part half the
    length rounded down to a multiple of 8, and the sums of the two parts are
    added.  [depth] bounds the number of cuts; the length of the array is
    enough ([pairwise_sum_depth]). *)
Fixpoint pairwise_sum (depth : nat) (a : list A) : A :=
  match a with
  | x0 :: x1 :: x2 :: x3 :: x4 :: x5 :: x6 :: x7 :: rest =>
      if (List.length a <=? 128)%nat then block_sum x0 x1 x2 x3 x4 x5 x6 x7 rest
      else
        match depth with
        | O => of_Q 0
        | S depth' =>
            let n2 := (List.length a / 2 - (List.length a / 2) mod 8)%nat in
            pairwise_sum depth' (firstn n2 a) + pairwise_sum depth' (skipn n2 a)
        end
  | _ => fold_left fadd a (of_Q 0)
  end.

(** [np.sum], i.e. [np.add.reduce]: the reduction starts from the identity
    of the addition, 0, and adds the pairwise sum of the array to it. *)
Definition np_sum (l : list A) : A := of_Q 0 + pairwise_sum (List.length l) l.

(** [np.mean]: the sum over the count.  On an empty list numpy divides 0 by
    0 and warns: the result is NaN in binary64. *)
Definition np_mean (l : list A) : A :=
  fdiv (np_sum l) (of_Q (inject_Z (Z.of_nat (List.length l)))).

(** **** [np.min] and [np.max] *)

(** numpy's minimum and maximum of two values; a NaN wins. *)
Definition minimum (a b : A) : A := if fltb a b || fisnan a then a else b.
Definition maximum (a b : A) : A := if fltb b a || fisnan a then a else b.

(** ValueError on a zero-size array; otherwise the reduction of the build. *)
Definition np_min `{NumpyBuild A} (l : list A) : outcome A :=
  match l with
  | [] => Raise ValueError
  | _ :: _ => Return (minimum_reduce l)
  end.

Definition np_max `{NumpyBuild A} (l : list A) : outcome A :=
  match l with
  | [] => Raise ValueError
  | _ :: _ => Return (maximum_reduce l)
  end.

(** Lines 114-148.  [range(n)] is empty for n <= 0. *)
Definition run_monte_carlo `{NumpyBuild A} (f : BankFinancials A) (num_simulations : Z)
  : prog (list A) :=
  simulation_results <~ simulation_loop f (Z.to_nat num_simulations) [] ;;
  _ <~ st_write ShowHeader ;;
  _ <~ st_write (MeanRatio (np_mean simulation_results)) ;;
  lowest <~ lift (np_min simulation_results) ;;
  _ <~ st_write (MinRatio lowest) ;;
  highest <~ lift (np_max simulation_results) ;;
  _ <~ st_write (MaxRatio highest) ;;
  _ <~ st_write (Histogram simulation_results) ;;
  ret simulation_results.

(** *** The scenario of the main page, lines 50-89 *)

(** "Set Parameters Based on Scenario": the chain assigns the three names
    [interest_rate_hike], [credit_loss_rate], [market_shock], or, when no
    branch matches, leaves them unassigned ([None]).  The sliders of lines
    87-89 are widgets of their own, not those of [get_scenario_parameters];
    their current values are an input. *)
Definition set_parameters (custom : StressTriple A) (scenario : string)
  : option (StressTriple A) :=
  if (scenario =? "Baseline (No Stress)")%string then
    Some (Build_StressTriple (of_Q 0.0) (of_Q 0.0) (of_Q 0.0))
  else if (scenario =? "Mild Recession")%string then
    Some (Build_StressTriple (of_Q 1.0) (of_Q 2.0) (of_Q 3.0))
  else if (scenario =? "Severe Recession")%string then
    Some (Build_StressTriple (of_Q 2.5) (of_Q 5.0) (of_Q 8.0))
  else if (scenario =? "Interest Rate Shock")%string then
    Some (Build_StressTriple (of_Q 3.0) (of_Q 0.0) (of_Q 0.0))
  else if (scenario =? "Market Crash")%string then
    Some (Build_StressTriple (of_Q 0.0) (of_Q 0.0) (of_Q 10.0))
  else if (scenario =? "Credit Crisis")%string then
    Some (Build_StressTriple (of_Q 0.5) (of_Q 8.0) (of_Q 3.0))
  else if (scenario =? "Inflation Shock")%string then
    Some (Build_StressTriple (of_Q 4.0) (of_Q 1.0) (of_Q 2.0))
  else if (scenario =? "Liquidity Stress")%string then
    Some (Build_StressTriple (of_Q 0.0) (of_Q 3.0) (of_Q 5.0))
  else if (scenario =? "Currency Devaluation")%string then
    Some (Build_StressTriple (of_Q 1.5) (of_Q 2.5) (of_Q 6.0))
  else if (scenario =? "Custom Scenario")%string then
    Some custom
  else
    None.

End Engine.

Arguments pyret : clear implicits.
Arguments rng : clear implicits.
Arguments shown : clear implicits.
Arguments process : clear implicits.
Arguments prog : clear implicits.
Arguments PyTuple {A} a b c.
Arguments PyNone {A}.
Arguments ShowHeader {A}.

(** The reduction as numpy's scalar loop runs it, from the first element to
    the last: one build among those [extremum_laws] admits, used where a run
    is evaluated. *)
#[export] Instance scalar_loop {A} `{PyFloat A} : NumpyBuild A := {
  minimum_reduce := fun l =>
    match l with
    | [] => of_Q 0
    | x :: xs => fold_left minimum xs x
    end;
  maximum_reduce := fun l =>
    match l with
    | [] => of_Q 0
    | x :: xs => fold_left maximum xs x
    end
}.

Unset Implicit Arguments.

(** * Vocabulary of the properties *)

Section Vocabulary.
Context {A : Type} `{PyFloat A}.

(** The result of lines 92-98 written out, for a divisor 100 that Python
    accepts. *)
Definition stress_result (f : BankFinancials A) (t : StressTriple A) : StressResult A :=
  let interest_rate_loss :=
    fmul (risk_weighted_assets f) (fdiv (interest_rate_hike t) (of_Q 100)) in
  let credit_losses :=
    fmul (risk_weighted_assets f) (fdiv (credit_loss_rate t) (of_Q 100)) in
  let market_shock_loss :=
    fmul (initial_tier1 f) (fdiv (market_shock t) (of_Q 100)) in
  let total_losses := fadd (fadd interest_rate_loss credit_losses) market_shock_loss in
  let updated_cet1 := fsub (initial_cet1 f) total_losses in
  Build_StressResult interest_rate_loss credit_losses market_shock_loss total_losses
    updated_cet1 (fmul (fdiv updated_cet1 (risk_weighted_assets f)) (of_Q 100)).

(** The triple of the i-th turn of a loop entered with generator [g]: three
    consecutive values of the stream, asked for with the bounds of lines
    116-118. *)
Definition drawn_triple (g : rng A) (i : nat) : StressTriple A :=
  let k := (3 * i + position g)%nat in
  Build_StressTriple (stream g k (of_Q 0) (of_Q 5))
    (stream g (S k) (of_Q 0) (of_Q 10))
    (stream g (S (S k)) (of_Q 0) (of_Q 10)).

(** The generator after [k] more calls. *)
Definition advance (g : rng A) (k : nat) : rng A :=
  {| stream := stream g; position := (k + position g)%nat |}.

(** The ratio of one turn, when the division by RWA goes through. *)
Definition drawn_ratio (f : BankFinancials A) (g : rng A) (i : nat) : A :=
  updated_cet1_ratio (stress_result f (drawn_triple g i)).

(** What [run_monte_carlo] does once the loop has produced its list. *)
Definition report `{NumpyBuild A} (simulation_results : list A) : prog A (list A) :=
  fun s =>
    let s1 := {| np_random := np_random s;
                 page := (page s ++ [ShowHeader])
                         ++ [MeanRatio (np_mean simulation_results)] |} in
    match np_min simulation_results, np_max simulation_results with
    | Raise e, _ => (Raise e, s1)
    | Return lo, Raise e =>
        (Raise e, {| np_random := np_random s; page := page s1 ++ [MinRatio lo] |})
    | Return lo, Return hi =>
        (Return simulation_results,
         {| np_random := np_random s;
            page := (((page s1 ++ [MinRatio lo]) ++ [MaxRatio hi])
                     ++ [Histogram simulation_results]) |})
    end.

(** Two generators agree on their next [k] values. *)
Definition agree_on (g g' : rng A) (k : nat) : Prop :=
  forall (i : nat) (low high : A),
    (i < k)%nat ->
    stream g (i + position g)%nat low high = stream g' (i + position g')%nat low high.

(** Two generators at the same position whose streams differ at most in the
    value of index [k]. *)
Definition differ_at_most_at (g g' : rng A) (k : nat) : Prop :=
  position g' = position g /\
  forall (j : nat) (low high : A), j <> k -> stream g' j low high = stream g j low high.

(** What every build of numpy guarantees of [np.min] and [np.max] on a
    non-empty array: a NaN among the elements makes both NaN; otherwise each
    is an element of the array, no element is less than the minimum, and none
    is greater than the maximum. *)
Definition extremum_laws (np : NumpyBuild A) : Prop :=
  forall l : list A,
    l <> [] ->
    (existsb fisnan l = true ->
     fisnan (minimum_reduce l) = true /\ fisnan (maximum_reduce l) = true)
    /\ (existsb fisnan l = false ->
        In (minimum_reduce l) l /\ In (maximum_reduce l) l /\
        forall y : A, In y l ->
          fltb y (minimum_reduce l) = false /\ fltb (maximum_reduce l) y = false).

End Vocabulary.

(** The financials of the sidebar defaults (lines 21-24) and the Mild
    Recession triple (lines 55-57). *)
Definition default_financials {A} `{PyFloat A} : BankFinancials A :=
  Build_BankFinancials (of_Q 1000) (of_Q 1200) (of_Q 1500) (of_Q 12000).

Definition mild_recession {A} `{PyFloat A} : StressTriple A :=
  Build_StressTriple (of_Q 1.0) (of_Q 2.0) (of_Q 3.0).

(** Financials whose ratio overflows binary64: CET1 of 1e308 over RWA of 0.5. *)
Definition overflowing_financials : BankFinancials float :=
  (Build_BankFinancials 1e308 1200 1500 0.5)%float.

(** Financials whose CET1, 1e20, is so large that neighbouring floats are
    16384 apart: every loss the sliders and the draws can produce, at most
    1920, is lost when it is subtracted. *)
Definition large_financials : BankFinancials float :=
  (Build_BankFinancials 1e20 1200 1500 12000)%float.

(** The ten names the three selectboxes offer (lines 35-46, 180-191,
    197-208). *)
Definition scenario_names : list string :=
  ["Baseline (No Stress)"; "Mild Recession"; "Severe Recession";
   "Interest Rate Shock"; "Market Crash"; "Credit Crisis"; "Inflation Shock";
   "Liquidity Stress"; "Currency Devaluation"; "Custom Scenario"]%string.

(** The nine names with a fixed triple. *)
Definition predefined_names : list string :=
  ["Baseline (No Stress)"; "Mild Recession"; "Severe Recession";
   "Interest Rate Shock"; "Market Crash"; "Credit Crisis"; "Inflation Shock";
   "Liquidity Stress"; "Currency Devaluation"]%string.

(** A generator for examples: its k-th value lies (k mod 16)/16 of the way
    from [low] to [high]. *)
Definition sixteenths {A} `{PyFloat A} : rng A :=
  {| stream := fun k low high =>
       fadd low (fmul (fsub high low) (of_Q (inject_Z (Z.of_nat k mod 16) / 16)));
     position := 0 |}.

(** A process that has drawn nothing and shown nothing yet. *)
Definition fresh_process {A} `{PyFloat A} : process A :=
  {| np_random := sixteenths; page := [] |}.

(** What a run with sample count n > 0 and RWA != 0 leaves behind: the list
    it returns, the generator advanced by three values per turn, and the
    five items added to the page. *)
Definition after_run {A} (s : process A) (n : nat) (ratios : list A) (mean lo hi : A)
  : outcome (list A) * process A :=
  (Return ratios,
   {| np_random := advance (np_random s) (3 * n);
      page := page s ++ [ShowHeader; MeanRatio mean; MinRatio lo; MaxRatio hi;
                         Histogram ratios] |}).

(** The i-th entry of [ratios] is the updated_cet1_ratio that [compute_result]
    returns for the triple of the i-th turn. *)
Definition ratios_of_draws {A} `{PyFloat A}
    (f : BankFinancials A) (g : rng A) (n : nat) (ratios : list A) : Prop :=
  List.length ratios = n /\
  forall i : nat, (i < n)%nat ->
    exists r,
      compute_result f (drawn_triple g i) = Return r /\
      nth_error ratios i = Some (updated_cet1_ratio r).

(** What C6 says of a sample count: the block raises, and nothing has been
    produced, i.e. the process is as it was. *)
Definition rejects_sample_count {A} `{PyFloat A} `{NumpyBuild A}
    (f : BankFinancials A) (num_simulations : Z) : Prop :=
  forall s : process A, exists e, run_monte_carlo f num_simulations s = (Raise e, s).

(** What C9 says of a run: doing it again, in the process the first run left
    behind, returns the same ratios. *)
Definition repeatable {A} `{PyFloat A} `{NumpyBuild A}
    (f : BankFinancials A) (num_simulations : Z) (s : process A) : Prop :=
  fst (run_monte_carlo f num_simulations (snd (run_monte_carlo f num_simulations s)))
  = fst (run_monte_carlo f num_simulations s).

(** Both outcomes are one-element lists, with equal elements (Python's [==]). *)
Definition same_single_ratio (o o' : outcome (list float)) : bool :=
  match o, o' with
  | Return [x], Return [y] => PrimFloat.eqb x y
  | _, _ => false
  end.

(** [t'] is [t] with exactly one field made larger (Python's [<]) and the
    other two left as they are (Python's [==]). *)
Definition raises_one_field {A} `{PyFloat A} (t t' : StressTriple A) : bool :=
  (fltb (interest_rate_hike t) (interest_rate_hike t')
   && feqb (credit_loss_rate t) (credit_loss_rate t')
   && feqb (market_shock t) (market_shock t'))
  || (feqb (interest_rate_hike t) (interest_rate_hike t')
      && fltb (credit_loss_rate t) (credit_loss_rate t')
      && feqb (market_shock t) (market_shock t'))
  || (feqb (interest_rate_hike t) (interest_rate_hike t')
      && feqb (credit_loss_rate t) (credit_loss_rate t')
      && fltb (market_shock t) (market_shock t')).

(** Field-wise equality of triples in exact arithmetic. *)
Definition triple_Qeq (a b : StressTriple Q) : Prop :=
  interest_rate_hike a == interest_rate_hike b /\
  credit_loss_rate a == credit_loss_rate b /\
  market_shock a == market_shock b.

(** The exact sum of a list. *)
Definition Qsum (l : list Q) : Q := fold_right Qplus 0 l.

(** The count of a list, as the number numpy divides by. *)
Definition count (l : list Q) : Q := inject_Z (Z.of_nat (List.length l)).

(** The what-if sliders at their default, 0.0 each (lines 152-154). *)
Definition what_if_default {A} `{PyFloat A} : StressTriple A :=
  Build_StressTriple (of_Q 0.0) (of_Q 0.0) (of_Q 0.0).

(** The upper ends of the slider ranges (lines 87-89, 152-154, 233-235) and
    of the Monte Carlo draws (lines 116-118). *)
Definition worst_case {A} `{PyFloat A} : StressTriple A :=
  Build_StressTriple (of_Q 5) (of_Q 10) (of_Q 10).

(** A binary64 triple inside the slider ranges, ends included. *)
Definition in_box (t : StressTriple float) : bool :=
  (PrimFloat.leb 0 (interest_rate_hike t) && PrimFloat.leb (interest_rate_hike t) 5
   && PrimFloat.leb 0 (credit_loss_rate t) && PrimFloat.leb (credit_loss_rate t) 10
   && PrimFloat.leb 0 (market_shock t) && PrimFloat.leb (market_shock t) 10)%float.

(** A binary64 triple as lines 116-118 ask for it: the upper ends excluded. *)
Definition in_draw_range (t : StressTriple float) : bool :=
  (PrimFloat.leb 0 (interest_rate_hike t) && PrimFloat.ltb (interest_rate_hike t) 5
   && PrimFloat.leb 0 (credit_loss_rate t) && PrimFloat.ltb (credit_loss_rate t) 10
   && PrimFloat.leb 0 (market_shock t) && PrimFloat.ltb (market_shock t) 10)%float.

(** numpy's contract for the two calls the script makes: [uniform(0, 5)] is
    a float from 0 up to, and below, 5, and [uniform(0, 10)] one from 0 up
    to, and below, 10. *)
Definition uniform_contract (g : rng float) : Prop :=
  forall k : nat,
    (PrimFloat.leb 0 (stream g k 0 5) && PrimFloat.ltb (stream g k 0 5) 5
     && PrimFloat.leb 0 (stream g k 0 10) && PrimFloat.ltb (stream g k 0 10) 10)%float
    = true.

(** ** Binary64 values as real numbers *)

Section Binary64Reals.
Local Open Scope R_scope.

Definition bpow (e : Z) : R := powerRZ 2 e.

(** The real number a binary64 stands for.  The infinities stand for
    +-2^1024, the first power of two beyond the finite floats, which keeps
    them in order with everything else; NaN stands for nothing, and is
    treated apart wherever this is used. *)
Definition ext (x : spec_float) : R :=
  match x with
  | S754_zero _ => 0
  | S754_infinity s => if s then - bpow 1024 else bpow 1024
  | S754_nan => 0
  | S754_finite s m e =>
      if s then - (IZR (Z.pos m) * bpow e) else IZR (Z.pos m) * bpow e
  end.

Definition sf_is_nan (x : spec_float) : bool :=
  match x with S754_nan => true | _ => false end.

(** A zero or a finite number. *)
Definition sf_fin (x : spec_float) : bool :=
  match x with S754_zero _ | S754_finite _ _ _ => true | _ => false end.

Definition Rcmp (a b : R) (c : comparison) : Prop :=
  match c with Lt => a < b | Eq => a = b | Gt => b < a end.

(** A real [w] >= 0 as the shifting of [SpecFloat] records it: the integer
    part, whether the next bit is set, and whether anything follows. *)
Definition rep (w : R) (mrs : shr_record) : Prop :=
  (0 <= shr_m mrs)%Z /\
  match shr_r mrs, shr_s mrs with
  | false, false => w = IZR (shr_m mrs)
  | false, true => IZR (shr_m mrs) < w < IZR (shr_m mrs) + / 2
  | true, false => w = IZR (shr_m mrs) + / 2
  | true, true => IZR (shr_m mrs) + / 2 < w < IZR (shr_m mrs) + 1
  end.

(** [M] is [w] rounded to the nearest integer, ties to even. *)
Definition rne_spec (w : R) (M : Z) : Prop :=
  IZR M - / 2 <= w <= IZR M + / 2 /\
  (w = IZR M - / 2 \/ w = IZR M + / 2 -> Z.even M = true).

(** [c] is the exponent of the last place of binary64 at magnitude [v]:
    -1074 in the subnormal range, 52 below the binade of [v] above it. *)
Definition cexp_spec (v : R) (c : Z) : Prop :=
  (-1074 <= c)%Z /\ ((-1074 < c)%Z -> bpow (c + 52) <= v) /\ v < bpow (c + 53).

(** [a] is the magnitude [v] rounded to binary64, to nearest, ties to even,
    an overflow giving 2^1024. *)
Definition rounds_to (v a : R) : Prop :=
  exists (c M : Z),
    cexp_spec v c /\ rne_spec (v * bpow (- c)) M /\
    a = Rmin (bpow 1024) (IZR M * bpow c).

(** [r] is the real [v] rounded to binary64. *)
Definition Rnd (v : R) (r : spec_float) : Prop :=
  sf_is_nan r = false /\
  ((0 <= v /\ rounds_to v (ext r)) \/ (v <= 0 /\ rounds_to (- v) (- ext r))).

(** [x <= y] as real numbers, unless one of the two is NaN. *)
Definition le_or_nan (x y : spec_float) : Prop :=
  sf_is_nan x = true \/ sf_is_nan y = true \/ ext x <= ext y.

Definition fle (x y : float) : Prop := le_or_nan (Prim2SF x) (Prim2SF y).

(** Equal, or two zeros: what Python's [==] cannot tell apart. *)
Definition same_or_zeros (x y : spec_float) : Prop :=
  x = y \/ (exists s s', x = S754_zero s /\ y = S754_zero s').

End Binary64Reals.

(** Field by field, [t] is at most [t']. *)
Definition fle_triple (t t' : StressTriple float) : Prop :=
  fle (interest_rate_hike t) (interest_rate_hike t') /\
  fle (credit_loss_rate t) (credit_loss_rate t') /\
  fle (market_shock t) (market_shock t').
(** * Properties *)

(** ** Facts that hold at every instance *)

Section Refinement.
Context {A : Type} `{PyFloat A} `{NumpyBuild A}.

Hypothesis hundred_nonzero : feqb (of_Q 100 : A) (of_Q 0) = false.

Lemma truediv_hundred (x : A) : truediv x (of_Q 100) = Return (fdiv x (of_Q 100)).
Proof. unfold truediv. rewrite hundred_nonzero. reflexivity. Qed.

Lemma compute_result_eq (f : BankFinancials A) (t : StressTriple A) :
  compute_result f t =
  if feqb (risk_weighted_assets f) (of_Q 0) then Raise ZeroDivisionError
  else Return (stress_result f t).
Proof.
  unfold compute_result. rewrite !truediv_hundred. cbn [bind].
  unfold truediv. destruct (feqb (risk_weighted_assets f) (of_Q 0)); reflexivity.
Qed.

Lemma scenario_ratio_eq (f : BankFinancials A) (t : StressTriple A) :
  updated_cet1_ratio_scenario f t =
  bind (compute_result f t) (fun r => Return (updated_cet1_ratio r)).
Proof.
  unfold updated_cet1_ratio_scenario, compute_result.
  rewrite !truediv_hundred. cbn [bind].
  destruct (truediv _ (risk_weighted_assets f)); reflexivity.
Qed.

Lemma simulated_ratio_eq (f : BankFinancials A) (t : StressTriple A) :
  simulated_cet1_ratio f (interest_rate_hike t) (credit_loss_rate t) (market_shock t) =
  bind (compute_result f t) (fun r => Return (updated_cet1_ratio r)).
Proof.
  unfold simulated_cet1_ratio, compute_result.
  rewrite !truediv_hundred. cbn [bind].
  destruct (truediv _ (risk_weighted_assets f)); reflexivity.
Qed.

Lemma what_if_ratio_eq (f : BankFinancials A) (current what_if : StressTriple A) :
  what_if_cet1_ratio f current what_if =
  bind (compute_result f (compose current what_if))
       (fun r => Return (updated_cet1_ratio r)).
Proof.
  unfold what_if_cet1_ratio, compute_result.
  rewrite !truediv_hundred. cbn [bind].
  destruct (truediv _ (risk_weighted_assets f)); reflexivity.
Qed.

(** **** The loop *)

Lemma simulation_step_eq (f : BankFinancials A) (s : process A) :
  simulation_step f s =
  (bind (compute_result f (drawn_triple (np_random s) 0))
        (fun r => Return (updated_cet1_ratio r)),
   {| np_random := advance (np_random s) 3; page := page s |}).
Proof.
  rewrite <- simulated_ratio_eq. reflexivity.
Qed.

Lemma drawn_triple_advance (g : rng A) (i : nat) :
  drawn_triple (advance g 3) i = drawn_triple g (S i).
Proof.
  unfold drawn_triple, advance. cbn [position stream].
  replace (3 * i + (3 + position g))%nat with (3 * S i + position g)%nat by lia.
  reflexivity.
Qed.

Lemma advance_advance (g : rng A) (j k : nat) :
  advance (advance g j) k = advance g (k + j).
Proof.
  unfold advance. cbn [position stream]. f_equal. lia.
Qed.

Lemma simulation_loop_eq (f : BankFinancials A) :
  feqb (risk_weighted_assets f) (of_Q 0) = false ->
  forall (n : nat) (acc : list A) (s : process A),
    simulation_loop f n acc s =
    (Return (acc ++ map (drawn_ratio f (np_random s)) (seq 0 n)),
     {| np_random := advance (np_random s) (3 * n); page := page s |}).
Proof.
  intros Hrwa. induction n as [|n IH]; intros acc s.
  - cbn. rewrite app_nil_r. destruct s as [[st p] pg]. reflexivity.
  - cbn [simulation_loop]. unfold pbind. rewrite simulation_step_eq.
    rewrite compute_result_eq, Hrwa. cbn [bind].
    rewrite IH. cbn [np_random page]. f_equal.
    + f_equal. rewrite <- app_assoc. f_equal. cbn [app seq map]. f_equal.
      rewrite <- seq_shift, map_map. apply map_ext. intros i.
      unfold drawn_ratio. rewrite drawn_triple_advance. reflexivity.
    + f_equal. rewrite advance_advance. f_equal. lia.
Qed.

Lemma run_monte_carlo_eq (f : BankFinancials A) (num_simulations : Z) (s : process A) :
  run_monte_carlo f num_simulations s =
  match simulation_loop f (Z.to_nat num_simulations) [] s with
  | (Return l, s') => report l s'
  | (Raise e, s') => (Raise e, s')
  end.
Proof.
  unfold run_monte_carlo, pbind.
  destruct (simulation_loop f (Z.to_nat num_simulations) [] s) as [[l|e] s']; [|reflexivity].
  unfold report, st_write, lift, ret. cbn [np_random page].
  destruct (np_min l); [|reflexivity].
  destruct (np_max l); reflexivity.
Qed.

Lemma run_monte_carlo_returns (f : BankFinancials A) (num_simulations : Z)
    (s : process A) :
  (0 < num_simulations)%Z ->
  feqb (risk_weighted_assets f) (of_Q 0) = false ->
  let ratios := map (drawn_ratio f (np_random s)) (seq 0 (Z.to_nat num_simulations)) in
  exists lo hi,
    np_min ratios = Return lo /\
    np_max ratios = Return hi /\
    run_monte_carlo f num_simulations s
    = (Return ratios,
       {| np_random := advance (np_random s) (3 * Z.to_nat num_simulations);
          page := page s ++ [ShowHeader; MeanRatio (np_mean ratios);
                             MinRatio lo; MaxRatio hi; Histogram ratios] |}).
Proof.
  intros Hn Hrwa ratios.
  assert (Hlen : List.length ratios = Z.to_nat num_simulations)
    by (unfold ratios; rewrite length_map, length_seq; reflexivity).
  rewrite run_monte_carlo_eq, (simulation_loop_eq f Hrwa). cbn [app].
  fold ratios. clearbody ratios.
  destruct ratios as [|x xs]; [cbn in Hlen; lia|].
  exists (minimum_reduce (x :: xs)), (maximum_reduce (x :: xs)).
  split; [reflexivity|]. split; [reflexivity|].
  unfold report. cbn [np_min np_max np_random page].
  rewrite <- !app_assoc. reflexivity.
Qed.

Lemma drawn_ratios_nth (f : BankFinancials A) (g : rng A) (n i : nat) :
  feqb (risk_weighted_assets f) (of_Q 0) = false ->
  (i < n)%nat ->
  exists r,
    compute_result f (drawn_triple g i) = Return r /\
    nth_error (map (drawn_ratio f g) (seq 0 n)) i = Some (updated_cet1_ratio r).
Proof.
  intros Hrwa Hi. exists (stress_result f (drawn_triple g i)). split.
  - rewrite compute_result_eq, Hrwa. reflexivity.
  - rewrite nth_error_map, nth_error_seq.
    apply Nat.ltb_lt in Hi. rewrite Hi. reflexivity.
Qed.

(** **** Two runs *)

Lemma agree_on_advance (g g' : rng A) (n : nat) :
  agree_on g g' (3 * S n) -> agree_on (advance g 3) (advance g' 3) (3 * n).
Proof.
  intros Hag i low high Hi. unfold advance. cbn [stream position].
  replace (i + (3 + position g))%nat with ((i + 3) + position g)%nat by lia.
  replace (i + (3 + position g'))%nat with ((i + 3) + position g')%nat by lia.
  apply Hag. lia.
Qed.

Lemma agree_on_first_triple (g g' : rng A) (n : nat) :
  agree_on g g' (3 * S n) -> drawn_triple g 0 = drawn_triple g' 0.
Proof.
  intros Hag. unfold drawn_triple. cbn [Nat.mul Nat.add].
  rewrite (Hag 0%nat) by lia.
  change (S (position g)) with (1 + position g)%nat.
  change (S (position g')) with (1 + position g')%nat.
  rewrite (Hag 1%nat) by lia.
  change (S (1 + position g)) with (2 + position g)%nat.
  change (S (1 + position g')) with (2 + position g')%nat.
  rewrite (Hag 2%nat) by lia.
  reflexivity.
Qed.

Lemma simulation_loop_agree (f : BankFinancials A) :
  forall (n : nat) (acc : list A) (s s' : process A),
    agree_on (np_random s) (np_random s') (3 * n) ->
    fst (simulation_loop f n acc s) = fst (simulation_loop f n acc s').
Proof.
  induction n as [|n IH]; intros acc s s' Hag; [reflexivity|].
  cbn [simulation_loop]. unfold pbind. rewrite !simulation_step_eq.
  rewrite (agree_on_first_triple _ _ n Hag).
  destruct (bind (compute_result f (drawn_triple (np_random s') 0)) _) as [x|e];
    [|reflexivity].
  apply IH. cbn [np_random]. apply agree_on_advance, Hag.
Qed.

Lemma run_monte_carlo_agree (f : BankFinancials A) (num_simulations : Z)
    (s s' : process A) :
  agree_on (np_random s) (np_random s') (3 * Z.to_nat num_simulations) ->
  fst (run_monte_carlo f num_simulations s) = fst (run_monte_carlo f num_simulations s').
Proof.
  intros Hag. rewrite !run_monte_carlo_eq.
  assert (Hloop := simulation_loop_agree f (Z.to_nat num_simulations) [] s s' Hag).
  destruct (simulation_loop f (Z.to_nat num_simulations) [] s) as [o s1].
  destruct (simulation_loop f (Z.to_nat num_simulations) [] s') as [o' s1'].
  cbn [fst] in Hloop. subst o'. destruct o as [l|e]; [|reflexivity].
  unfold report. destruct (np_min l); [|reflexivity].
  destruct (np_max l); reflexivity.
Qed.

End Refinement.

(** ** The two instances *)

Lemma hundred_nonzero_binary64 : feqb (of_Q 100 : float) (of_Q 0) = false.
Proof. reflexivity. Qed.

Lemma hundred_nonzero_exact : feqb (of_Q 100 : Q) (of_Q 0) = false.
Proof. reflexivity. Qed.

(** Python's [y == 0] at [Exact]. *)
Lemma feqb_zero_exact (y : Q) : feqb y (of_Q 0) = false <-> ~ y == 0.
Proof.
  cbn. split.
  - intros E Hy. apply Qeq_bool_iff in Hy. congruence.
  - intros Hy. destruct (Qeq_bool y 0) eqn:E; [|reflexivity].
    apply Qeq_bool_iff in E. contradiction.
Qed.

Lemma compute_result_binary64 (f : BankFinancials float) (t : StressTriple float) :
  PrimFloat.eqb (risk_weighted_assets f) 0 = false ->
  compute_result f t = Return (stress_result f t).
Proof.
  intros Hrwa. rewrite (compute_result_eq hundred_nonzero_binary64).
  change (feqb (risk_weighted_assets f) (of_Q 0))
    with (PrimFloat.eqb (risk_weighted_assets f) 0).
  rewrite Hrwa. reflexivity.
Qed.

Lemma compute_result_exact (f : BankFinancials Q) (t : StressTriple Q) :
  ~ risk_weighted_assets f == 0 ->
  compute_result f t = Return (stress_result f t).
Proof.
  intros Hrwa. rewrite (compute_result_eq hundred_nonzero_exact).
  apply feqb_zero_exact in Hrwa. rewrite Hrwa. reflexivity.
Qed.

Lemma compare_eq_binary64 (f : BankFinancials float) (t1 t2 : StressTriple float) :
  compare f t1 t2
  = bind (compute_result f t1) (fun r1 =>
    bind (compute_result f t2) (fun r2 =>
    Return (updated_cet1_ratio r1, updated_cet1_ratio r2,
            (updated_cet1_ratio r2 - updated_cet1_ratio r1)%float))).
Proof.
  unfold compare. rewrite !(scenario_ratio_eq hundred_nonzero_binary64).
  destruct (compute_result f t1); [|reflexivity]. cbn [bind].
  destruct (compute_result f t2); reflexivity.
Qed.

(** ** Binary64 arithmetic is monotone

    The four operations of binary64, as [SpecFloat] defines them, round the
    exact result to the nearest float; rounding keeps the order of the exact
    results.  This part derives that from the definitions of [SpecFloat]:
    first what [binary_round_aux] returns for a located real, then each
    operation on finite operands, then the infinities. *)

Section Binary64Order.
Local Open Scope R_scope.
Lemma bpow_pos (e : Z) : 0 < bpow e.
Proof. apply powerRZ_lt. lra. Qed.

Lemma bpow_add (a b : Z) : bpow (a + b) = bpow a * bpow b.
Proof. apply powerRZ_add. lra. Qed.

Lemma bpow_IZR (k : Z) : (0 <= k)%Z -> bpow k = IZR (2 ^ k).
Proof.
  intros Hk. unfold bpow. rewrite <- (Z2Nat.id k Hk).
  rewrite <- pow_powerRZ, <- pow_IZR. reflexivity.
Qed.

Lemma bpow_0 : bpow 0 = 1.
Proof. reflexivity. Qed.

Lemma bpow_1 : bpow 1 = 2.
Proof. rewrite bpow_IZR by lia. reflexivity. Qed.

Lemma bpow_ge_1 (k : Z) : (0 <= k)%Z -> 1 <= bpow k.
Proof.
  intros Hk. rewrite (bpow_IZR k Hk). apply IZR_le.
  pose proof (Z.pow_pos_nonneg 2 k ltac:(lia) Hk). lia.
Qed.

Lemma bpow_le (a b : Z) : (a <= b)%Z -> bpow a <= bpow b.
Proof.
  intros Hab. replace b with (a + (b - a))%Z by lia. rewrite bpow_add.
  pose proof (bpow_pos a). pose proof (bpow_ge_1 (b - a) ltac:(lia)). nra.
Qed.

Lemma bpow_lt (a b : Z) : (a < b)%Z -> bpow a < bpow b.
Proof.
  intros Hab. replace b with (a + 1 + (b - a - 1))%Z by lia.
  rewrite !bpow_add, bpow_1.
  pose proof (bpow_pos a). pose proof (bpow_ge_1 (b - a - 1) ltac:(lia)). nra.
Qed.

Lemma bpow_opp (a : Z) : bpow (- a) = / bpow a.
Proof. apply powerRZ_neg'. Qed.

Lemma bpow_sub_cancel (a b : Z) : bpow (a - b) * bpow b = bpow a.
Proof. rewrite <- bpow_add. f_equal. lia. Qed.

Lemma digits2_pos_bounds (m : positive) :
  (2 ^ (Z.pos (digits2_pos m) - 1) <= Z.pos m < 2 ^ Z.pos (digits2_pos m))%Z.
Proof.
  induction m as [m IH|m IH|]; cbn [digits2_pos].
  - rewrite Pos2Z.inj_succ.
    replace (Z.succ (Z.pos (digits2_pos m)) - 1)%Z with (Z.succ (Z.pos (digits2_pos m) - 1))%Z by lia.
    rewrite !Z.pow_succ_r by lia. lia.
  - rewrite Pos2Z.inj_succ.
    replace (Z.succ (Z.pos (digits2_pos m)) - 1)%Z with (Z.succ (Z.pos (digits2_pos m) - 1))%Z by lia.
    rewrite !Z.pow_succ_r by lia. lia.
  - cbn. lia.
Qed.

Lemma bounded_bounds (m : positive) (e : Z) :
  bounded prec emax m e = true ->
  (Z.pos m < 2 ^ 53)%Z /\ (-1074 <= e <= 971)%Z /\ (-1074 < e -> 2 ^ 52 <= Z.pos m)%Z.
Proof.
  unfold bounded, canonical_mantissa, fexp, SpecFloat.emin, prec, emax.
  intros H. apply andb_true_iff in H. destruct H as [Hc He].
  apply Z.eqb_eq in Hc. apply Z.leb_le in He.
  pose proof (digits2_pos_bounds m) as [Hlo Hhi].
  set (d := Z.pos (digits2_pos m)) in *.
  assert (Hd : (d <= 53)%Z) by lia.
  split.
  - apply (Z.lt_le_trans _ _ _ Hhi). apply Z.pow_le_mono_r; lia.
  - split; [lia|]. intros He'. assert (d = 53%Z) by lia.
    replace 52%Z with (d - 1)%Z by lia. exact Hlo.
Qed.

Lemma finite_bounds (m : positive) (e : Z) :
  bounded prec emax m e = true ->
  0 < IZR (Z.pos m) * bpow e < bpow 1024
  /\ IZR (Z.pos m) * bpow e < bpow (53 + e)
  /\ ((-1074 < e)%Z -> bpow (52 + e) <= IZR (Z.pos m) * bpow e).
Proof.
  intros H. destruct (bounded_bounds m e H) as (Hm & He & Hn).
  pose proof (bpow_pos e) as He0.
  assert (Hm0 : 0 < IZR (Z.pos m)) by (apply IZR_lt; lia).
  assert (Hm1 : IZR (Z.pos m) < bpow 53).
  { rewrite bpow_IZR by lia. apply IZR_lt. exact Hm. }
  assert (H53 : IZR (Z.pos m) * bpow e < bpow (53 + e)).
  { rewrite bpow_add. nra. }
  split; [split|split].
  - nra.
  - apply (Rlt_le_trans _ _ _ H53). apply bpow_le. lia.
  - exact H53.
  - intros He'. rewrite bpow_add.
    assert (bpow 52 <= IZR (Z.pos m)).
    { rewrite bpow_IZR by lia. apply IZR_le. apply Hn, He'. }
    nra.
Qed.

Lemma finite_compare_pos (m1 m2 : positive) (e1 e2 : Z) :
  bounded prec emax m1 e1 = true -> bounded prec emax m2 e2 = true ->
  Rcmp (IZR (Z.pos m1) * bpow e1) (IZR (Z.pos m2) * bpow e2)
    match (e1 ?= e2)%Z with
    | Lt => Lt
    | Gt => Gt
    | Eq => Pos.compare_cont Eq m1 m2
    end.
Proof.
  intros H1 H2.
  destruct (finite_bounds m1 e1 H1) as (_ & Hu1 & Hl1).
  destruct (finite_bounds m2 e2 H2) as (_ & Hu2 & Hl2).
  destruct (bounded_bounds m1 e1 H1) as (_ & He1 & _).
  destruct (bounded_bounds m2 e2 H2) as (_ & He2 & _).
  destruct (Z.compare_spec e1 e2) as [E|E|E].
  - subst e2. change (Pos.compare_cont Eq m1 m2) with (Pos.compare m1 m2).
    pose proof (bpow_pos e1).
    destruct (Pos.compare_spec m1 m2) as [Em|Em|Em]; cbn [Rcmp].
    + subst. reflexivity.
    + apply Rmult_lt_compat_r; [assumption|]. apply IZR_lt. lia.
    + apply Rmult_lt_compat_r; [assumption|]. apply IZR_lt. lia.
  - cbn [Rcmp]. specialize (Hl2 ltac:(lia)).
    pose proof (bpow_le (53 + e1) (52 + e2) ltac:(lia)). lra.
  - cbn [Rcmp]. specialize (Hl1 ltac:(lia)).
    pose proof (bpow_le (53 + e2) (52 + e1) ltac:(lia)). lra.
Qed.

Lemma SFcompare_spec (x y : spec_float) :
  valid_binary x = true -> valid_binary y = true ->
  sf_is_nan x = false -> sf_is_nan y = false ->
  exists c, SFcompare x y = Some c /\ Rcmp (ext x) (ext y) c.
Proof.
  intros Vx Vy Nx Ny.
  pose proof (bpow_pos 1024) as HB.
  destruct x as [sx|sx| |sx mx ex], y as [sy|sy| |sy my ey];
    try discriminate; cbn [SFcompare ext valid_binary] in *.
  - eexists; split; [reflexivity|]. reflexivity.
  - eexists; split; [reflexivity|]. destruct sy; cbn [Rcmp]; lra.
  - destruct (finite_bounds my ey Vy) as ((H0 & _) & _).
    eexists; split; [reflexivity|]. destruct sy; cbn [Rcmp]; lra.
  - eexists; split; [reflexivity|]. destruct sx; cbn [Rcmp]; lra.
  - eexists; split; [reflexivity|]. destruct sx, sy; cbn [Rcmp]; lra.
  - destruct (finite_bounds my ey Vy) as ((H0 & H1) & _).
    eexists; split; [reflexivity|]. destruct sx, sy; cbn [Rcmp]; lra.
  - destruct (finite_bounds mx ex Vx) as ((H0 & _) & _).
    eexists; split; [reflexivity|]. destruct sx; cbn [Rcmp]; lra.
  - destruct (finite_bounds mx ex Vx) as ((H0 & H1) & _).
    eexists; split; [reflexivity|]. destruct sx, sy; cbn [Rcmp]; lra.
  - destruct (finite_bounds mx ex Vx) as ((Hx0 & _) & _).
    destruct (finite_bounds my ey Vy) as ((Hy0 & _) & _).
    pose proof (finite_compare_pos mx my ex ey Vx Vy) as Hc.
    eexists; split; [reflexivity|].
    destruct sx, sy; cbn [Rcmp]; try lra.
    + destruct (ex ?= ey)%Z; [destruct (Pos.compare_cont Eq mx my)| |];
        cbn [CompOpp Rcmp] in *; lra.
    + exact Hc.
Qed.

Lemma bpow_m1 : bpow (-1) = / 2.
Proof. change (bpow (-1)) with (/ (2 * 1)). f_equal. lra. Qed.

Lemma rep_bounds (w : R) (mrs : shr_record) :
  rep w mrs -> IZR (shr_m mrs) <= w < IZR (shr_m mrs) + 1.
Proof.
  intros [_ H]. destruct (shr_r mrs), (shr_s mrs); lra.
Qed.

Lemma shr_1_spec (w : R) (mrs : shr_record) :
  rep w mrs -> rep (w * / 2) (shr_1 mrs).
Proof.
  destruct mrs as [m r s]. unfold rep. cbn [shr_m shr_r shr_s].
  intros [Hm H].
  destruct m as [|p|p]; [|destruct p as [p|p|]|lia]; cbn [shr_1 shr_m shr_r shr_s].
  - split; [lia|]. destruct r, s; cbn [orb]; lra.
  - split; [lia|]. rewrite Pos2Z.inj_xI, plus_IZR, mult_IZR in H.
    destruct r, s; cbn [orb]; lra.
  - split; [lia|]. rewrite Pos2Z.inj_xO, mult_IZR in H.
    destruct r, s; cbn [orb]; lra.
  - split; [lia|]. destruct r, s; cbn [orb]; lra.
Qed.

Lemma iter_shr_1_spec (p : positive) :
  forall (w : R) (mrs : shr_record),
    rep w mrs -> rep (w * bpow (- Z.pos p)) (iter_pos shr_1 p mrs).
Proof.
  induction p as [p IH|p IH|]; intros w mrs H; cbn [iter_pos].
  - replace (w * bpow (- Z.pos p~1))
      with (w * / 2 * bpow (- Z.pos p) * bpow (- Z.pos p)).
    + apply IH, IH, shr_1_spec, H.
    + replace (- Z.pos p~1)%Z with (-1 + (- Z.pos p + - Z.pos p))%Z by lia.
      rewrite !bpow_add, bpow_m1. ring.
  - replace (w * bpow (- Z.pos p~0))
      with (w * bpow (- Z.pos p) * bpow (- Z.pos p)).
    + apply IH, IH, H.
    + replace (- Z.pos p~0)%Z with (- Z.pos p + - Z.pos p)%Z by lia.
      rewrite !bpow_add. ring.
  - change (Z.opp (Z.pos 1)) with (Z.neg 1). rewrite bpow_m1. apply shr_1_spec, H.
Qed.

Lemma shr_spec (mrs : shr_record) (e n : Z) (w : R) :
  rep w mrs -> (0 <= n)%Z ->
  snd (shr mrs e n) = (e + n)%Z /\ rep (w * bpow (- n)) (fst (shr mrs e n)).
Proof.
  intros H Hn. destruct n as [|p|p]; [| |lia]; cbn [shr fst snd].
  - split; [lia|]. change (- 0)%Z with 0%Z. rewrite bpow_0, Rmult_1_r. exact H.
  - split; [reflexivity|]. apply iter_shr_1_spec, H.
Qed.

Lemma rne_spec_round (w : R) (mrs : shr_record) :
  rep w mrs ->
  rne_spec w (round_nearest_even (shr_m mrs) (loc_of_shr_record mrs))
  /\ (shr_m mrs <= round_nearest_even (shr_m mrs) (loc_of_shr_record mrs))%Z.
Proof.
  destruct mrs as [m r s]. unfold rep, rne_spec. cbn [shr_m shr_r shr_s].
  intros [Hm H].
  destruct r, s; cbn [loc_of_shr_record round_nearest_even].
  - rewrite plus_IZR. split; [|lia]. split; [lra|]. intros [E|E]; lra.
  - destruct (Z.even m) eqn:Ev.
    + split; [|lia]. split; [lra|]. intros _. exact Ev.
    + rewrite plus_IZR. split; [|lia]. split; [lra|]. intros _.
      rewrite Z.even_add, Ev. reflexivity.
  - split; [|lia]. split; [lra|]. intros [E|E]; lra.
  - split; [|lia]. split; [lra|]. intros [E|E]; lra.
Qed.

Lemma rep_of_loc_m (m : Z) (l : location) : shr_m (shr_record_of_loc m l) = m.
Proof. destruct l as [|[| |]]; reflexivity. Qed.

Lemma Zdigits2_bounds (m : Z) :
  (0 < m)%Z -> (2 ^ (Zdigits2 m - 1) <= m < 2 ^ Zdigits2 m)%Z.
Proof.
  destruct m as [|p|p]; try lia. intros _. apply digits2_pos_bounds.
Qed.

Lemma Zdigits2_pos (m : Z) : (0 < m)%Z -> (0 < Zdigits2 m)%Z.
Proof. destruct m; cbn; lia. Qed.

Lemma IZR_pow2 (k : Z) : (0 <= k)%Z -> IZR (2 ^ k) = bpow k.
Proof. intros Hk. symmetry. apply bpow_IZR, Hk. Qed.

(** The exponent the rounding settles on is the canonical one of the value. *)
Lemma cexp_of_digits (m e : Z) (v : R) :
  (0 <= m)%Z ->
  IZR m * bpow e <= v < (IZR m + 1) * bpow e ->
  (e <= fexp prec emax (Zdigits2 m + e))%Z ->
  cexp_spec v (fexp prec emax (Zdigits2 m + e)).
Proof.
  intros Hm Hv Hn. unfold fexp, SpecFloat.emin, prec, emax in *.
  change (3 - 1024 - 53)%Z with (-1074)%Z in *.
  pose proof (bpow_pos e) as He.
  destruct (Z.eq_dec m 0) as [->|Hm0].
  - cbn [Zdigits2] in *. assert (Hc : Z.max (0 + e - 53) (-1074) = (-1074)%Z) by lia.
    rewrite Hc in *. split; [lia|]. split; [lia|].
    apply (Rlt_le_trans _ (bpow e)); [lra|]. apply bpow_le. lia.
  - assert (Hpos : (0 < m)%Z) by lia.
    destruct (Zdigits2_bounds m Hpos) as [Hlo Hhi].
    pose proof (Zdigits2_pos m Hpos) as Hd.
    set (d := Zdigits2 m) in *.
    assert (Hlo' : bpow (d - 1) <= IZR m).
    { rewrite <- IZR_pow2 by lia. apply IZR_le, Hlo. }
    assert (Hhi' : IZR m + 1 <= bpow d).
    { rewrite <- IZR_pow2 by lia. rewrite <- plus_IZR. apply IZR_le. lia. }
    assert (Hv1 : bpow (d - 1 + e) <= v) by (rewrite bpow_add; nra).
    assert (Hv2 : v < bpow (d + e)) by (rewrite bpow_add; nra).
    split; [lia|]. split.
    + intros Hc. apply (Rle_trans _ (bpow (d - 1 + e))); [|exact Hv1].
      apply bpow_le. lia.
    + apply (Rlt_le_trans _ _ _ Hv2). apply bpow_le. lia.
Qed.

Lemma bpow_scale (c k : Z) : bpow (c + k) * bpow (- c) = bpow k.
Proof. rewrite <- bpow_add. f_equal. lia. Qed.

Lemma bpow_unscale (v : R) (c : Z) : v * bpow (- c) * bpow c = v.
Proof.
  rewrite Rmult_assoc, <- bpow_add. replace (- c + c)%Z with 0%Z by lia.
  rewrite bpow_0. ring.
Qed.

Lemma rne_lower (w : R) (M K : Z) : rne_spec w M -> IZR K <= w -> (K <= M)%Z.
Proof.
  intros [[_ Hu] _] HK. apply Z.lt_succ_r, lt_IZR. rewrite succ_IZR. lra.
Qed.

Lemma rne_upper (w : R) (M K : Z) : rne_spec w M -> w <= IZR K -> (M <= K)%Z.
Proof.
  intros [[Hl _] _] HK. apply Z.lt_succ_r, lt_IZR. rewrite succ_IZR. lra.
Qed.

Lemma rne_mono (w1 w2 : R) (M1 M2 : Z) :
  rne_spec w1 M1 -> rne_spec w2 M2 -> w1 <= w2 -> (M1 <= M2)%Z.
Proof.
  intros [[Hl1 Hu1] He1] [[Hl2 Hu2] He2] Hw.
  destruct (Z_le_gt_dec M1 M2) as [Hle|Hgt]; [exact Hle|exfalso].
  assert (H1 : IZR M2 + 1 <= IZR M1).
  { rewrite <- succ_IZR. apply IZR_le. lia. }
  assert (E1 : w1 = IZR M1 - / 2) by lra.
  assert (E2 : w2 = IZR M2 + / 2) by lra.
  assert (EM : IZR M1 = IZR (Z.succ M2)) by (rewrite succ_IZR; lra).
  apply eq_IZR in EM. specialize (He1 (or_introl E1)). specialize (He2 (or_intror E2)).
  rewrite EM, Z.even_succ, <- Z.negb_even, He2 in He1. discriminate He1.
Qed.

Lemma cexp_scaled (v : R) (c : Z) :
  cexp_spec v c ->
  v * bpow (- c) < IZR (2 ^ 53) /\ ((-1074 < c)%Z -> IZR (2 ^ 52) <= v * bpow (- c)).
Proof.
  intros (Hc & Hlo & Hhi). pose proof (bpow_pos (- c)) as Hp.
  rewrite !IZR_pow2 by lia. split.
  - rewrite <- (bpow_scale c 53). apply Rmult_lt_compat_r; assumption.
  - intros Hc'. rewrite <- (bpow_scale c 52). apply Rmult_le_compat_r; [lra|].
    apply Hlo, Hc'.
Qed.

Lemma rounds_to_nonneg (v a : R) : 0 <= v -> rounds_to v a -> 0 <= a.
Proof.
  intros Hv (c & M & Hc & HM & ->).
  pose proof (bpow_pos c). pose proof (bpow_pos (- c)). pose proof (bpow_pos 1024).
  assert (HM0 : (0 <= M)%Z) by (apply (rne_lower _ _ 0 HM); nra).
  apply IZR_le in HM0. apply Rmin_glb; nra.
Qed.

Lemma rounds_to_mono (v1 v2 a1 a2 : R) :
  rounds_to v1 a1 -> rounds_to v2 a2 -> v1 <= v2 -> a1 <= a2.
Proof.
  intros (c1 & M1 & Hc1 & HM1 & ->) (c2 & M2 & Hc2 & HM2 & ->) Hv.
  destruct (cexp_scaled v1 c1 Hc1) as [Hu1 Hl1].
  destruct (cexp_scaled v2 c2 Hc2) as [Hu2 Hl2].
  destruct (Z.lt_trichotomy c1 c2) as [Hlt|[<-|Hgt]].
  - assert (HM1u : (M1 <= 2 ^ 53)%Z) by (apply (rne_upper _ _ _ HM1); lra).
    assert (HM2l : (2 ^ 52 <= M2)%Z).
    { apply (rne_lower _ _ _ HM2). apply Hl2. destruct Hc1. lia. }
    apply IZR_le in HM1u, HM2l. rewrite IZR_pow2 in HM1u, HM2l by lia.
    pose proof (bpow_pos c1). pose proof (bpow_pos c2).
    pose proof (bpow_le (53 + c1) (52 + c2) ltac:(lia)) as Hb.
    rewrite !bpow_add in Hb.
    apply Rmin_glb; [apply Rmin_l|].
    apply (Rle_trans _ _ _ (Rmin_r _ _)). nra.
  - pose proof (bpow_pos c1). pose proof (bpow_pos (- c1)).
    assert (HM : (M1 <= M2)%Z).
    { apply (rne_mono _ _ _ _ HM1 HM2). nra. }
    apply IZR_le in HM. apply Rle_min_compat_l. nra.
  - exfalso. destruct Hc1 as (_ & Hlo1 & _), Hc2 as (Hc2 & _ & Hhi2).
    specialize (Hlo1 ltac:(lia)).
    pose proof (bpow_le (c2 + 53) (c1 + 52) ltac:(lia)). lra.
Qed.

Lemma rounds_to_zero (a : R) : rounds_to 0 a -> a = 0.
Proof.
  intros (c & M & Hc & HM & ->).
  assert (M = 0%Z).
  { rewrite Rmult_0_l in HM.
    pose proof (rne_lower _ _ 0 HM ltac:(lra)).
    pose proof (rne_upper _ _ 0 HM ltac:(lra)). lia. }
  subst M. rewrite Rmult_0_l. pose proof (bpow_pos 1024). apply Rmin_right. lra.
Qed.

Lemma shr_nonpos (mrs : shr_record) (e n : Z) : (n <= 0)%Z -> shr mrs e n = (mrs, e).
Proof. destruct n; [reflexivity|lia|reflexivity]. Qed.

Lemma Zdigits2_le (M k : Z) : (0 <= k)%Z -> (0 <= M < 2 ^ k)%Z -> (Zdigits2 M <= k)%Z.
Proof.
  intros Hk HM. destruct (Z.eq_dec M 0) as [->|Hne]; [cbn; lia|].
  destruct (Zdigits2_bounds M ltac:(lia)) as [Hlo _].
  pose proof (Zdigits2_pos M ltac:(lia)).
  apply Z.lt_succ_r. replace (Z.succ k) with (k + 1)%Z by lia.
  apply Z.lt_sub_lt_add_r.
  apply (Z.pow_lt_mono_r_iff 2); lia.
Qed.

(** What [binary_round_aux] returns for a value [v] located by (m, e, l). *)
Lemma binary_round_aux_spec (s : bool) (m e : Z) (l : location) (v : R) :
  rep (v * bpow (- e)) (shr_record_of_loc m l) ->
  (e <= fexp prec emax (Zdigits2 m + e))%Z ->
  sf_is_nan (binary_round_aux prec emax s m e l) = false /\
  exists a, rounds_to v a /\
    ext (binary_round_aux prec emax s m e l) = if s then - a else a.
Proof.
  intros Hrep Hn.
  assert (Hm : (0 <= m)%Z) by (destruct Hrep as [Hm _]; rewrite rep_of_loc_m in Hm; exact Hm).
  pose proof (rep_bounds _ _ Hrep) as Hb. rewrite rep_of_loc_m in Hb.
  assert (Hv : IZR m * bpow e <= v < (IZR m + 1) * bpow e).
  { pose proof (bpow_pos e). rewrite <- (bpow_unscale v e). split; nra. }
  pose proof (cexp_of_digits m e v Hm Hv Hn) as Hc.
  unfold binary_round_aux, shr_fexp.
  set (c := fexp prec emax (Zdigits2 m + e)) in *.
  destruct (shr_spec (shr_record_of_loc m l) e (c - e) _ Hrep ltac:(lia)) as [He' Hrep'].
  destruct (shr (shr_record_of_loc m l) e (c - e)) as [mrs' e'].
  cbn [fst snd] in He', Hrep'.
  assert (Ee : e' = c) by lia. clear He'. subst e'.
  replace (v * bpow (- e) * bpow (- (c - e))) with (v * bpow (- c)) in Hrep'.
  2:{ rewrite Rmult_assoc, <- bpow_add. do 2 f_equal. lia. }
  destruct (rne_spec_round _ _ Hrep') as [HM HmM].
  set (M := round_nearest_even (shr_m mrs') (loc_of_shr_record mrs')) in *.
  assert (HM0 : (0 <= M)%Z) by (destruct Hrep'; lia).
  destruct (cexp_scaled v c Hc) as [Hu Hl].
  assert (HMu : (M <= 2 ^ 53)%Z) by (apply (rne_upper _ _ _ HM); lra).
  assert (Hround : rounds_to v (Rmin (bpow 1024) (IZR M * bpow c)))
    by (exists c, M; split; [exact Hc|split; [exact HM|reflexivity]]).
  destruct Hc as (Hc1 & _ & _).
  pose proof (bpow_pos c) as Hpc.
  change (shr_record_of_loc M loc_Exact) with (Build_shr_record M false false).
  destruct (Z.eq_dec M (2 ^ 53)) as [E|NE].
  - (* the rounded mantissa has one digit too many *)
    rewrite E. change (Zdigits2 (2 ^ 53)) with 54%Z.
    replace (fexp prec emax (54 + c) - c)%Z with 1%Z
      by (unfold fexp, SpecFloat.emin, prec, emax; lia).
    cbn [shr iter_pos]. change (2 ^ 53)%Z with 9007199254740992%Z.
    cbn [shr_1 shr_m orb].
    assert (Ha : IZR M * bpow c = IZR (Z.pos 4503599627370496) * bpow (c + 1)).
    { rewrite E, bpow_add, bpow_1.
      change (2 ^ 53)%Z with (2 * 4503599627370496)%Z. rewrite mult_IZR. ring. }
    destruct (Z.leb_spec (c + 1) (emax - prec)) as [Hle|Hgt];
      unfold emax, prec in *; cbn [sf_is_nan ext]; (split; [reflexivity|]);
      eexists; (split; [exact Hround|]).
    + rewrite Rmin_right; [rewrite Ha; reflexivity|].
      rewrite Ha. change 4503599627370496%Z with (2 ^ 52)%Z. rewrite IZR_pow2 by lia.
      rewrite <- bpow_add. apply bpow_le. lia.
    + rewrite Rmin_left; [reflexivity|].
      rewrite Ha. change 4503599627370496%Z with (2 ^ 52)%Z. rewrite IZR_pow2 by lia.
      rewrite <- bpow_add. apply bpow_le. lia.
  - assert (HMlt : (M < 2 ^ 53)%Z) by lia.
    pose proof (Zdigits2_le M 53 ltac:(lia) ltac:(lia)) as Hd.
    rewrite shr_nonpos by (unfold fexp, SpecFloat.emin, prec, emax; lia).
    cbn [shr_m].
    destruct M as [|p|p] eqn:EM; [| |lia].
    + cbn [sf_is_nan ext]. split; [reflexivity|].
      eexists; split; [exact Hround|].
      rewrite Rmult_0_l. pose proof (bpow_pos 1024).
      rewrite Rmin_right by lra. destruct s; lra.
    + assert (HpR : IZR (Z.pos p) < bpow 53).
      { rewrite <- IZR_pow2 by lia. apply IZR_lt, HMlt. }
      destruct (Z.leb_spec c (emax - prec)) as [Hle|Hgt];
        unfold emax, prec in *; cbn [sf_is_nan ext]; (split; [reflexivity|]);
        eexists; (split; [exact Hround|]).
      * rewrite Rmin_right; [reflexivity|].
        pose proof (bpow_le (53 + c) 1024 ltac:(lia)) as Hb'.
        rewrite bpow_add in Hb'. nra.
      * rewrite Rmin_left; [reflexivity|].
        assert (HpL : (2 ^ 52 <= Z.pos p)%Z).
        { apply (rne_lower _ _ _ HM). apply Hl. lia. }
        apply IZR_le in HpL. rewrite IZR_pow2 in HpL by lia.
        pose proof (bpow_le 1024 (52 + c) ltac:(lia)) as Hb'.
        rewrite bpow_add in Hb'. nra.
Qed.

Lemma Rnd_mono (v1 v2 : R) (r1 r2 : spec_float) :
  Rnd v1 r1 -> Rnd v2 r2 -> v1 <= v2 -> ext r1 <= ext r2.
Proof.
  intros [_ [[H1 R1]|[H1 R1]]] [_ [[H2 R2]|[H2 R2]]] Hv.
  - apply (rounds_to_mono v1 v2); assumption.
  - assert (v1 = 0) by lra. assert (v2 = 0) by lra. subst.
    rewrite Ropp_0 in R2. apply rounds_to_zero in R1, R2. lra.
  - pose proof (rounds_to_nonneg (- v1) _ ltac:(lra) R1).
    pose proof (rounds_to_nonneg _ _ H2 R2). lra.
  - pose proof (rounds_to_mono (- v2) (- v1) _ _ R2 R1 ltac:(lra)). lra.
Qed.

Lemma Rnd_bounds (v : R) (r : spec_float) :
  Rnd v r -> - bpow 1024 <= ext r <= bpow 1024.
Proof.
  intros [_ [[H R]|[H R]]].
  - pose proof (rounds_to_nonneg _ _ H R) as H0.
    destruct R as (c & M & _ & _ & E). rewrite E in *.
    pose proof (Rmin_l (bpow 1024) (IZR M * bpow c)). lra.
  - pose proof (rounds_to_nonneg (- v) _ ltac:(lra) R) as H0.
    destruct R as (c & M & _ & _ & E). rewrite E in *.
    pose proof (Rmin_l (bpow 1024) (IZR M * bpow c)). lra.
Qed.

Lemma Rnd_nonneg (v : R) (r : spec_float) : Rnd v r -> 0 <= v -> 0 <= ext r.
Proof.
  intros [_ [[H R]|[H R]]] Hv.
  - apply (rounds_to_nonneg v); assumption.
  - assert (v = 0) by lra. subst. rewrite Ropp_0 in R.
    apply rounds_to_zero in R. lra.
Qed.

Lemma Rnd_not_nan (v : R) (r : spec_float) : Rnd v r -> sf_is_nan r = false.
Proof. intros [H _]. exact H. Qed.

Lemma rounds_to_0_0 : rounds_to 0 0.
Proof.
  exists (-1074)%Z, 0%Z. split; [|split].
  - split; [lia|]. split; [lia|]. apply bpow_pos.
  - rewrite Rmult_0_l. split; [lra|]. intros [E|E]; lra.
  - rewrite Rmult_0_l. pose proof (bpow_pos 1024). rewrite Rmin_right; lra.
Qed.

Lemma Rnd_zero (s : bool) : Rnd 0 (S754_zero s).
Proof.
  split; [reflexivity|]. left. split; [lra|]. apply rounds_to_0_0.
Qed.

Lemma rounds_to_self (m : positive) (e : Z) :
  bounded prec emax m e = true ->
  rounds_to (IZR (Z.pos m) * bpow e) (IZR (Z.pos m) * bpow e).
Proof.
  intros Hb. destruct (finite_bounds m e Hb) as ((H0 & H1) & Hu & Hl).
  destruct (bounded_bounds m e Hb) as (_ & He & _).
  exists e, (Z.pos m). split; [|split].
  - split; [lia|]. split.
    + intros He'. rewrite Z.add_comm. apply Hl, He'.
    + rewrite Z.add_comm. exact Hu.
  - rewrite Rmult_assoc, <- bpow_add. replace (e + - e)%Z with 0%Z by lia.
    rewrite bpow_0, Rmult_1_r. split; [lra|]. intros [E|E]; lra.
  - rewrite Rmin_right; lra.
Qed.

Lemma Rnd_self (x : spec_float) :
  valid_binary x = true -> sf_fin x = true -> Rnd (ext x) x.
Proof.
  intros Hv Hf. destruct x as [s|s| |s m e]; try discriminate Hf.
  - apply Rnd_zero.
  - cbn [valid_binary] in Hv.
    destruct (finite_bounds m e Hv) as ((H0 & _) & _).
    split; [reflexivity|]. cbn [ext]. destruct s.
    + right. split; [lra|]. rewrite Ropp_involutive. apply rounds_to_self, Hv.
    + left. split; [lra|]. apply rounds_to_self, Hv.
Qed.

(** Rounding of a located magnitude, with its sign. *)
Lemma binary_round_aux_Rnd (s : bool) (m e : Z) (l : location) (v : R) :
  rep (v * bpow (- e)) (shr_record_of_loc m l) ->
  (e <= fexp prec emax (Zdigits2 m + e))%Z ->
  Rnd (if s then - v else v) (binary_round_aux prec emax s m e l).
Proof.
  intros Hrep Hn.
  assert (Hv : 0 <= v).
  { pose proof (rep_bounds _ _ Hrep) as Hb. destruct Hrep as [Hm _].
    rewrite rep_of_loc_m in *. apply IZR_le in Hm.
    pose proof (bpow_pos e). rewrite <- (bpow_unscale v e). nra. }
  destruct (binary_round_aux_spec s m e l v Hrep Hn) as [Hnan (a & Ha & E)].
  split; [exact Hnan|]. rewrite E. destruct s.
  - right. split; [lra|]. rewrite !Ropp_involutive. exact Ha.
  - left. split; assumption.
Qed.

(** *** Alignment *)

Lemma iter_xO_spec (m d : positive) :
  Z.pos (Pos.iter xO m d) = (Z.pos m * 2 ^ Z.pos d)%Z
  /\ digits2_pos (Pos.iter xO m d) = (digits2_pos m + d)%positive.
Proof.
  induction d as [|d IH] using Pos.peano_ind.
  - cbn [Pos.iter]. split; [lia|]. cbn [digits2_pos]. lia.
  - rewrite Pos.iter_succ. destruct IH as [IH1 IH2]. split.
    + rewrite Pos2Z.inj_xO, IH1, Pos2Z.inj_succ, Z.pow_succ_r by lia. ring.
    + cbn [digits2_pos]. rewrite IH2. lia.
Qed.

Lemma shl_align_spec (m : positive) (e e' : Z) :
  snd (shl_align m e e') = Z.min e e'
  /\ IZR (Z.pos (fst (shl_align m e e'))) * bpow (snd (shl_align m e e'))
     = IZR (Z.pos m) * bpow e
  /\ (Z.pos (digits2_pos (fst (shl_align m e e'))) + snd (shl_align m e e')
      = Z.pos (digits2_pos m) + e)%Z
  /\ Z.pos (fst (shl_align m e e')) = (Z.pos m * 2 ^ (e - Z.min e e'))%Z.
Proof.
  unfold shl_align. destruct (e' - e)%Z as [|d|d] eqn:E; cbn [fst snd].
  - replace (Z.min e e') with e by lia. rewrite Z.sub_diag.
    repeat split; lia.
  - replace (Z.min e e') with e by lia. rewrite Z.sub_diag.
    repeat split; lia.
  - destruct (iter_xO_spec m d) as [H1 H2].
    replace (Z.min e e') with e' by lia.
    split; [reflexivity|]. split; [|split].
    + rewrite H1, mult_IZR, IZR_pow2 by lia. rewrite Rmult_assoc, <- bpow_add.
      do 2 f_equal. lia.
    + rewrite H2. lia.
    + rewrite H1. do 2 f_equal. lia.
Qed.

Lemma binary_round_Rnd (s : bool) (m : positive) (e : Z) :
  Rnd (if s then - (IZR (Z.pos m) * bpow e) else IZR (Z.pos m) * bpow e)
      (binary_round prec emax s m e).
Proof.
  unfold binary_round.
  destruct (shl_align_spec m e (fexp prec emax (Z.pos (digits2_pos m) + e)))
    as (Hs & Hval & Hdig & _).
  destruct (shl_align m e _) as [mz ez]. cbn [fst snd] in *.
  rewrite <- Hval. apply binary_round_aux_Rnd.
  - split; [rewrite rep_of_loc_m; lia|]. cbn.
    rewrite Rmult_assoc, <- bpow_add. replace (ez + - ez)%Z with 0%Z by lia.
    rewrite bpow_0. ring.
  - cbn [Zdigits2]. rewrite Hdig. lia.
Qed.

Lemma binary_normalize_Rnd (m e : Z) (sz : bool) :
  Rnd (IZR m * bpow e) (binary_normalize prec emax m e sz).
Proof.
  destruct m as [|p|p]; cbn [binary_normalize].
  - rewrite Rmult_0_l. apply Rnd_zero.
  - apply (binary_round_Rnd false).
  - replace (IZR (Z.neg p) * bpow e) with (- (IZR (Z.pos p) * bpow e)).
    + apply (binary_round_Rnd true).
    + change (Z.neg p) with (- Z.pos p)%Z. rewrite opp_IZR. ring.
Qed.

(** *** Addition and subtraction *)

Lemma ext_finite (s : bool) (m : positive) (e : Z) :
  ext (S754_finite s m e) = IZR (cond_Zopp s (Z.pos m)) * bpow e.
Proof.
  cbn [ext]. destruct s; cbn [cond_Zopp]; [|reflexivity].
  change (- Z.pos m)%Z with (Z.neg m).
  change (Z.neg m) with (- Z.pos m)%Z. rewrite opp_IZR. ring.
Qed.

Lemma aligned_value (s : bool) (m : positive) (e ez : Z) :
  (ez <= e)%Z ->
  IZR (cond_Zopp s (Z.pos (fst (shl_align m e ez)))) * bpow ez
  = ext (S754_finite s m e).
Proof.
  intros Hle. destruct (shl_align_spec m e ez) as (Hs & Hval & _ & _).
  rewrite Z.min_r in Hs by exact Hle. rewrite Hs in Hval.
  rewrite ext_finite. destruct s; cbn [cond_Zopp].
  - rewrite !opp_IZR. lra.
  - exact Hval.
Qed.

Lemma SFadd_Rnd (x y : spec_float) :
  valid_binary x = true -> valid_binary y = true ->
  sf_fin x = true -> sf_fin y = true ->
  Rnd (ext x + ext y) (SFadd prec emax x y).
Proof.
  intros Vx Vy Fx Fy.
  destruct x as [sx|sx| |sx mx ex]; try discriminate Fx;
    destruct y as [sy|sy| |sy my ey]; try discriminate Fy.
  - cbn [SFadd ext]. rewrite Rplus_0_l.
    destruct sx, sy; apply Rnd_zero.
  - cbn [SFadd]. change (ext (S754_zero sx)) with 0. rewrite Rplus_0_l.
    apply Rnd_self; [exact Vy|reflexivity].
  - cbn [SFadd]. change (ext (S754_zero sy)) with 0. rewrite Rplus_0_r.
    apply Rnd_self; [exact Vx|reflexivity].
  - cbn [SFadd].
    rewrite <- (aligned_value sx mx ex (Z.min ex ey)) by lia.
    rewrite <- (aligned_value sy my ey (Z.min ex ey)) by lia.
    rewrite <- Rmult_plus_distr_r, <- plus_IZR.
    apply binary_normalize_Rnd.
Qed.

Lemma SFsub_add_opp (x y : spec_float) :
  SFsub prec emax x y = SFadd prec emax x (SFopp y).
Proof.
  destruct x as [sx|sx| |sx mx ex], y as [sy|sy| |sy my ey];
    cbn [SFsub SFadd SFopp]; try reflexivity.
  - destruct sx, sy; reflexivity.
  - destruct sx, sy; reflexivity.
  - f_equal. destruct sy; cbn [negb cond_Zopp]; lia.
Qed.

Lemma ext_opp (y : spec_float) : ext (SFopp y) = - ext y.
Proof.
  destruct y as [s|s| |s m e]; cbn [SFopp ext]; try lra; destruct s; cbn [negb]; lra.
Qed.

Lemma valid_opp (y : spec_float) : valid_binary (SFopp y) = valid_binary y.
Proof. destruct y; reflexivity. Qed.

Lemma sf_fin_opp (y : spec_float) : sf_fin (SFopp y) = sf_fin y.
Proof. destruct y; reflexivity. Qed.

Lemma sf_is_nan_opp (y : spec_float) : sf_is_nan (SFopp y) = sf_is_nan y.
Proof. destruct y; reflexivity. Qed.

(** *** Multiplication *)

Lemma digits2_mul_lower (mx my : positive) :
  (Z.pos (digits2_pos mx) + Z.pos (digits2_pos my) - 1
   <= Z.pos (digits2_pos (mx * my)))%Z.
Proof.
  destruct (digits2_pos_bounds mx) as [Hx _].
  destruct (digits2_pos_bounds my) as [Hy _].
  destruct (digits2_pos_bounds (mx * my)) as [_ Hp].
  set (d1 := Z.pos (digits2_pos mx)) in *. set (d2 := Z.pos (digits2_pos my)) in *.
  set (d := Z.pos (digits2_pos (mx * my))) in *.
  assert (H1 : (0 < d1)%Z) by (unfold d1; lia).
  assert (H2 : (0 < d2)%Z) by (unfold d2; lia).
  assert (Hprod : (2 ^ (d1 - 1 + (d2 - 1)) <= Z.pos (mx * my))%Z).
  { rewrite Z.pow_add_r by lia. rewrite Pos2Z.inj_mul.
    apply Z.mul_le_mono_nonneg; try assumption; apply Z.pow_nonneg; lia. }
  assert (Hlt : (2 ^ (d1 - 1 + (d2 - 1)) < 2 ^ d)%Z) by lia.
  apply Z.pow_lt_mono_r_iff in Hlt; unfold d in *; lia.
Qed.

Lemma canonical_cases (m : positive) (e : Z) :
  bounded prec emax m e = true ->
  (-1074 <= e)%Z /\ (Z.pos (digits2_pos m) <= 53)%Z
  /\ (Z.pos (digits2_pos m) = 53%Z \/ e = (-1074)%Z).
Proof.
  unfold bounded, canonical_mantissa, fexp, SpecFloat.emin, prec, emax.
  intros H. apply andb_true_iff in H. destruct H as [Hc _].
  apply Z.eqb_eq in Hc. lia.
Qed.

Lemma SFmul_Rnd (x y : spec_float) :
  valid_binary x = true -> valid_binary y = true ->
  sf_fin x = true -> sf_fin y = true ->
  Rnd (ext x * ext y) (SFmul prec emax x y).
Proof.
  intros Vx Vy Fx Fy.
  destruct x as [sx|sx| |sx mx ex]; try discriminate Fx;
    destruct y as [sy|sy| |sy my ey]; try discriminate Fy;
    cbn [SFmul].
  - cbn [ext]. rewrite Rmult_0_l. apply Rnd_zero.
  - change (ext (S754_zero sx)) with 0. rewrite Rmult_0_l. apply Rnd_zero.
  - change (ext (S754_zero sy)) with 0. rewrite Rmult_0_r. apply Rnd_zero.
  - cbn [valid_binary] in Vx, Vy.
    destruct (canonical_cases mx ex Vx) as (Hex & Hdx & Hcx).
    destruct (canonical_cases my ey Vy) as (Hey & Hdy & Hcy).
    pose proof (digits2_mul_lower mx my) as Hd.
    assert (Hdx0 : (0 < Z.pos (digits2_pos mx))%Z) by lia.
    assert (Hdy0 : (0 < Z.pos (digits2_pos my))%Z) by lia.
    replace (ext (S754_finite sx mx ex) * ext (S754_finite sy my ey))
      with (if xorb sx sy
            then - (IZR (Z.pos (mx * my)) * bpow (ex + ey))
            else IZR (Z.pos (mx * my)) * bpow (ex + ey)).
    + apply binary_round_aux_Rnd.
      * split; [cbn; lia|]. cbn.
        rewrite Rmult_assoc, <- bpow_add.
        replace (ex + ey + - (ex + ey))%Z with 0%Z by lia. rewrite bpow_0. ring.
      * cbn [Zdigits2]. unfold fexp, SpecFloat.emin, prec, emax. lia.
    + rewrite Pos2Z.inj_mul, mult_IZR, bpow_add. cbn [ext].
      destruct sx, sy; cbn [xorb]; ring.
Qed.

Lemma SFmul_comm (x y : spec_float) : SFmul prec emax x y = SFmul prec emax y x.
Proof.
  destruct x as [sx|sx| |sx mx ex], y as [sy|sy| |sy my ey];
    cbn [SFmul]; try reflexivity; try (rewrite xorb_comm; reflexivity).
  rewrite xorb_comm, Pos.mul_comm, Z.add_comm. reflexivity.
Qed.

Lemma new_location_spec (nb k q : Z) :
  (0 <= q)%Z -> (0 <= k < nb)%Z ->
  rep (IZR q + IZR k / IZR nb) (shr_record_of_loc q (new_location nb k)).
Proof.
  intros Hq Hk.
  assert (HN : 0 < IZR nb) by (apply IZR_lt; lia).
  assert (Hx : IZR k / IZR nb * IZR nb = IZR k) by (field; lra).
  set (x := IZR k / IZR nb) in *.
  assert (Hk0 : 0 <= IZR k) by (apply IZR_le; lia).
  assert (Hk1 : IZR k < IZR nb) by (apply IZR_lt; lia).
  assert (Hx1 : x < 1) by nra.
  assert (Hlt : (2 * k < nb)%Z -> x < / 2).
  { intros H. apply IZR_lt in H. rewrite mult_IZR in H. nra. }
  assert (Hgt : (nb < 2 * k)%Z -> / 2 < x).
  { intros H. apply IZR_lt in H. rewrite mult_IZR in H. nra. }
  assert (Heq : (2 * k = nb)%Z -> x = / 2).
  { intros H. apply (f_equal IZR) in H. rewrite mult_IZR in H. nra. }
  assert (Hpos : (k <> 0)%Z -> 0 < x).
  { intros H. assert (0 < IZR k) by (apply IZR_lt; lia). nra. }
  unfold new_location.
  destruct (Z.even nb) eqn:Ev.
  - unfold new_location_even. destruct (Z.eqb_spec k 0) as [E|NE].
    + split; [exact Hq|]. cbn. subst k. unfold x. unfold Rdiv. ring.
    + specialize (Hpos NE).
      destruct (Z.compare_spec (2 * k) nb) as [E|E|E];
        (split; [rewrite rep_of_loc_m; exact Hq|]); cbn.
      * rewrite (Heq E). reflexivity.
      * specialize (Hlt E). lra.
      * specialize (Hgt E). lra.
  - unfold new_location_odd. destruct (Z.eqb_spec k 0) as [E|NE].
    + split; [exact Hq|]. cbn. subst k. unfold x. unfold Rdiv. ring.
    + specialize (Hpos NE).
      assert (Hne : (2 * k <> nb)%Z).
      { intros E. rewrite <- E, Z.even_mul in Ev. discriminate Ev. }
      destruct (Z.compare_spec (2 * k + 1) nb) as [E|E|E];
        (split; [rewrite rep_of_loc_m; exact Hq|]); cbn.
      * specialize (Hlt ltac:(lia)). lra.
      * specialize (Hlt ltac:(lia)). lra.
      * specialize (Hgt ltac:(lia)). lra.
Qed.

Lemma Zdigits2_nonneg (q : Z) : (0 <= Zdigits2 q)%Z.
Proof. destruct q; cbn; lia. Qed.

Lemma Zdigits2_lower (q k : Z) : (0 <= k)%Z -> (2 ^ k <= q)%Z -> (k + 1 <= Zdigits2 q)%Z.
Proof.
  intros Hk Hq.
  assert (Hq0 : (0 < q)%Z) by (pose proof (Z.pow_pos_nonneg 2 k ltac:(lia) Hk); lia).
  destruct (Zdigits2_bounds q Hq0) as [_ Hhi].
  pose proof (Zdigits2_pos q Hq0).
  assert (Hlt : (2 ^ k < 2 ^ Zdigits2 q)%Z) by lia.
  apply Z.pow_lt_mono_r_iff in Hlt; lia.
Qed.

Lemma SFdiv_core_binary_spec (mx my : positive) (ex ey : Z) :
  let '(q, e', l) := SFdiv_core_binary prec emax (Z.pos mx) ex (Z.pos my) ey in
  rep (IZR (Z.pos mx) * bpow ex / (IZR (Z.pos my) * bpow ey) * bpow (- e'))
      (shr_record_of_loc q l)
  /\ (e' <= fexp prec emax (Zdigits2 q + e'))%Z.
Proof.
  unfold SFdiv_core_binary. cbn [Zdigits2].
  set (d1 := Z.pos (digits2_pos mx)). set (d2 := Z.pos (digits2_pos my)).
  set (e' := Z.min (fexp prec emax (d1 + ex - (d2 + ey))) (ex - ey)).
  set (s := (ex - ey - e')%Z).
  assert (Hs : (0 <= s)%Z) by (unfold s, e'; lia).
  set (m' := match s with
             | 0%Z => Z.pos mx
             | Z.pos _ => Z.shiftl (Z.pos mx) s
             | Z.neg _ => 0%Z
             end).
  assert (Hm' : m' = (Z.pos mx * 2 ^ s)%Z).
  { unfold m'. destruct s as [|p|p] eqn:Es; [cbn; lia| |lia].
    apply Z.shiftl_mul_pow2. lia. }
  clearbody m'.
  pose proof (Z_div_mod m' (Z.pos my) ltac:(lia)) as Hdiv.
  destruct (Z.div_eucl m' (Z.pos my)) as [q r]. destruct Hdiv as [Hqr Hr].
  assert (H2s : (0 < 2 ^ s)%Z) by (apply Z.pow_pos_nonneg; lia).
  assert (Hq : (0 <= q)%Z) by nia.
  split.
  - replace (IZR (Z.pos mx) * bpow ex / (IZR (Z.pos my) * bpow ey) * bpow (- e'))
      with (IZR q + IZR r / IZR (Z.pos my)).
    + apply new_location_spec; assumption.
    + assert (Hmy : 0 < IZR (Z.pos my)) by (apply IZR_lt; lia).
      pose proof (bpow_pos ey) as Hey.
      assert (Hval : IZR (Z.pos mx) * bpow s = IZR (Z.pos my) * IZR q + IZR r).
      { rewrite <- IZR_pow2 by lia. rewrite <- !mult_IZR, <- plus_IZR.
        f_equal. lia. }
      assert (Hexp : bpow ex * bpow (- e') = bpow s * bpow ey).
      { rewrite <- !bpow_add. f_equal. unfold s. lia. }
      apply (Rmult_eq_reg_r (IZR (Z.pos my) * bpow ey)); [|nra].
      transitivity (IZR (Z.pos mx) * (bpow ex * bpow (- e'))); [|field; lra].
      rewrite Hexp.
      transitivity ((IZR (Z.pos my) * IZR q + IZR r) * bpow ey); [field; lra|].
      rewrite <- Hval. ring.
  - destruct (digits2_pos_bounds mx) as [Hx _].
    destruct (digits2_pos_bounds my) as [_ Hy].
    fold d1 in Hx. fold d2 in Hy.
    assert (Hd1 : (0 < d1)%Z) by (unfold d1; lia).
    assert (Hd2 : (0 < d2)%Z) by (unfold d2; lia).
    assert (Hdq : (d1 + s - d2 <= Zdigits2 q)%Z).
    { destruct (Z_le_gt_dec (d1 + s - d2) 0) as [Hle|Hgt].
      - pose proof (Zdigits2_nonneg q). lia.
      - set (k := (d1 + s - d2 - 1)%Z). assert (Hk : (0 <= k)%Z) by (unfold k; lia).
        assert (Hq2 : (2 ^ k <= q)%Z).
        { assert (Hlow : (2 ^ k * 2 ^ d2 <= m')%Z).
          { rewrite <- Z.pow_add_r by lia.
            replace (k + d2)%Z with (d1 - 1 + s)%Z by (unfold k; lia).
            rewrite Z.pow_add_r by lia. rewrite Hm'.
            apply Z.mul_le_mono_nonneg_r; lia. }
          assert (Hk2 : (0 < 2 ^ k)%Z) by (apply Z.pow_pos_nonneg; lia).
          nia. }
        pose proof (Zdigits2_lower q k Hk Hq2). unfold k in *. lia. }
    unfold fexp, SpecFloat.emin, prec, emax in *. unfold s in Hdq. lia.
Qed.

Lemma SFdiv_Rnd (x y : spec_float) :
  valid_binary x = true -> valid_binary y = true ->
  sf_fin x = true -> sf_fin y = true -> ext y <> 0 ->
  Rnd (ext x / ext y) (SFdiv prec emax x y).
Proof.
  intros Vx Vy Fx Fy Hy0.
  destruct y as [sy|sy| |sy my ey]; try discriminate Fy.
  { exfalso. apply Hy0. reflexivity. }
  destruct x as [sx|sx| |sx mx ex]; try discriminate Fx.
  - cbn [SFdiv]. change (ext (S754_zero sx)) with 0.
    unfold Rdiv. rewrite Rmult_0_l. apply Rnd_zero.
  - cbn [SFdiv].
    pose proof (SFdiv_core_binary_spec mx my ex ey) as Hcore.
    destruct (SFdiv_core_binary prec emax (Z.pos mx) ex (Z.pos my) ey) as [[q e'] l].
    destruct Hcore as [Hrep Hn].
    cbn [valid_binary] in Vx, Vy.
    destruct (finite_bounds my ey Vy) as ((Hy1 & _) & _).
    replace (ext (S754_finite sx mx ex) / ext (S754_finite sy my ey))
      with (if xorb sx sy
            then - (IZR (Z.pos mx) * bpow ex / (IZR (Z.pos my) * bpow ey))
            else IZR (Z.pos mx) * bpow ex / (IZR (Z.pos my) * bpow ey)).
    + apply binary_round_aux_Rnd; assumption.
    + pose proof (bpow_pos ey). assert (0 < IZR (Z.pos my)) by (apply IZR_lt; lia).
      cbn [ext]. destruct sx, sy; cbn [xorb]; field; repeat split; lra.
Qed.

Lemma sf_cases (x : spec_float) :
  x = S754_nan \/ (exists s, x = S754_infinity s) \/ sf_fin x = true.
Proof. destruct x; eauto. Qed.

Lemma fin_strict_bounds (x : spec_float) :
  valid_binary x = true -> sf_fin x = true -> - bpow 1024 < ext x < bpow 1024.
Proof.
  intros Hv Hf. pose proof (bpow_pos 1024).
  destruct x as [s|s| |s m e]; try discriminate Hf; cbn [ext]; [lra|].
  destruct (finite_bounds m e Hv) as ((H0 & H1) & _). destruct s; lra.
Qed.

Lemma le_or_nan_refl (x : spec_float) : le_or_nan x x.
Proof. right; right. lra. Qed.

Lemma le_or_nan_trans (x y z : spec_float) :
  sf_is_nan y = false -> le_or_nan x y -> le_or_nan y z -> le_or_nan x z.
Proof.
  intros Hy [H1|[H1|H1]] [H2|[H2|H2]]; try congruence;
    try (left; assumption); try (right; left; assumption).
  right; right. lra.
Qed.

(** An operation with one operand fixed, rounding a monotone real function on
    finite arguments and keeping infinities, is monotone. *)
Lemma mono_by_cases (f : spec_float -> spec_float) (g : R -> R) :
  f S754_nan = S754_nan ->
  (forall x, valid_binary x = true -> sf_fin x = true -> Rnd (g (ext x)) (f x)) ->
  (forall s, f (S754_infinity s) = S754_infinity s \/ f (S754_infinity s) = S754_nan) ->
  (forall a b, a <= b -> g a <= g b) ->
  forall x y, valid_binary x = true -> valid_binary y = true ->
    le_or_nan x y -> le_or_nan (f x) (f y).
Proof.
  intros Hnan Hfin Hinf Hg x y Vx Vy [Hx|[Hy|Hle]].
  - left. destruct x; try discriminate Hx. rewrite Hnan. reflexivity.
  - right; left. destruct y; try discriminate Hy. rewrite Hnan. reflexivity.
  - destruct (sf_cases x) as [->|[[sx ->]|Fx]].
    { left. rewrite Hnan. reflexivity. }
    + destruct (Hinf sx) as [Ex|Ex]; rewrite Ex; [|left; reflexivity].
      destruct (sf_cases y) as [->|[[sy ->]|Fy]].
      { right; left. rewrite Hnan. reflexivity. }
      * destruct (Hinf sy) as [Ey|Ey]; rewrite Ey; [|right; left; reflexivity].
        right; right. exact Hle.
      * pose proof (fin_strict_bounds y Vy Fy) as Hb.
        pose proof (Rnd_bounds _ _ (Hfin y Vy Fy)) as Hr.
        right; right. destruct sx; cbn [ext] in *; lra.
    + destruct (sf_cases y) as [->|[[sy ->]|Fy]].
      { right; left. rewrite Hnan. reflexivity. }
      * destruct (Hinf sy) as [Ey|Ey]; rewrite Ey; [|right; left; reflexivity].
        pose proof (fin_strict_bounds x Vx Fx) as Hb.
        pose proof (Rnd_bounds _ _ (Hfin x Vx Fx)) as Hr.
        right; right. destruct sy; cbn [ext] in *; lra.
      * right; right.
        apply (Rnd_mono _ _ _ _ (Hfin x Vx Fx) (Hfin y Vy Fy)). apply Hg, Hle.
Qed.

(** *** Addition *)

Lemma SFadd_inf_r (x : spec_float) (s : bool) :
  SFadd prec emax x (S754_infinity s) = S754_infinity s
  \/ SFadd prec emax x (S754_infinity s) = S754_nan.
Proof. destruct x as [sx|sx| |sx mx ex]; cbn; try destruct sx, s; auto. Qed.

Lemma SFadd_mono_l (x y c : spec_float) :
  valid_binary x = true -> valid_binary y = true -> valid_binary c = true ->
  le_or_nan x y -> le_or_nan (SFadd prec emax x c) (SFadd prec emax y c).
Proof.
  intros Vx Vy Vc Hle.
  destruct (sf_cases c) as [->|[[s ->]|Fc]].
  - left. destruct x; reflexivity.
  - destruct (SFadd_inf_r x s) as [-> | ->]; [|left; reflexivity].
    destruct (SFadd_inf_r y s) as [-> | ->]; [|right; left; reflexivity].
    apply le_or_nan_refl.
  - apply (mono_by_cases (fun x => SFadd prec emax x c) (fun a => a + ext c));
      try assumption.
    + reflexivity.
    + intros z Vz Fz. apply SFadd_Rnd; assumption.
    + intros s. left. destruct c; try discriminate Fc; reflexivity.
    + intros a b Hab. lra.
Qed.

Lemma SFadd_comm (prec emax : Z) (x y : spec_float) :
  SFadd prec emax x y = SFadd prec emax y x.
Proof.
  destruct x as [sx|sx| |sx mx ex], y as [sy|sy| |sy my ey];
    cbn [SFadd]; try reflexivity.
  - destruct sx, sy; reflexivity.
  - destruct sx, sy; reflexivity.
  - rewrite (Z.min_comm ey ex), Z.add_comm. reflexivity.
Qed.

Lemma SFadd_mono_r (x y c : spec_float) :
  valid_binary x = true -> valid_binary y = true -> valid_binary c = true ->
  le_or_nan x y -> le_or_nan (SFadd prec emax c x) (SFadd prec emax c y).
Proof.
  intros. rewrite (SFadd_comm prec emax c x), (SFadd_comm prec emax c y).
  apply SFadd_mono_l; assumption.
Qed.

Lemma inf_of_ext_low (x : spec_float) :
  valid_binary x = true -> sf_is_nan x = false -> ext x <= - bpow 1024 ->
  x = S754_infinity true.
Proof.
  intros Vx Nx Hx. pose proof (bpow_pos 1024).
  destruct (sf_cases x) as [->|[[s ->]|Fx]]; [discriminate Nx| |].
  - destruct s; [reflexivity|]. cbn [ext] in Hx. lra.
  - pose proof (fin_strict_bounds x Vx Fx). lra.
Qed.

Lemma inf_of_ext_high (x : spec_float) :
  valid_binary x = true -> sf_is_nan x = false -> bpow 1024 <= ext x ->
  x = S754_infinity false.
Proof.
  intros Vx Nx Hx. pose proof (bpow_pos 1024).
  destruct (sf_cases x) as [->|[[s ->]|Fx]]; [discriminate Nx| |].
  - destruct s; [|reflexivity]. cbn [ext] in Hx. lra.
  - pose proof (fin_strict_bounds x Vx Fx). lra.
Qed.

Lemma SFadd_nan_cases (y c : spec_float) :
  sf_is_nan y = false -> sf_is_nan c = false ->
  sf_is_nan (SFadd prec emax y c) = true ->
  (y = S754_infinity false /\ c = S754_infinity true)
  \/ (y = S754_infinity true /\ c = S754_infinity false).
Proof.
  intros Ny Nc H.
  destruct y as [sy|sy| |sy my ey], c as [sc|sc| |sc mc ec];
    try discriminate; cbn [SFadd] in H.
  - destruct sy, sc; discriminate H.
  - destruct sy, sc; try discriminate H; auto.
  - exfalso. cbn [valid_binary] in *.
    pose proof (Rnd_not_nan _ _
      (binary_normalize_Rnd
         (cond_Zopp sy (Z.pos (fst (shl_align my ey (Z.min ey ec))))
          + cond_Zopp sc (Z.pos (fst (shl_align mc ec (Z.min ey ec)))))
         (Z.min ey ec) false)) as Hn.
    congruence.
Qed.

(** Both operands may change. *)
Lemma SFadd_mono (x y c d : spec_float) :
  valid_binary x = true -> valid_binary y = true ->
  valid_binary c = true -> valid_binary d = true ->
  le_or_nan x y -> le_or_nan c d ->
  le_or_nan (SFadd prec emax x c) (SFadd prec emax y d).
Proof.
  intros Vx Vy Vc Vd Hxy Hcd.
  destruct (sf_is_nan x) eqn:Nx.
  { left. destruct x; try discriminate Nx. reflexivity. }
  destruct (sf_is_nan y) eqn:Ny.
  { right; left. destruct y; try discriminate Ny. reflexivity. }
  destruct (sf_is_nan c) eqn:Nc.
  { left. destruct c; try discriminate Nc. destruct x; reflexivity. }
  destruct (sf_is_nan d) eqn:Nd.
  { right; left. destruct d; try discriminate Nd. destruct y; reflexivity. }
  destruct (sf_is_nan (SFadd prec emax y c)) eqn:Nm.
  - destruct (SFadd_nan_cases y c Ny Nc Nm) as [[-> ->]|[-> ->]].
    + (* y = +inf, c = -inf *)
      destruct (sf_cases x) as [->|[[[|] ->]|Fx]]; try discriminate Nx.
      * pose proof (bpow_pos 1024).
        destruct d as [sd|[|]| |sd md ed]; try discriminate Nd;
          cbn [SFadd]; try (right; left; reflexivity); right; right;
          cbn [ext]; lra.
      * left. reflexivity.
      * replace (SFadd prec emax x (S754_infinity true)) with (S754_infinity true)
          by (destruct x; try discriminate Fx; reflexivity).
        pose proof (bpow_pos 1024).
        destruct d as [sd|[|]| |sd md ed]; try discriminate Nd;
          cbn [SFadd]; try (right; left; reflexivity); right; right;
          cbn [ext]; lra.
    + (* y = -inf, c = +inf *)
      destruct Hxy as [H|[H|H]]; try congruence.
      rewrite (inf_of_ext_low x Vx Nx H). left. reflexivity.
  - apply (le_or_nan_trans _ (SFadd prec emax y c)); [exact Nm| |].
    + apply SFadd_mono_l; assumption.
    + apply SFadd_mono_r; assumption.
Qed.

Lemma le_or_nan_opp (x y : spec_float) :
  le_or_nan x y -> le_or_nan (SFopp y) (SFopp x).
Proof.
  intros [H|[H|H]].
  - right; left. rewrite sf_is_nan_opp. exact H.
  - left. rewrite sf_is_nan_opp. exact H.
  - right; right. rewrite !ext_opp. lra.
Qed.

Lemma SFsub_mono (x y c d : spec_float) :
  valid_binary x = true -> valid_binary y = true ->
  valid_binary c = true -> valid_binary d = true ->
  le_or_nan x y -> le_or_nan c d ->
  le_or_nan (SFsub prec emax x d) (SFsub prec emax y c).
Proof.
  intros Vx Vy Vc Vd Hxy Hcd. rewrite !SFsub_add_opp.
  apply SFadd_mono; try assumption; try (rewrite valid_opp; assumption).
  apply le_or_nan_opp, Hcd.
Qed.

(** *** Multiplication by a factor that is not negative *)

Lemma SFmul_mono_r (x y c : spec_float) :
  valid_binary x = true -> valid_binary y = true -> valid_binary c = true ->
  sf_is_nan c = false -> 0 <= ext c ->
  le_or_nan x y -> le_or_nan (SFmul prec emax c x) (SFmul prec emax c y).
Proof.
  intros Vx Vy Vc Nc Hc Hle. pose proof (bpow_pos 1024) as HB.
  destruct c as [sc|sc| |sc mc ec]; try discriminate Nc.
  - (* c is a zero: the product is a zero or NaN *)
    destruct x as [sx|sx| |sx mx ex]; cbn [SFmul]; try (left; reflexivity);
      destruct y as [sy|sy| |sy my ey]; cbn [SFmul]; try (right; left; reflexivity);
      right; right; cbn [ext]; lra.
  - (* c is +infinity *)
    destruct sc; [cbn [ext] in Hc; lra|].
    destruct Hle as [H|[H|H]].
    + left. destruct x; try discriminate H. reflexivity.
    + right; left. destruct y; try discriminate H. reflexivity.
    + destruct x as [sx|sx| |sx mx ex]; cbn [SFmul xorb]; try (left; reflexivity);
        destruct y as [sy|sy| |sy my ey]; cbn [SFmul xorb];
        try (right; left; reflexivity); right; right.
      * exact H.
      * cbn [valid_binary] in Vy. destruct (finite_bounds my ey Vy) as ((H0 & _) & _).
        destruct sx, sy; cbn [ext] in *; lra.
      * cbn [valid_binary] in Vx. destruct (finite_bounds mx ex Vx) as ((H0 & _) & _).
        destruct sx, sy; cbn [ext] in *; lra.
      * cbn [valid_binary] in Vx, Vy.
        destruct (finite_bounds mx ex Vx) as ((H0 & _) & _).
        destruct (finite_bounds my ey Vy) as ((H1 & _) & _).
        destruct sx, sy; cbn [ext] in *; lra.
  - assert (sc = false) as ->.
    { cbn [valid_binary] in Vc. destruct (finite_bounds mc ec Vc) as ((H0 & _) & _).
      destruct sc; [cbn [ext] in Hc; lra|reflexivity]. }
    apply (mono_by_cases (fun x => SFmul prec emax (S754_finite false mc ec) x)
             (fun a => ext (S754_finite false mc ec) * a)); try assumption.
    + reflexivity.
    + intros z Vz Fz. apply SFmul_Rnd; try assumption; reflexivity.
    + intros s. left. reflexivity.
    + intros a b Hab. apply Rmult_le_compat_l; assumption.
Qed.

Lemma SFmul_mono_l (x y c : spec_float) :
  valid_binary x = true -> valid_binary y = true -> valid_binary c = true ->
  sf_is_nan c = false -> 0 <= ext c ->
  le_or_nan x y -> le_or_nan (SFmul prec emax x c) (SFmul prec emax y c).
Proof.
  intros. rewrite (SFmul_comm x c), (SFmul_comm y c). apply SFmul_mono_r; assumption.
Qed.

(** *** Division by a positive divisor *)

Lemma SFdiv_mono (x y c : spec_float) :
  valid_binary x = true -> valid_binary y = true -> valid_binary c = true ->
  sf_is_nan c = false -> 0 < ext c ->
  le_or_nan x y -> le_or_nan (SFdiv prec emax x c) (SFdiv prec emax y c).
Proof.
  intros Vx Vy Vc Nc Hc Hle. pose proof (bpow_pos 1024) as HB.
  destruct c as [sc|sc| |sc mc ec]; try discriminate Nc.
  - cbn [ext] in Hc. lra.
  - destruct sc; [cbn [ext] in Hc; lra|].
    destruct x as [sx|sx| |sx mx ex]; cbn [SFdiv]; try (left; reflexivity);
      destruct y as [sy|sy| |sy my ey]; cbn [SFdiv]; try (right; left; reflexivity);
      right; right; cbn [ext]; lra.
  - assert (sc = false) as ->.
    { cbn [valid_binary] in Vc. destruct (finite_bounds mc ec Vc) as ((H0 & _) & _).
      destruct sc; [cbn [ext] in Hc; lra|reflexivity]. }
    apply (mono_by_cases (fun x => SFdiv prec emax x (S754_finite false mc ec))
             (fun a => a / ext (S754_finite false mc ec))); try assumption.
    + reflexivity.
    + intros z Vz Fz. apply SFdiv_Rnd; try assumption; try reflexivity. lra.
    + intros s. left. destruct s; reflexivity.
    + intros a b Hab. unfold Rdiv. apply Rmult_le_compat_r; [|assumption].
      apply Rlt_le, Rinv_0_lt_compat, Hc.
Qed.

(** x <= y as real numbers, unless one of them is NaN. *)

Lemma SFcompare_nan_l (y : spec_float) : SFcompare S754_nan y = None.
Proof. reflexivity. Qed.

Lemma SFcompare_nan_r (x : spec_float) : SFcompare x S754_nan = None.
Proof. destruct x; reflexivity. Qed.

Lemma SFcompare_some (x y : spec_float) (c : comparison) :
  valid_binary x = true -> valid_binary y = true ->
  SFcompare x y = Some c ->
  sf_is_nan x = false /\ sf_is_nan y = false /\ Rcmp (ext x) (ext y) c.
Proof.
  intros Vx Vy Hc.
  destruct (sf_is_nan x) eqn:Nx.
  { destruct x; try discriminate Nx. discriminate Hc. }
  destruct (sf_is_nan y) eqn:Ny.
  { destruct y; try discriminate Ny. rewrite SFcompare_nan_r in Hc. discriminate Hc. }
  destruct (SFcompare_spec x y Vx Vy Nx Ny) as (c' & Hc' & HR).
  rewrite Hc in Hc'. injection Hc' as <-. auto.
Qed.

Lemma SFltb_true (x y : spec_float) :
  valid_binary x = true -> valid_binary y = true -> SFltb x y = true ->
  sf_is_nan x = false /\ sf_is_nan y = false /\ ext x < ext y.
Proof.
  intros Vx Vy H. unfold SFltb in H.
  destruct (SFcompare x y) as [[| |]|] eqn:E; try discriminate H.
  apply (SFcompare_some x y Lt Vx Vy E).
Qed.

Lemma SFleb_true (x y : spec_float) :
  valid_binary x = true -> valid_binary y = true -> SFleb x y = true ->
  sf_is_nan x = false /\ sf_is_nan y = false /\ ext x <= ext y.
Proof.
  intros Vx Vy H. unfold SFleb in H.
  destruct (SFcompare x y) as [[| |]|] eqn:E; try discriminate H;
    destruct (SFcompare_some x y _ Vx Vy E) as (Nx & Ny & HR); cbn [Rcmp] in HR;
    repeat split; try assumption; lra.
Qed.

Lemma SFeqb_true (x y : spec_float) :
  valid_binary x = true -> valid_binary y = true -> SFeqb x y = true ->
  sf_is_nan x = false /\ sf_is_nan y = false /\ ext x = ext y.
Proof.
  intros Vx Vy H. unfold SFeqb in H.
  destruct (SFcompare x y) as [[| |]|] eqn:E; try discriminate H.
  apply (SFcompare_some x y Eq Vx Vy E).
Qed.

Lemma SFltb_false (x y : spec_float) :
  valid_binary x = true -> valid_binary y = true ->
  le_or_nan y x -> SFltb x y = false.
Proof.
  intros Vx Vy Hle. unfold SFltb.
  destruct (SFcompare x y) as [[| |]|] eqn:E; try reflexivity.
  destruct (SFcompare_some x y Lt Vx Vy E) as (Nx & Ny & HR). cbn [Rcmp] in HR.
  destruct Hle as [H|[H|H]]; try congruence. lra.
Qed.

Lemma SFleb_of_le (x y : spec_float) :
  valid_binary x = true -> valid_binary y = true ->
  sf_is_nan x = false -> sf_is_nan y = false -> ext x <= ext y ->
  SFleb x y = true.
Proof.
  intros Vx Vy Nx Ny Hle. unfold SFleb.
  destruct (SFcompare_spec x y Vx Vy Nx Ny) as (c & -> & HR).
  destruct c; try reflexivity. cbn [Rcmp] in HR. lra.
Qed.

Lemma SFeqb_of_eq (x y : spec_float) :
  valid_binary x = true -> valid_binary y = true ->
  sf_is_nan x = false -> sf_is_nan y = false -> ext x = ext y ->
  SFeqb x y = true.
Proof.
  intros Vx Vy Nx Ny Hle. unfold SFeqb.
  destruct (SFcompare_spec x y Vx Vy Nx Ny) as (c & -> & HR).
  destruct c; try reflexivity; cbn [Rcmp] in HR; lra.
Qed.

(** *** On primitive floats *)

Lemma is_nan_spec (x : float) : PrimFloat.is_nan x = sf_is_nan (Prim2SF x).
Proof.
  unfold PrimFloat.is_nan. rewrite eqb_spec.
  pose proof (Prim2SF_valid x) as Vx.
  destruct (sf_is_nan (Prim2SF x)) eqn:Nx.
  - destruct (Prim2SF x); try discriminate Nx. reflexivity.
  - rewrite (SFeqb_of_eq _ _ Vx Vx Nx Nx eq_refl). reflexivity.
Qed.

Lemma fle_refl (x : float) : fle x x.
Proof. apply le_or_nan_refl. Qed.

Lemma fle_of_ltb (x y : float) : PrimFloat.ltb x y = true -> fle x y.
Proof.
  rewrite ltb_spec. intros H.
  destruct (SFltb_true _ _ (Prim2SF_valid x) (Prim2SF_valid y) H) as (_ & _ & Hlt).
  right; right. lra.
Qed.

Lemma fle_of_leb (x y : float) : PrimFloat.leb x y = true -> fle x y.
Proof.
  rewrite leb_spec. intros H.
  destruct (SFleb_true _ _ (Prim2SF_valid x) (Prim2SF_valid y) H) as (_ & _ & Hlt).
  right; right. lra.
Qed.

Lemma fle_of_eqb (x y : float) : PrimFloat.eqb x y = true -> fle x y /\ fle y x.
Proof.
  rewrite eqb_spec. intros H.
  destruct (SFeqb_true _ _ (Prim2SF_valid x) (Prim2SF_valid y) H) as (_ & _ & Hlt).
  split; right; right; lra.
Qed.

Lemma ltb_false_of_fle (x y : float) : fle x y -> PrimFloat.ltb y x = false.
Proof.
  intros H. rewrite ltb_spec.
  apply SFltb_false; try apply Prim2SF_valid. exact H.
Qed.

Lemma leb_of_fle (x y : float) :
  fle x y -> PrimFloat.is_nan x = false -> PrimFloat.is_nan y = false ->
  PrimFloat.leb x y = true.
Proof.
  intros H Nx Ny. rewrite is_nan_spec in Nx, Ny. rewrite leb_spec.
  apply SFleb_of_le; try apply Prim2SF_valid; try assumption.
  destruct H as [H|[H|H]]; congruence || exact H.
Qed.

Lemma fle_add (x y c d : float) :
  fle x y -> fle c d -> fle (x + c)%float (y + d)%float.
Proof.
  unfold fle. rewrite !add_spec. apply SFadd_mono; apply Prim2SF_valid.
Qed.

Lemma fle_sub (x y c d : float) :
  fle x y -> fle c d -> fle (x - d)%float (y - c)%float.
Proof.
  unfold fle. rewrite !sub_spec. apply SFsub_mono; apply Prim2SF_valid.
Qed.

Lemma nonneg_spec (c : float) :
  PrimFloat.leb 0 c = true ->
  sf_is_nan (Prim2SF c) = false /\ 0 <= ext (Prim2SF c).
Proof.
  rewrite leb_spec. intros H.
  destruct (SFleb_true _ _ (Prim2SF_valid 0%float) (Prim2SF_valid c) H) as (_ & N & Hle).
  split; [exact N|]. exact Hle.
Qed.

Lemma positive_spec (c : float) :
  PrimFloat.ltb 0 c = true ->
  sf_is_nan (Prim2SF c) = false /\ 0 < ext (Prim2SF c).
Proof.
  rewrite ltb_spec. intros H.
  destruct (SFltb_true _ _ (Prim2SF_valid 0%float) (Prim2SF_valid c) H) as (_ & N & Hle).
  split; [exact N|]. exact Hle.
Qed.

Lemma fle_mul_r (c x y : float) :
  PrimFloat.leb 0 c = true -> fle x y -> fle (c * x)%float (c * y)%float.
Proof.
  intros Hc. destruct (nonneg_spec c Hc) as [Nc Hc0].
  unfold fle. rewrite !mul_spec. apply SFmul_mono_r; try apply Prim2SF_valid; assumption.
Qed.

Lemma fle_mul_l (c x y : float) :
  PrimFloat.leb 0 c = true -> fle x y -> fle (x * c)%float (y * c)%float.
Proof.
  intros Hc. destruct (nonneg_spec c Hc) as [Nc Hc0].
  unfold fle. rewrite !mul_spec. apply SFmul_mono_l; try apply Prim2SF_valid; assumption.
Qed.

Lemma fle_div (c x y : float) :
  PrimFloat.ltb 0 c = true -> fle x y -> fle (x / c)%float (y / c)%float.
Proof.
  intros Hc. destruct (positive_spec c Hc) as [Nc Hc0].
  unfold fle. rewrite !div_spec. apply SFdiv_mono; try apply Prim2SF_valid; assumption.
Qed.

Lemma leb_of_ltb (c : float) : PrimFloat.ltb 0 c = true -> PrimFloat.leb 0 c = true.
Proof.
  intros H. destruct (positive_spec c H) as [N Hc].
  rewrite leb_spec. apply SFleb_of_le; try apply Prim2SF_valid; try assumption.
  - reflexivity.
  - change (ext (Prim2SF 0)) with 0. lra.
Qed.

Lemma eqb_zero_of_ltb (c : float) : PrimFloat.ltb 0 c = true -> PrimFloat.eqb c 0 = false.
Proof.
  intros H. destruct (positive_spec c H) as [N Hc].
  rewrite eqb_spec. destruct (SFeqb (Prim2SF c) (Prim2SF 0)) eqn:E; [|reflexivity].
  destruct (SFeqb_true _ _ (Prim2SF_valid c) (Prim2SF_valid 0%float) E) as (_ & _ & He).
  change (ext (Prim2SF 0)) with 0 in He. lra.
Qed.

End Binary64Order.
(** ** The stress formula *)

(** C1. For financials with RWA != 0 and any stress triple, [compute_result]
    returns interest_rate_loss = RWA * (hike / 100), credit_losses =
    RWA * (credit / 100), market_shock_loss = tier1 * (shock / 100),
    total_losses = their sum, updated_cet1 = cet1 - total_losses and
    updated_cet1_ratio = (updated_cet1 / RWA) * 100, in binary64 as Python
    evaluates them.  On {cet1=1000, tier1=1200, total=1500, RWA=12000} with
    Mild Recession (1.0, 2.0, 3.0) the six values are 120, 240, 36, 396, 604
    and 604/12000*100, both in binary64 and in exact arithmetic. *)
Theorem compute_result_formula :
  (forall (f : BankFinancials float) (t : StressTriple float),
      PrimFloat.eqb (risk_weighted_assets f) 0 = false ->
      exists r : StressResult float,
        compute_result f t = Return r /\
        interest_rate_loss r
          = (risk_weighted_assets f * (interest_rate_hike t / 100))%float /\
        credit_losses r
          = (risk_weighted_assets f * (credit_loss_rate t / 100))%float /\
        market_shock_loss r
          = (initial_tier1 f * (market_shock t / 100))%float /\
        total_losses r
          = (interest_rate_loss r + credit_losses r + market_shock_loss r)%float /\
        updated_cet1 r = (initial_cet1 f - total_losses r)%float /\
        updated_cet1_ratio r
          = (updated_cet1 r / risk_weighted_assets f * 100)%float)
  /\ compute_result (A:=float) default_financials mild_recession
     = Return (Build_StressResult 120 240 36 396 604 (604 / 12000 * 100))%float
  /\ (exists r : StressResult Q,
        compute_result (A:=Q) default_financials mild_recession = Return r /\
        interest_rate_loss r == 120 /\ credit_losses r == 240 /\
        market_shock_loss r == 36 /\ total_losses r == 396 /\
        updated_cet1 r == 604 /\ updated_cet1_ratio r == 604 / 12000 * 100).
Proof.
  split; [|split].
  - intros f t Hrwa.
    exists (stress_result f t). split.
    + apply compute_result_binary64, Hrwa.
    + repeat split.
  - vm_compute. reflexivity.
  - eexists. split; [reflexivity|]. vm_compute. repeat split.
Qed.

Lemma compute_result_formula_witness :
  exists r : StressResult float,
    compute_result (A:=float) default_financials mild_recession = Return r /\
    updated_cet1_ratio r
      = (updated_cet1 r / risk_weighted_assets (A:=float) default_financials * 100)%float.
Proof.
  destruct (proj1 compute_result_formula default_financials mild_recession)
    as (r & Hr & _ & _ & _ & _ & _ & Hratio); [reflexivity|].
  exists r. split; assumption.
Defined.

(** C7. When risk_weighted_assets == 0 (Python's float comparison, so for
    both signed zeros), [compute_result] raises ZeroDivisionError and yields
    no result; when risk_weighted_assets != 0 it returns one.  The same holds
    in exact arithmetic. *)
Theorem compute_result_division_by_zero :
  (forall (f : BankFinancials float) (t : StressTriple float),
      (PrimFloat.eqb (risk_weighted_assets f) 0 = true ->
       compute_result f t = Raise ZeroDivisionError) /\
      (PrimFloat.eqb (risk_weighted_assets f) 0 = false ->
       exists r, compute_result f t = Return r))
  /\ (forall (f : BankFinancials Q) (t : StressTriple Q),
      (risk_weighted_assets f == 0 ->
       compute_result f t = Raise ZeroDivisionError) /\
      (~ risk_weighted_assets f == 0 ->
       exists r, compute_result f t = Return r)).
Proof.
  split; intros f t; split; intros Hrwa.
  - rewrite (compute_result_eq hundred_nonzero_binary64).
    change (feqb (risk_weighted_assets f) (of_Q 0))
      with (PrimFloat.eqb (risk_weighted_assets f) 0).
    rewrite Hrwa. reflexivity.
  - exists (stress_result f t). apply compute_result_binary64, Hrwa.
  - rewrite (compute_result_eq hundred_nonzero_exact).
    apply Qeq_bool_iff in Hrwa. cbn. rewrite Hrwa. reflexivity.
  - exists (stress_result f t). apply compute_result_exact, Hrwa.
Qed.

Lemma compute_result_division_by_zero_witness :
  compute_result (A:=float)
    (Build_BankFinancials 1000 1200 1500 0)%float mild_recession
  = Raise ZeroDivisionError
  /\ compute_result (A:=float)
       (Build_BankFinancials 1000 1200 1500 (-0))%float mild_recession
     = Raise ZeroDivisionError
  /\ exists r, compute_result (A:=float) default_financials mild_recession = Return r.
Proof.
  split; [|split].
  - apply (proj1 compute_result_division_by_zero). reflexivity.
  - apply (proj1 compute_result_division_by_zero). reflexivity.
  - apply (proj1 compute_result_division_by_zero). reflexivity.
Defined.

(** ** Binary64 addition and subtraction *)

Lemma binary64_add_comm (x y : float) : (x + y = y + x)%float.
Proof.
  apply Prim2SF_inj. rewrite !add_spec. apply SFadd_comm.
Qed.

(** A finite binary64 is a zero or a signed mantissa with an exponent. *)
Lemma Prim2SF_finite (x : float) :
  PrimFloat.is_finite x = true ->
  (exists s, Prim2SF x = S754_zero s) \/ (exists s m e, Prim2SF x = S754_finite s m e).
Proof.
  unfold PrimFloat.is_finite. intros Hx.
  apply negb_true_iff, orb_false_iff in Hx. destruct Hx as [Hnan Hinf].
  unfold Prim2SF. rewrite Hnan, Hinf.
  destruct (PrimFloat.is_zero x); [left; eauto|].
  destruct (Z.frexp x) as [r e].
  destruct (shr_fexp _ _ _ _ _) as [sh e'].
  destruct (shr_m sh); [left|right|left]; eauto.
Qed.

Lemma shl_align_same (m : positive) (e : Z) : shl_align m e e = (m, e).
Proof. unfold shl_align. rewrite Z.sub_diag. reflexivity. Qed.

Lemma binary64_sub_diag (x : float) :
  PrimFloat.is_finite x = true -> (x - x)%float = 0%float.
Proof.
  intros Hx. apply Prim2SF_inj. rewrite sub_spec.
  destruct (Prim2SF_finite x Hx) as [[s ->]|(s & m & e & ->)].
  - destruct s; reflexivity.
  - change (Prim2SF 0%float) with (S754_zero false).
    unfold SF64sub, SFsub. rewrite Z.min_id, shl_align_same. cbn [fst].
    rewrite Z.sub_diag. reflexivity.
Qed.

(** ** What-if composition *)

(** C3, as stated, fails in binary64: composing 0.1, 0.2 and 0.3 percent in
    the two orders gives 0.6000000000000001 and 0.6. *)
Lemma compose_not_associative_binary64 :
  let a : StressTriple float := (Build_StressTriple 0.1 0 0)%float in
  let b : StressTriple float := (Build_StressTriple 0.2 0 0)%float in
  let c : StressTriple float := (Build_StressTriple 0.3 0 0)%float in
  compose (compose a b) c <> compose a (compose b c).
Proof.
  cbv zeta. intros E. apply (f_equal (@interest_rate_hike float)) in E.
  apply (f_equal (fun x => PrimFloat.eqb x 0.6)) in E.
  vm_compute in E. discriminate E.
Qed.

(** C3 (amended). [compose] adds the two triples field by field in binary64
    and applies no clamp, so the sum may leave the slider range; it is
    commutative.  It is associative in exact arithmetic, where it is also
    commutative. *)
Theorem compose_fieldwise_addition :
  (forall a b : StressTriple float,
      compose a b
      = Build_StressTriple
          (interest_rate_hike a + interest_rate_hike b)%float
          (credit_loss_rate a + credit_loss_rate b)%float
          (market_shock a + market_shock b)%float
      /\ compose a b = compose b a)
  /\ (compose (A:=float) (Build_StressTriple 5 10 10)%float (Build_StressTriple 5 10 10)%float
      = Build_StressTriple 10 20 20)%float
  /\ (forall a b c : StressTriple Q,
      triple_Qeq (compose a b) (compose b a) /\
      triple_Qeq (compose (compose a b) c) (compose a (compose b c))).
Proof.
  split; [|split].
  - intros a b. split; [reflexivity|].
    unfold compose. cbn [fadd Binary64].
    f_equal; apply binary64_add_comm.
  - vm_compute. reflexivity.
  - intros a b c. unfold triple_Qeq, compose. cbn. repeat split; ring.
Qed.

(** ** Scenario comparison *)

(** C4, as stated, fails in binary64: on financials whose ratio overflows,
    the same triple twice gives two infinite ratios and the difference
    inf - inf, which is NaN and not 0. *)
Lemma compare_same_triple_nan :
  compare overflowing_financials mild_recession mild_recession
  = Return (infinity, infinity, nan)
  /\ PrimFloat.eqb nan 0 = false.
Proof. split; vm_compute; reflexivity. Qed.

(** C4 (amended). The comparison is a composition of [compute_result]: it
    raises exactly when [compute_result] does and otherwise returns the two
    [updated_cet1_ratio] values of [compute_result] with the signed
    difference ratio_2 - ratio_1.  When the same triple is supplied twice and
    RWA != 0, the difference is 0 provided the ratio is finite; in exact
    arithmetic it is 0 without that proviso. *)
Theorem compare_composes_compute_result :
  (forall (f : BankFinancials float) (t1 t2 : StressTriple float),
      compare f t1 t2
      = bind (compute_result f t1) (fun r1 =>
        bind (compute_result f t2) (fun r2 =>
        Return (updated_cet1_ratio r1, updated_cet1_ratio r2,
                (updated_cet1_ratio r2 - updated_cet1_ratio r1)%float))))
  /\ (forall (f : BankFinancials float) (t : StressTriple float),
      PrimFloat.eqb (risk_weighted_assets f) 0 = false ->
      exists r,
        compute_result f t = Return r /\
        (PrimFloat.is_finite (updated_cet1_ratio r) = true ->
         compare f t t
         = Return (updated_cet1_ratio r, updated_cet1_ratio r, 0%float)))
  /\ (forall (f : BankFinancials Q) (t : StressTriple Q),
      ~ risk_weighted_assets f == 0 ->
      exists r d,
        compute_result f t = Return r /\
        compare f t t = Return (updated_cet1_ratio r, updated_cet1_ratio r, d) /\
        d == 0).
Proof.
  split; [exact compare_eq_binary64|split].
  - intros f t Hrwa. exists (stress_result f t).
    split; [apply compute_result_binary64, Hrwa|]. intros Hfin.
    rewrite compare_eq_binary64, (compute_result_binary64 f t Hrwa). cbn [bind].
    rewrite binary64_sub_diag by exact Hfin. reflexivity.
  - intros f t Hrwa.
    exists (stress_result f t).
    exists (updated_cet1_ratio (stress_result f t) - updated_cet1_ratio (stress_result f t)).
    split; [apply compute_result_exact, Hrwa|]. split; [|ring].
    unfold compare.
    rewrite !(scenario_ratio_eq hundred_nonzero_exact), (compute_result_exact f t Hrwa).
    reflexivity.
Qed.

Lemma compare_composes_compute_result_witness :
  compare (A:=float) default_financials mild_recession mild_recession
  = Return (604 / 12000 * 100, 604 / 12000 * 100, 0)%float.
Proof.
  destruct (proj1 (proj2 compare_composes_compute_result)
              default_financials mild_recession) as (r & Hr & Hsame);
    [reflexivity|].
  vm_compute in Hr. injection Hr as <-. apply Hsame. reflexivity.
Defined.

(** ** The scenario table *)

(** C5, as stated, fails: for a name outside the ten,
    [get_scenario_parameters] raises nothing; the call returns, with None. *)
Lemma unknown_scenario_returns_none :
  get_scenario_parameters (A:=float) mild_recession "Stagflation" = Return PyNone
  /\ ~ (exists e, get_scenario_parameters (A:=float) mild_recession "Stagflation"
                  = Raise e).
Proof.
  split; [reflexivity|]. intros [e He]. discriminate He.
Qed.

Lemma widget_keys_unknown (scenario : string) :
  ~ In scenario scenario_names -> widget_keys scenario = [].
Proof.
  intros Hout. unfold widget_keys.
  destruct (String.eqb_spec scenario "Custom Scenario") as [->|_]; [|reflexivity].
  exfalso. apply Hout. cbn. tauto.
Qed.

Lemma get_scenario_parameters_unknown {A} `{PyFloat A}
    (custom : StressTriple A) (scenario : string) :
  ~ In scenario scenario_names ->
  get_scenario_parameters custom scenario = Return PyNone.
Proof.
  intros Hout. unfold get_scenario_parameters.
  repeat match goal with
  | |- context [String.eqb scenario ?name] =>
      destruct (String.eqb_spec scenario name) as [->|_];
      [exfalso; apply Hout; cbn; tauto|]
  end.
  reflexivity.
Qed.

(** C5 (amended). [get_scenario_parameters] maps each of the nine predefined
    names, the first of them spelled "Baseline (No Stress)", to the fixed
    triple of the table, and "Custom Scenario" to the current slider values.
    For every other name it raises nothing and returns None; the unpacking
    assignment of the call site (lines 239-240) then raises TypeError, so the
    lookup yields no triple and the comparison stops there. *)
Theorem scenario_lookup_table :
  forall custom : StressTriple float,
    (get_scenario_parameters custom "Baseline (No Stress)" = Return (PyTuple 0 0 0)
     /\ get_scenario_parameters custom "Mild Recession" = Return (PyTuple 1 2 3)
     /\ get_scenario_parameters custom "Severe Recession" = Return (PyTuple 2.5 5 8)
     /\ get_scenario_parameters custom "Interest Rate Shock" = Return (PyTuple 3 0 0)
     /\ get_scenario_parameters custom "Market Crash" = Return (PyTuple 0 0 10)
     /\ get_scenario_parameters custom "Credit Crisis" = Return (PyTuple 0.5 8 3)
     /\ get_scenario_parameters custom "Inflation Shock" = Return (PyTuple 4 1 2)
     /\ get_scenario_parameters custom "Liquidity Stress" = Return (PyTuple 0 3 5)
     /\ get_scenario_parameters custom "Currency Devaluation"
        = Return (PyTuple 1.5 2.5 6))%float
    /\ get_scenario_parameters custom "Custom Scenario"
       = Return (PyTuple (interest_rate_hike custom) (credit_loss_rate custom)
                   (market_shock custom))
    /\ (forall scenario : string,
          In scenario scenario_names ->
          exists t, lookup custom scenario = Return t)
    /\ (forall scenario : string,
          ~ In scenario scenario_names ->
          get_scenario_parameters custom scenario = Return PyNone
          /\ lookup custom scenario = Raise TypeError
          /\ forall (f : BankFinancials float) (scenario_2 : string),
               scenario_comparison f custom scenario scenario_2 = Raise TypeError).
Proof.
  intros custom. split; [|split; [|split]].
  - repeat split.
  - reflexivity.
  - intros scenario Hin. cbn in Hin.
    repeat (destruct Hin as [<-|Hin]; [eexists; reflexivity|]).
    contradiction.
  - intros scenario Hout.
    assert (Hlookup : lookup custom scenario = Raise TypeError).
    { unfold lookup. rewrite (get_scenario_parameters_unknown custom scenario Hout).
      reflexivity. }
    split; [apply get_scenario_parameters_unknown, Hout|].
    split; [exact Hlookup|].
    intros f scenario_2. unfold scenario_comparison.
    rewrite (widget_keys_unknown scenario Hout), Hlookup. reflexivity.
Qed.

Lemma scenario_lookup_table_witness :
  lookup (A:=float) mild_recession "Stagflation" = Raise TypeError
  /\ lookup (A:=float) mild_recession "Baseline" = Raise TypeError.
Proof.
  split.
  - apply (proj2 (proj2 (proj2 (scenario_lookup_table mild_recession))) "Stagflation"%string).
    cbn. intros Hin.
    repeat (destruct Hin as [Hin|Hin]; [discriminate Hin|]). exact Hin.
  - apply (proj2 (proj2 (proj2 (scenario_lookup_table mild_recession))) "Baseline"%string).
    cbn. intros Hin.
    repeat (destruct Hin as [Hin|Hin]; [discriminate Hin|]). exact Hin.
Defined.

(** ** The Monte Carlo block *)

(** C6, as stated, fails: with sample count 0 (and -5) the block does not
    refuse the count.  It runs the loop zero times, shows the header and the
    mean of the empty list, NaN, and only then stops, in [np.min]. *)
Lemma zero_sample_count_shows_nan_mean :
  run_monte_carlo (A:=float) default_financials 0 fresh_process
  = (Raise ValueError,
     {| np_random := sixteenths; page := [ShowHeader; MeanRatio nan] |})
  /\ run_monte_carlo (A:=float) default_financials (-5) fresh_process
     = (Raise ValueError,
        {| np_random := sixteenths; page := [ShowHeader; MeanRatio nan] |})
  /\ ~ rejects_sample_count (A:=float) default_financials 0.
Proof.
  split; [reflexivity|split; [reflexivity|]].
  intros Hrej. destruct (Hrej fresh_process) as [e He].
  apply (f_equal (fun r => List.length (page (snd r)))) in He.
  vm_compute in He. discriminate He.
Qed.

(** C6 (amended). The block does not validate the sample count; the number
    input of line 110 keeps it within 100..10000.  For every count <= 0 the
    loop draws nothing, the header and a NaN mean are shown, and the block
    stops with the ValueError that numpy raises for [np.min] of an empty
    list; no minimum, maximum or histogram is produced. *)
Theorem nonpositive_sample_count :
  forall (np : NumpyBuild float)
         (f : BankFinancials float) (num_simulations : Z) (s : process float),
    (num_simulations <= 0)%Z ->
    run_monte_carlo f num_simulations s
    = (Raise ValueError,
       {| np_random := np_random s;
          page := page s ++ [ShowHeader; MeanRatio nan] |}).
Proof.
  intros np f n s Hn. rewrite run_monte_carlo_eq.
  replace (Z.to_nat n) with 0%nat by lia. cbn [simulation_loop ret].
  unfold report. cbn [np_min]. rewrite <- app_assoc. reflexivity.
Qed.

Lemma nonpositive_sample_count_witness :
  run_monte_carlo (A:=float) default_financials (-5) fresh_process
  = (Raise ValueError,
     {| np_random := sixteenths; page := [ShowHeader; MeanRatio nan] |}).
Proof.
  apply (nonpositive_sample_count scalar_loop default_financials (-5)%Z fresh_process).
  discriminate.
Defined.

(** ** The stress formula in binary64 *)

Section StressOrder.
Local Open Scope R_scope.

Lemma SFmul_nonneg (c x : spec_float) :
  valid_binary c = true -> valid_binary x = true ->
  sf_is_nan c = false -> 0 <= ext c ->
  le_or_nan (S754_zero false) x ->
  le_or_nan (S754_zero false) (SFmul prec emax c x).
Proof.
  intros Vc Vx Nc Hc Hx. pose proof (bpow_pos 1024) as HB.
  destruct Hx as [Hx|[Hx|Hx]]; [discriminate Hx| |].
  { right; left. destruct x; try discriminate Hx. destruct c; reflexivity. }
  cbn [ext] in Hx.
  destruct c as [sc|sc| |sc mc ec]; try discriminate Nc;
    destruct x as [sx|sx| |sx mx ex]; cbn [SFmul];
    try (right; left; reflexivity);
    try (right; right; cbn [ext]; lra).
  - (* inf * inf *)
    right; right. destruct sc, sx; cbn [ext xorb] in *; lra.
  - (* inf * finite *)
    cbn [valid_binary] in Vx. destruct (finite_bounds mx ex Vx) as ((H0 & _) & _).
    right; right. destruct sc, sx; cbn [ext xorb] in *; lra.
  - (* finite * inf *)
    cbn [valid_binary] in Vc. destruct (finite_bounds mc ec Vc) as ((H0 & _) & _).
    right; right. destruct sc, sx; cbn [ext xorb] in *; lra.
  - (* finite * finite *)
    right; right. change (ext (S754_zero false)) with 0.
    apply (Rnd_nonneg _ _ (SFmul_Rnd (S754_finite sc mc ec) (S754_finite sx mx ex)
                             Vc Vx eq_refl eq_refl)).
    apply Rmult_le_pos; assumption.
Qed.

Lemma fle_mul_nonneg (c x : float) :
  PrimFloat.leb 0 c = true -> fle 0 x -> fle 0 (c * x)%float.
Proof.
  intros Hc Hx. destruct (nonneg_spec c Hc) as [Nc Hc0].
  unfold fle in *. rewrite mul_spec.
  change (Prim2SF 0) with (S754_zero false) in *.
  apply SFmul_nonneg; try apply Prim2SF_valid; assumption.
Qed.

Lemma fle_zero_of_leb (x : float) : PrimFloat.leb 0 x = true -> fle 0 x.
Proof. apply fle_of_leb. Qed.

(** *** Two values Python's [==] cannot tell apart *)

Lemma SFeqb_zero (x : spec_float) :
  valid_binary x = true -> SFeqb x (S754_zero false) = true ->
  exists s, x = S754_zero s.
Proof.
  intros Vx H. pose proof (bpow_pos 1024) as HB.
  destruct (SFeqb_true x (S754_zero false) Vx eq_refl H) as (Nx & _ & He).
  cbn [ext] in He.
  destruct x as [s|s| |s m e]; try discriminate Nx.
  - eauto.
  - destruct s; cbn [ext] in He; lra.
  - cbn [valid_binary] in Vx. destruct (finite_bounds m e Vx) as ((H0 & _) & _).
    destruct s; cbn [ext] in He; lra.
Qed.

Lemma SFsub_zero_same (x : spec_float) (s : bool) :
  same_or_zeros (SFsub prec emax x (S754_zero s)) x.
Proof.
  destruct x as [sx|sx| |sx mx ex]; cbn [SFsub]; try (left; reflexivity).
  right. destruct sx, s; eauto.
Qed.

Lemma same_or_zeros_div (x y c : spec_float) :
  same_or_zeros x y -> same_or_zeros (SFdiv prec emax x c) (SFdiv prec emax y c).
Proof.
  intros [->|(s & s' & -> & ->)]; [left; reflexivity|].
  destruct c as [sc|sc| |sc mc ec]; cbn [SFdiv]; try (left; reflexivity);
    right; eauto.
Qed.

Lemma same_or_zeros_mul (x y c : spec_float) :
  same_or_zeros x y -> same_or_zeros (SFmul prec emax x c) (SFmul prec emax y c).
Proof.
  intros [->|(s & s' & -> & ->)]; [left; reflexivity|].
  destruct c as [sc|sc| |sc mc ec]; cbn [SFmul]; try (left; reflexivity);
    right; eauto.
Qed.

Lemma same_or_zeros_eqb (x y : spec_float) :
  valid_binary x = true -> valid_binary y = true ->
  same_or_zeros x y -> sf_is_nan y = false -> SFeqb x y = true.
Proof.
  intros Vx Vy [->|(s & s' & -> & ->)] Ny.
  - apply SFeqb_of_eq; try assumption. reflexivity.
  - reflexivity.
Qed.

End StressOrder.

Lemma binary64_sub_zero_r (x : float) : (x - 0)%float = x.
Proof.
  apply Prim2SF_inj. rewrite sub_spec.
  change (Prim2SF 0%float) with (S754_zero false).
  destruct (Prim2SF x) as [[|]|[|]| |s m e]; reflexivity.
Qed.

Lemma hundred_positive : PrimFloat.ltb 0 (of_Q 100 : float) = true.
Proof. reflexivity. Qed.

Lemma hundred_nonneg : PrimFloat.leb 0 (of_Q 100 : float) = true.
Proof. reflexivity. Qed.

Lemma raises_one_field_fle (t t' : StressTriple float) :
  raises_one_field t t' = true -> fle_triple t t'.
Proof.
  unfold raises_one_field, fle_triple. cbn [fltb feqb Binary64].
  intros Hone.
  repeat rewrite orb_true_iff in Hone. repeat rewrite andb_true_iff in Hone.
  destruct Hone as [[[[Hh Hc] Hm]|[[Hh Hc] Hm]]|[[Hh Hc] Hm]];
    repeat split;
    first [ apply fle_of_ltb; assumption
          | apply (fun E => proj1 (fle_of_eqb _ _ E)); assumption ].
Qed.

(** The losses grow with each field of the triple, and the ratio falls. *)
Lemma stress_result_monotone (f : BankFinancials float) (t t' : StressTriple float) :
  PrimFloat.ltb 0 (risk_weighted_assets f) = true ->
  PrimFloat.leb 0 (initial_tier1 f) = true ->
  fle_triple t t' ->
  fle (total_losses (stress_result f t)) (total_losses (stress_result f t'))
  /\ fle (updated_cet1_ratio (stress_result f t'))
         (updated_cet1_ratio (stress_result f t)).
Proof.
  intros Hrwa Htier (Hh & Hc & Hm).
  pose proof (leb_of_ltb _ Hrwa) as Hrwa0.
  pose proof hundred_nonneg as H100.
  assert (HL : fle (total_losses (stress_result f t)) (total_losses (stress_result f t'))).
  { unfold stress_result. cbn [total_losses fadd fmul fdiv Binary64].
    apply fle_add; [apply fle_add|].
    - apply fle_mul_r; [exact Hrwa0|]. apply fle_div; [exact hundred_positive|exact Hh].
    - apply fle_mul_r; [exact Hrwa0|]. apply fle_div; [exact hundred_positive|exact Hc].
    - apply fle_mul_r; [exact Htier|]. apply fle_div; [exact hundred_positive|exact Hm]. }
  split; [exact HL|].
  change (updated_cet1_ratio (stress_result f t'))
    with ((initial_cet1 f - total_losses (stress_result f t'))
          / risk_weighted_assets f * of_Q 100)%float.
  change (updated_cet1_ratio (stress_result f t))
    with ((initial_cet1 f - total_losses (stress_result f t))
          / risk_weighted_assets f * of_Q 100)%float.
  apply fle_mul_l; [exact H100|]. apply fle_div; [exact Hrwa|].
  apply fle_sub; [apply fle_refl|exact HL].
Qed.

(** Losses of a triple with no negative field are not negative. *)
Lemma total_losses_nonneg (f : BankFinancials float) (t : StressTriple float) :
  PrimFloat.leb 0 (risk_weighted_assets f) = true ->
  PrimFloat.leb 0 (initial_tier1 f) = true ->
  PrimFloat.leb 0 (interest_rate_hike t) = true ->
  PrimFloat.leb 0 (credit_loss_rate t) = true ->
  PrimFloat.leb 0 (market_shock t) = true ->
  fle 0 (total_losses (stress_result f t)).
Proof.
  intros Hrwa Htier Hh Hc Hm.
  assert (Hp : forall x : float, PrimFloat.leb 0 x = true -> fle 0 (x / of_Q 100)%float).
  { intros x Hx. change 0%float with (0 / of_Q 100)%float at 1.
    apply fle_div; [exact hundred_positive|]. apply fle_of_leb, Hx. }
  unfold stress_result. cbn [total_losses fadd fmul fdiv Binary64].
  change 0%float with (0 + 0 + 0)%float.
  apply fle_add; [apply fle_add|]; apply fle_mul_nonneg; auto.
Qed.

(** With RWA > 0 the stressed ratio is at most the unstressed one. *)
Lemma stress_ratio_le_baseline (f : BankFinancials float) (t : StressTriple float) :
  PrimFloat.ltb 0 (risk_weighted_assets f) = true ->
  PrimFloat.leb 0 (initial_tier1 f) = true ->
  PrimFloat.leb 0 (interest_rate_hike t) = true ->
  PrimFloat.leb 0 (credit_loss_rate t) = true ->
  PrimFloat.leb 0 (market_shock t) = true ->
  fle (updated_cet1_ratio (stress_result f t))
      (initial_cet1 f / risk_weighted_assets f * of_Q 100)%float.
Proof.
  intros Hrwa Htier Hh Hc Hm.
  pose proof (total_losses_nonneg f t (leb_of_ltb _ Hrwa) Htier Hh Hc Hm) as HL.
  change (updated_cet1_ratio (stress_result f t))
    with ((initial_cet1 f - total_losses (stress_result f t))
          / risk_weighted_assets f * of_Q 100)%float.
  apply fle_mul_l; [exact hundred_nonneg|].
  apply fle_div; [exact Hrwa|].
  rewrite <- (binary64_sub_zero_r (initial_cet1 f)) at 2.
  apply fle_sub; [apply fle_refl|exact HL].
Qed.

(** Losses that compare equal to 0 leave the ratio equal to the unstressed
    one, in the sense of Python's [==]. *)
Lemma zero_losses_keep_baseline (f : BankFinancials float) (t : StressTriple float) :
  PrimFloat.eqb (total_losses (stress_result f t)) 0 = true ->
  PrimFloat.is_nan (initial_cet1 f / risk_weighted_assets f * of_Q 100)%float = false ->
  PrimFloat.eqb (updated_cet1_ratio (stress_result f t))
                (initial_cet1 f / risk_weighted_assets f * of_Q 100)%float = true.
Proof.
  intros HL Hnan.
  change (updated_cet1_ratio (stress_result f t))
    with ((initial_cet1 f - total_losses (stress_result f t))
          / risk_weighted_assets f * of_Q 100)%float.
  rewrite eqb_spec in HL. change (Prim2SF 0) with (S754_zero false) in HL.
  destruct (SFeqb_zero _ (Prim2SF_valid _) HL) as [s Hs].
  rewrite is_nan_spec in Hnan. rewrite eqb_spec.
  apply same_or_zeros_eqb; try apply Prim2SF_valid; [|exact Hnan].
  rewrite !mul_spec, !div_spec, sub_spec, Hs.
  apply same_or_zeros_mul, same_or_zeros_div, SFsub_zero_same.
Qed.
(** ** Monotonicity and the baseline *)

Lemma fltb_exact (x y : Q) : fltb x y = true <-> x < y.
Proof.
  cbn. rewrite negb_true_iff. split.
  - intros Hle. apply Qnot_le_lt. intros Hyx. apply Qle_bool_iff in Hyx. congruence.
  - intros Hlt. destruct (Qle_bool y x) eqn:E; [|reflexivity].
    apply Qle_bool_iff in E. apply Qlt_not_le in Hlt. contradiction.
Qed.

Lemma feqb_exact (x y : Q) : feqb x y = true <-> x == y.
Proof. cbn. apply Qeq_bool_iff. Qed.

(** The ratio of the stress formula in exact arithmetic, as one expression. *)
Lemma stress_ratio_exact (f : BankFinancials Q) (t : StressTriple Q) :
  ~ risk_weighted_assets f == 0 ->
  updated_cet1_ratio (stress_result f t)
  == (initial_cet1 f - total_losses (stress_result f t))
     * / risk_weighted_assets f * 100
  /\ total_losses (stress_result f t)
     == risk_weighted_assets f * interest_rate_hike t * (1 # 100)
        + risk_weighted_assets f * credit_loss_rate t * (1 # 100)
        + initial_tier1 f * market_shock t * (1 # 100).
Proof.
  intros Hrwa. unfold stress_result. cbn. split.
  - unfold Qdiv. reflexivity.
  - unfold Qdiv. change (/ 100) with (1 # 100). ring.
Qed.

Lemma scaled_lt (k x y : Q) : 0 < k -> x < y -> x * k * 100 < y * k * 100.
Proof.
  intros Hk Hxy.
  assert (Hd : 0 < (y - x) * k) by (apply Qmult_lt_0_compat; lra).
  lra.
Qed.

Lemma scaled_le (k x y : Q) : 0 < k -> x <= y -> x * k * 100 <= y * k * 100.
Proof.
  intros Hk Hxy.
  assert (Hd : 0 <= (y - x) * k) by (apply Qmult_le_0_compat; lra).
  lra.
Qed.

(** C2, as stated, fails in binary64: raising the rate hike of Mild Recession
    from 1.0 to the next float, 1.0000000000000002, on the default
    financials changes the interest-rate loss in its last place and leaves
    total_losses = 396 and the ratio as they were.  Likewise, with CET1 of
    1e20, where neighbouring floats are 16384 apart, raising the hike from
    1.0 to 2.0 moves total_losses from 396 to 516 and leaves
    updated_cet1 = 1e20 and the ratio as they were. *)
Lemma tiny_increase_keeps_ratio :
  let t : StressTriple float := mild_recession in
  let t' : StressTriple float := (Build_StressTriple 1.0000000000000002 2 3)%float in
  let t'' : StressTriple float := (Build_StressTriple 2 2 3)%float in
  let rich : BankFinancials float := (Build_BankFinancials 1e20 1200 1500 12000)%float in
  raises_one_field t t' = true
  /\ raises_one_field t t'' = true
  /\ PrimFloat.ltb 0 (risk_weighted_assets (A:=float) default_financials) = true
  /\ PrimFloat.ltb 0 (initial_tier1 (A:=float) default_financials) = true
  /\ (exists r r',
       compute_result default_financials t = Return r /\
       compute_result default_financials t' = Return r' /\
       updated_cet1_ratio r' = updated_cet1_ratio r /\
       PrimFloat.ltb (updated_cet1_ratio r') (updated_cet1_ratio r) = false)
  /\ (exists r r'',
       compute_result rich t = Return r /\
       compute_result rich t'' = Return r'' /\
       total_losses r = 396%float /\ total_losses r'' = 516%float /\
       updated_cet1_ratio r'' = updated_cet1_ratio r /\
       PrimFloat.ltb (updated_cet1_ratio r'') (updated_cet1_ratio r) = false).
Proof.
  cbv zeta. repeat (split; [reflexivity|]). split.
  - eexists. eexists. split; [vm_compute; reflexivity|].
    split; [vm_compute; reflexivity|]. split; reflexivity.
  - eexists. eexists. split; [vm_compute; reflexivity|].
    split; [vm_compute; reflexivity|]. repeat split.
Qed.

(** C2 (amended).  For financials with RWA > 0 and tier1_capital > 0, raising
    exactly one field of the stress triple while the other two stay as they
    are never raises the updated_cet1_ratio that [compute_result] returns, and
    never lowers total_losses: in binary64 the new ratio is not greater than
    the old one, and is less than or equal to it whenever neither is NaN.
    The decrease need not be strict: an increase can be lost to rounding.  In
    exact arithmetic it is strict. *)
Theorem single_increase_never_raises_ratio :
  (forall (f : BankFinancials float) (t t' : StressTriple float),
      PrimFloat.ltb 0 (risk_weighted_assets f) = true ->
      PrimFloat.ltb 0 (initial_tier1 f) = true ->
      raises_one_field t t' = true ->
      exists r r',
        compute_result f t = Return r /\
        compute_result f t' = Return r' /\
        PrimFloat.ltb (updated_cet1_ratio r) (updated_cet1_ratio r') = false /\
        PrimFloat.ltb (total_losses r') (total_losses r) = false /\
        (PrimFloat.is_nan (updated_cet1_ratio r) = false ->
         PrimFloat.is_nan (updated_cet1_ratio r') = false ->
         PrimFloat.leb (updated_cet1_ratio r') (updated_cet1_ratio r) = true))
  /\ (forall (f : BankFinancials Q) (t t' : StressTriple Q),
      0 < risk_weighted_assets f ->
      0 < initial_tier1 f ->
      raises_one_field t t' = true ->
      exists r r',
        compute_result f t = Return r /\
        compute_result f t' = Return r' /\
        updated_cet1_ratio r' < updated_cet1_ratio r).
Proof.
  split.
  - intros f t t' Hrwa Htier Hone.
    pose proof (eqb_zero_of_ltb _ Hrwa) as Hnz.
    destruct (stress_result_monotone f t t' Hrwa (leb_of_ltb _ Htier)
                (raises_one_field_fle t t' Hone)) as [HL Hr].
    exists (stress_result f t), (stress_result f t').
    split; [apply compute_result_binary64, Hnz|].
    split; [apply compute_result_binary64, Hnz|].
    split; [apply ltb_false_of_fle, Hr|].
    split; [apply ltb_false_of_fle, HL|].
    intros N N'. apply leb_of_fle; assumption.
  - intros f t t' Hrwa Htier Hone.
    assert (Hnz : ~ risk_weighted_assets f == 0) by lra.
    exists (stress_result f t), (stress_result f t').
    split; [apply compute_result_exact, Hnz|].
    split; [apply compute_result_exact, Hnz|].
    destruct (stress_ratio_exact f t Hnz) as [-> Hl].
    destruct (stress_ratio_exact f t' Hnz) as [-> Hl'].
    apply scaled_lt; [apply Qinv_lt_0_compat, Hrwa|].
    rewrite Hl, Hl'.
    unfold raises_one_field in Hone.
    repeat rewrite orb_true_iff in Hone. repeat rewrite andb_true_iff in Hone.
    rewrite !fltb_exact, !feqb_exact in Hone.
    destruct Hone as [[[[Hh Hc] Hm]|[[Hh Hc] Hm]]|[[Hh Hc] Hm]].
    + rewrite <- Hc, <- Hm.
      assert (0 < risk_weighted_assets f * (interest_rate_hike t' - interest_rate_hike t))
        by (apply Qmult_lt_0_compat; lra).
      lra.
    + rewrite <- Hh, <- Hm.
      assert (0 < risk_weighted_assets f * (credit_loss_rate t' - credit_loss_rate t))
        by (apply Qmult_lt_0_compat; lra).
      lra.
    + rewrite <- Hh, <- Hc.
      assert (0 < initial_tier1 f * (market_shock t' - market_shock t))
        by (apply Qmult_lt_0_compat; lra).
      lra.
Qed.

Lemma single_increase_never_raises_ratio_witness :
  (exists r r',
     compute_result (A:=float) default_financials mild_recession = Return r /\
     compute_result (A:=float) default_financials (Build_StressTriple 2 2 3)%float
     = Return r' /\
     PrimFloat.ltb (updated_cet1_ratio r) (updated_cet1_ratio r') = false /\
     PrimFloat.ltb (total_losses r') (total_losses r) = false /\
     (PrimFloat.is_nan (updated_cet1_ratio r) = false ->
      PrimFloat.is_nan (updated_cet1_ratio r') = false ->
      PrimFloat.leb (updated_cet1_ratio r') (updated_cet1_ratio r) = true))
  /\ (exists r r',
        compute_result (A:=Q) default_financials mild_recession = Return r /\
        compute_result (A:=Q) default_financials (Build_StressTriple 2 2 3) = Return r' /\
        updated_cet1_ratio r' < updated_cet1_ratio r).
Proof.
  split.
  - apply (proj1 single_increase_never_raises_ratio); reflexivity.
  - apply (proj2 single_increase_never_raises_ratio); reflexivity.
Defined.

(** C10, as stated, fails in binary64: a market shock of 1e-17 percent on the
    default financials costs 1.2e-16, which is more than 0, and
    1000 - 1.2e-16 rounds back to 1000, so the ratio equals the baseline
    although total_losses is not 0. *)
Lemma absorbed_loss_keeps_baseline :
  exists r b,
    compute_result (A:=float) default_financials (Build_StressTriple 0 0 1e-17)%float
    = Return r /\
    initial_cet1_ratio (A:=float) default_financials = Return b /\
    updated_cet1_ratio r = b /\
    PrimFloat.ltb 0 (total_losses r) = true /\
    PrimFloat.eqb (total_losses r) 0 = false.
Proof.
  eexists. eexists. split; [vm_compute; reflexivity|].
  split; [vm_compute; reflexivity|]. repeat split.
Qed.

(** C10 (amended).  For financials with RWA > 0 and tier1_capital >= 0 and a
    stress triple whose three fields are >= 0, the updated_cet1_ratio that
    [compute_result] returns is never greater than the unstressed ratio
    (cet1_capital / RWA) * 100 of line 105: in binary64 it is less than or
    equal to it whenever neither is NaN, and it equals it (Python's ==)
    when total_losses == 0.  Equality does not need total_losses == 0: a
    loss above 0 can be lost to rounding.  In exact arithmetic the ratio is
    at most the unstressed one, with equality exactly when total_losses = 0. *)
Theorem stressed_ratio_at_most_baseline :
  (forall (f : BankFinancials float) (t : StressTriple float),
      PrimFloat.ltb 0 (risk_weighted_assets f) = true ->
      PrimFloat.leb 0 (initial_tier1 f) = true ->
      PrimFloat.leb 0 (interest_rate_hike t) = true ->
      PrimFloat.leb 0 (credit_loss_rate t) = true ->
      PrimFloat.leb 0 (market_shock t) = true ->
      exists r baseline,
        compute_result f t = Return r /\
        initial_cet1_ratio f = Return baseline /\
        baseline = (initial_cet1 f / risk_weighted_assets f * 100)%float /\
        PrimFloat.ltb baseline (updated_cet1_ratio r) = false /\
        (PrimFloat.is_nan (updated_cet1_ratio r) = false ->
         PrimFloat.is_nan baseline = false ->
         PrimFloat.leb (updated_cet1_ratio r) baseline = true) /\
        (PrimFloat.eqb (total_losses r) 0 = true ->
         PrimFloat.is_nan baseline = false ->
         PrimFloat.eqb (updated_cet1_ratio r) baseline = true))
  /\ (forall (f : BankFinancials Q) (t : StressTriple Q),
      0 < risk_weighted_assets f ->
      0 <= initial_tier1 f ->
      0 <= interest_rate_hike t ->
      0 <= credit_loss_rate t ->
      0 <= market_shock t ->
      exists r baseline,
        compute_result f t = Return r /\
        initial_cet1_ratio f = Return baseline /\
        baseline == initial_cet1 f / risk_weighted_assets f * 100 /\
        updated_cet1_ratio r <= baseline /\
        (updated_cet1_ratio r == baseline <-> total_losses r == 0)).
Proof.
  split.
  - intros f t Hrwa Htier Hh Hc Hm.
    pose proof (eqb_zero_of_ltb _ Hrwa) as Hnz.
    pose proof (stress_ratio_le_baseline f t Hrwa Htier Hh Hc Hm) as Hle.
    exists (stress_result f t),
      (initial_cet1 f / risk_weighted_assets f * 100)%float.
    split; [apply compute_result_binary64, Hnz|].
    split.
    { unfold initial_cet1_ratio, truediv.
      change (feqb (risk_weighted_assets f) (of_Q 0))
        with (PrimFloat.eqb (risk_weighted_assets f) 0).
      rewrite Hnz. reflexivity. }
    split; [reflexivity|].
    split; [apply ltb_false_of_fle, Hle|].
    split; [intros N N'; apply leb_of_fle; assumption|].
    apply zero_losses_keep_baseline.
  - intros f t Hrwa Htier Hh Hc Hm.
    assert (Hnz : ~ risk_weighted_assets f == 0) by lra.
    exists (stress_result f t), (initial_cet1 f / risk_weighted_assets f * 100).
    split; [apply compute_result_exact, Hnz|].
    split.
    { unfold initial_cet1_ratio, truediv.
      rewrite (proj2 (feqb_zero_exact _) Hnz). reflexivity. }
    split; [reflexivity|].
    destruct (stress_ratio_exact f t Hnz) as [-> Hl].
    set (L := total_losses (stress_result f t)) in *.
    assert (Hk : 0 < / risk_weighted_assets f) by (apply Qinv_lt_0_compat, Hrwa).
    assert (HL : 0 <= L).
    { rewrite Hl.
      assert (0 <= risk_weighted_assets f * interest_rate_hike t)
        by (apply Qmult_le_0_compat; lra).
      assert (0 <= risk_weighted_assets f * credit_loss_rate t)
        by (apply Qmult_le_0_compat; lra).
      assert (0 <= initial_tier1 f * market_shock t)
        by (apply Qmult_le_0_compat; lra).
      lra. }
    unfold Qdiv. split.
    + apply scaled_le; lra.
    + split.
      * intros Heq.
        destruct (Qlt_le_dec 0 L) as [Hpos|Hneg]; [|lra].
        assert (Hlt := scaled_lt (/ risk_weighted_assets f)
                         (initial_cet1 f - L) (initial_cet1 f) Hk ltac:(lra)).
        lra.
      * intros Hz. rewrite Hz. ring.
Qed.

Lemma stressed_ratio_at_most_baseline_witness :
  (exists r baseline,
     compute_result (A:=float) default_financials mild_recession = Return r /\
     initial_cet1_ratio (A:=float) default_financials = Return baseline /\
     baseline = (1000 / 12000 * 100)%float /\
     PrimFloat.ltb baseline (updated_cet1_ratio r) = false /\
     (PrimFloat.is_nan (updated_cet1_ratio r) = false ->
      PrimFloat.is_nan baseline = false ->
      PrimFloat.leb (updated_cet1_ratio r) baseline = true) /\
     (PrimFloat.eqb (total_losses r) 0 = true ->
      PrimFloat.is_nan baseline = false ->
      PrimFloat.eqb (updated_cet1_ratio r) baseline = true))
  /\ (exists r baseline,
        compute_result (A:=Q) default_financials mild_recession = Return r /\
        initial_cet1_ratio (A:=Q) default_financials = Return baseline /\
        baseline == 1000 / 12000 * 100 /\
        updated_cet1_ratio r <= baseline /\
        (updated_cet1_ratio r == baseline <-> total_losses r == 0)).
Proof.
  split.
  - refine (proj1 stressed_ratio_at_most_baseline
              default_financials mild_recession _ _ _ _ _); reflexivity.
  - refine (proj2 stressed_ratio_at_most_baseline
              default_financials mild_recession _ _ _ _ _); cbn; lra.
Defined.

(** ** numpy's aggregates *)

(** *** The pairwise sum *)

Lemma list_ind8 {X : Type} (P : list X -> Prop) :
  (forall a, (List.length a < 8)%nat -> P a) ->
  (forall x0 x1 x2 x3 x4 x5 x6 x7 rest,
      P rest -> P (x0 :: x1 :: x2 :: x3 :: x4 :: x5 :: x6 :: x7 :: rest)) ->
  forall a, P a.
Proof.
  intros Hshort Hstep a.
  remember (List.length a) as n eqn:En. revert a En.
  induction n as [n IH] using lt_wf_ind. intros a En.
  destruct a as [|x0 [|x1 [|x2 [|x3 [|x4 [|x5 [|x6 [|x7 rest]]]]]]]];
    try (apply Hshort; cbn; lia).
  apply Hstep. apply (IH (List.length rest)); [subst n; cbn; lia|reflexivity].
Qed.

Lemma split_lengths (n : nat) :
  (128 < n)%nat ->
  (0 < n / 2 - (n / 2) mod 8 < n)%nat.
Proof.
  intros Hn.
  pose proof (Nat.div_mod_eq n 2) as E.
  pose proof (Nat.mod_upper_bound n 2 ltac:(lia)) as Hr.
  pose proof (Nat.mod_upper_bound (n / 2) 8 ltac:(lia)) as Hm.
  lia.
Qed.

Section Pairwise.
Context {A : Type} `{PyFloat A}.

Lemma block_sum_short (r0 r1 r2 r3 r4 r5 r6 r7 : A) (a : list A) :
  (List.length a < 8)%nat ->
  block_sum r0 r1 r2 r3 r4 r5 r6 r7 a
  = fold_left fadd a
      (fadd (fadd (fadd r0 r1) (fadd r2 r3)) (fadd (fadd r4 r5) (fadd r6 r7))).
Proof.
  intros Hlen.
  destruct a as [|x0 [|x1 [|x2 [|x3 [|x4 [|x5 [|x6 [|x7 rest]]]]]]]];
    try reflexivity.
  cbn in Hlen. lia.
Qed.

Lemma pairwise_sum_short (depth : nat) (a : list A) :
  (List.length a < 8)%nat -> pairwise_sum depth a = fold_left fadd a (of_Q 0).
Proof.
  intros Hlen.
  destruct a as [|x0 [|x1 [|x2 [|x3 [|x4 [|x5 [|x6 [|x7 rest]]]]]]]];
    try (destruct depth; reflexivity).
  cbn in Hlen. lia.
Qed.

Lemma pairwise_sum_block (depth : nat) (x0 x1 x2 x3 x4 x5 x6 x7 : A) (rest : list A) :
  (List.length rest <= 120)%nat ->
  pairwise_sum depth (x0 :: x1 :: x2 :: x3 :: x4 :: x5 :: x6 :: x7 :: rest)
  = block_sum x0 x1 x2 x3 x4 x5 x6 x7 rest.
Proof.
  intros Hlen.
  assert (E : (List.length (x0 :: x1 :: x2 :: x3 :: x4 :: x5 :: x6 :: x7 :: rest)
               <=? 128)%nat = true) by (apply Nat.leb_le; cbn [List.length]; lia).
  destruct depth; cbn [pairwise_sum]; rewrite E; reflexivity.
Qed.

Lemma pairwise_sum_split (depth : nat) (a : list A) :
  (128 < List.length a)%nat ->
  pairwise_sum (S depth) a
  = fadd (pairwise_sum depth
            (firstn (List.length a / 2 - (List.length a / 2) mod 8) a))
         (pairwise_sum depth
            (skipn (List.length a / 2 - (List.length a / 2) mod 8) a)).
Proof.
  intros Hlen.
  destruct a as [|x0 [|x1 [|x2 [|x3 [|x4 [|x5 [|x6 [|x7 rest]]]]]]]];
    try (cbn in Hlen; lia).
  assert (E : (List.length (x0 :: x1 :: x2 :: x3 :: x4 :: x5 :: x6 :: x7 :: rest)
               <=? 128)%nat = false) by (apply Nat.leb_gt; exact Hlen).
  cbn [pairwise_sum]. rewrite E. reflexivity.
Qed.

(** How a list is summed, by its length. *)
Lemma pairwise_sum_cases (a : list A) :
  (List.length a < 8)%nat
  \/ (exists x0 x1 x2 x3 x4 x5 x6 x7 rest,
        a = x0 :: x1 :: x2 :: x3 :: x4 :: x5 :: x6 :: x7 :: rest
        /\ (List.length rest <= 120)%nat)
  \/ (128 < List.length a)%nat.
Proof.
  destruct (Nat.lt_ge_cases (List.length a) 8) as [Hs|Hl]; [left; exact Hs|].
  destruct (Nat.le_gt_cases (List.length a) 128) as [Hm|Hb]; [|right; right; exact Hb].
  right; left.
  destruct a as [|x0 [|x1 [|x2 [|x3 [|x4 [|x5 [|x6 [|x7 rest]]]]]]]];
    try (cbn in Hl; lia).
  exists x0, x1, x2, x3, x4, x5, x6, x7, rest. split; [reflexivity|].
  cbn [List.length] in Hm. lia.
Qed.

(** The bound on the number of cuts does not matter once it reaches the
    length of the list: the sum is that of the recursion numpy runs. *)
Lemma pairwise_sum_depth (depth : nat) :
  forall (depth' : nat) (a : list A),
    (List.length a <= depth)%nat -> (List.length a <= depth')%nat ->
    pairwise_sum depth a = pairwise_sum depth' a.
Proof.
  induction depth as [|d IH]; intros d' a Hd Hd'.
  - rewrite !pairwise_sum_short by lia. reflexivity.
  - destruct (pairwise_sum_cases a)
      as [Hs|[(x0 & x1 & x2 & x3 & x4 & x5 & x6 & x7 & rest & -> & Hm)|Hb]].
    + rewrite !pairwise_sum_short by exact Hs. reflexivity.
    + rewrite !pairwise_sum_block by exact Hm. reflexivity.
    + destruct d' as [|d']; [lia|].
      rewrite !pairwise_sum_split by exact Hb.
      pose proof (split_lengths _ Hb) as Hn2.
      f_equal; apply IH; rewrite ?length_firstn, ?length_skipn; lia.
Qed.

End Pairwise.

(** *** In exact arithmetic the pairwise sum is the sum *)

Lemma fold_left_Qplus (l : list Q) : forall a : Q, fold_left Qplus l a == a + Qsum l.
Proof.
  induction l as [|x l IH]; intros a; unfold Qsum; cbn [fold_left fold_right].
  - ring.
  - rewrite IH. unfold Qsum. ring.
Qed.

Lemma Qsum_app (a b : list Q) : Qsum (a ++ b) == Qsum a + Qsum b.
Proof.
  induction a as [|x a IH]; unfold Qsum in *; cbn [app fold_right].
  - ring.
  - rewrite IH. ring.
Qed.

Lemma block_sum_exact (a : list Q) :
  forall r0 r1 r2 r3 r4 r5 r6 r7 : Q,
    block_sum r0 r1 r2 r3 r4 r5 r6 r7 a
    == r0 + r1 + r2 + r3 + r4 + r5 + r6 + r7 + Qsum a.
Proof.
  induction a as [a Hshort|x0 x1 x2 x3 x4 x5 x6 x7 rest IH] using list_ind8;
    intros r0 r1 r2 r3 r4 r5 r6 r7.
  - rewrite block_sum_short by exact Hshort.
    rewrite fold_left_Qplus. cbn [fadd Exact]. ring.
  - cbn [block_sum]. rewrite IH. unfold Qsum. cbn [fold_right fadd Exact]. ring.
Qed.

Lemma pairwise_sum_exact (depth : nat) :
  forall a : list Q, (List.length a <= depth)%nat -> pairwise_sum depth a == Qsum a.
Proof.
  induction depth as [|d IH]; intros a Hd.
  - rewrite pairwise_sum_short by lia. rewrite fold_left_Qplus.
    cbn [of_Q Exact]. ring.
  - destruct (pairwise_sum_cases a)
      as [Hs|[(x0 & x1 & x2 & x3 & x4 & x5 & x6 & x7 & rest & -> & Hm)|Hb]].
    + rewrite pairwise_sum_short by exact Hs. rewrite fold_left_Qplus.
      cbn [of_Q Exact]. ring.
    + rewrite pairwise_sum_block by exact Hm. rewrite block_sum_exact.
      unfold Qsum. cbn [fold_right]. ring.
    + rewrite pairwise_sum_split by exact Hb.
      pose proof (split_lengths _ Hb) as Hn2.
      set (n2 := (List.length a / 2 - (List.length a / 2) mod 8)%nat) in *.
      cbn [fadd Exact].
      rewrite !IH by (rewrite ?length_firstn, ?length_skipn; lia).
      rewrite <- Qsum_app, firstn_skipn. reflexivity.
Qed.

Lemma count_cons (x : Q) (l : list Q) : count (x :: l) == 1 + count l.
Proof.
  unfold count. cbn [List.length]. rewrite Nat2Z.inj_succ, <- Z.add_1_l.
  rewrite inject_Z_plus. reflexivity.
Qed.

Lemma count_nonneg (l : list Q) : 0 <= count l.
Proof.
  unfold count. change 0 with (inject_Z 0). rewrite <- Zle_Qle. lia.
Qed.

Lemma Qsum_between (lo hi : Q) (l : list Q) :
  (forall x, In x l -> lo <= x <= hi) ->
  count l * lo <= Qsum l <= count l * hi.
Proof.
  induction l as [|x l IH]; intros Hall.
  - change (count []) with 0. change (Qsum []) with 0. lra.
  - rewrite count_cons. change (Qsum (x :: l)) with (x + Qsum l).
    destruct (Hall x (or_introl eq_refl)) as [Hlo Hhi].
    destruct IH as [IHlo IHhi]; [intros y Hy; apply Hall; right; exact Hy|].
    split; lra.
Qed.

(** In exact arithmetic [np.mean] is the arithmetic mean. *)
Lemma np_mean_exact (l : list Q) :
  l <> [] -> np_mean l * count l == Qsum l.
Proof.
  intros Hne. unfold np_mean, np_sum. cbn [fdiv fadd of_Q Exact]. fold (count l).
  rewrite pairwise_sum_exact by lia.
  assert (Hc : ~ count l == 0).
  { destruct l as [|x l]; [contradiction|]. rewrite count_cons.
    pose proof (count_nonneg l). lra. }
  field. exact Hc.
Qed.

Lemma np_mean_between (lo hi : Q) (l : list Q) :
  l <> [] ->
  (forall x, In x l -> lo <= x <= hi) ->
  lo <= np_mean l <= hi.
Proof.
  intros Hne Hall.
  pose proof (np_mean_exact l Hne) as Hmean.
  pose proof (Qsum_between lo hi l Hall) as [Hlo Hhi].
  assert (Hc : 0 < count l).
  { destruct l as [|x l]; [contradiction|]. rewrite count_cons.
    pose proof (count_nonneg l). lra. }
  rewrite <- Hmean in Hlo, Hhi.
  split.
  - apply (Qmult_le_l _ _ (count l) Hc). lra.
  - apply (Qmult_le_l _ _ (count l) Hc). lra.
Qed.

(** *** In binary64 the pairwise sum and the mean are monotone *)

Lemma Forall2_firstn {X Y : Type} (R : X -> Y -> Prop) (n : nat) :
  forall (a : list X) (b : list Y),
    Forall2 R a b -> Forall2 R (firstn n a) (firstn n b).
Proof.
  induction n as [|n IH]; intros a b Hab; [constructor|].
  destruct Hab as [|x y a b Hxy Hab]; [constructor|].
  cbn [firstn]. constructor; [exact Hxy|apply IH, Hab].
Qed.

Lemma Forall2_skipn {X Y : Type} (R : X -> Y -> Prop) (n : nat) :
  forall (a : list X) (b : list Y),
    Forall2 R a b -> Forall2 R (skipn n a) (skipn n b).
Proof.
  induction n as [|n IH]; intros a b Hab; [exact Hab|].
  destruct Hab as [|x y a b Hxy Hab]; [constructor|].
  cbn [skipn]. apply IH, Hab.
Qed.

Lemma fold_left_fle (a b : list float) :
  Forall2 fle a b ->
  forall x y : float,
    fle x y -> fle (fold_left PrimFloat.add a x) (fold_left PrimFloat.add b y).
Proof.
  induction 1 as [|u v a b Huv Hab IH]; intros x y Hxy; cbn [fold_left].
  - exact Hxy.
  - apply IH. apply fle_add; assumption.
Qed.

Lemma block_sum_fle (a : list float) :
  forall (b : list float),
    Forall2 fle a b ->
    forall r0 r1 r2 r3 r4 r5 r6 r7 s0 s1 s2 s3 s4 s5 s6 s7 : float,
      fle r0 s0 -> fle r1 s1 -> fle r2 s2 -> fle r3 s3 ->
      fle r4 s4 -> fle r5 s5 -> fle r6 s6 -> fle r7 s7 ->
      fle (block_sum r0 r1 r2 r3 r4 r5 r6 r7 a)
          (block_sum s0 s1 s2 s3 s4 s5 s6 s7 b).
Proof.
  induction a as [a Hshort|x0 x1 x2 x3 x4 x5 x6 x7 rest IH] using list_ind8;
    intros b Hab r0 r1 r2 r3 r4 r5 r6 r7 s0 s1 s2 s3 s4 s5 s6 s7
           H0 H1 H2 H3 H4 H5 H6 H7.
  - pose proof (Forall2_length Hab) as Hlen.
    rewrite !block_sum_short by lia.
    apply fold_left_fle; [exact Hab|].
    cbn [fadd Binary64]. repeat apply fle_add; assumption.
  - inversion Hab as [|? y0 ? b0 Hy0 Hb0]; subst.
    inversion Hb0 as [|? y1 ? b1 Hy1 Hb1]; subst.
    inversion Hb1 as [|? y2 ? b2 Hy2 Hb2]; subst.
    inversion Hb2 as [|? y3 ? b3 Hy3 Hb3]; subst.
    inversion Hb3 as [|? y4 ? b4 Hy4 Hb4]; subst.
    inversion Hb4 as [|? y5 ? b5 Hy5 Hb5]; subst.
    inversion Hb5 as [|? y6 ? b6 Hy6 Hb6]; subst.
    inversion Hb6 as [|? y7 ? b7 Hy7 Hb7]; subst.
    cbn [block_sum]. apply IH; [exact Hb7| | | | | | | |];
      cbn [fadd Binary64]; apply fle_add; assumption.
Qed.

Lemma pairwise_sum_fle (depth : nat) :
  forall a b : list float,
    Forall2 fle a b -> fle (pairwise_sum depth a) (pairwise_sum depth b).
Proof.
  induction depth as [|d IH]; intros a b Hab;
    pose proof (Forall2_length Hab) as Hlen.
  - destruct (pairwise_sum_cases a)
      as [Hs|[(x0 & x1 & x2 & x3 & x4 & x5 & x6 & x7 & rest & -> & Hm)|Hb]].
    + rewrite !pairwise_sum_short by lia.
      apply fold_left_fle; [exact Hab|apply fle_refl].
    + destruct b as [|y0 [|y1 [|y2 [|y3 [|y4 [|y5 [|y6 [|y7 rest']]]]]]]];
        try discriminate Hlen.
      cbn [List.length] in Hlen.
      rewrite !pairwise_sum_block by lia.
      do 8 (let E := fresh in
            inversion Hab as [|? ? ? ? E Hab']; subst; clear Hab; rename Hab' into Hab).
      apply block_sum_fle; assumption.
    + destruct a as [|x0 [|x1 [|x2 [|x3 [|x4 [|x5 [|x6 [|x7 rest]]]]]]]];
        try (cbn in Hb; lia).
      destruct b as [|y0 [|y1 [|y2 [|y3 [|y4 [|y5 [|y6 [|y7 rest']]]]]]]];
        try discriminate Hlen.
      assert (E : forall l : list float, (128 < List.length l)%nat ->
                (List.length l <=? 128)%nat = false)
        by (intros l Hl; apply Nat.leb_gt; exact Hl).
      cbn [pairwise_sum]. rewrite !E by lia. apply fle_refl.
  - destruct (pairwise_sum_cases a)
      as [Hs|[(x0 & x1 & x2 & x3 & x4 & x5 & x6 & x7 & rest & -> & Hm)|Hb]].
    + rewrite !pairwise_sum_short by lia.
      apply fold_left_fle; [exact Hab|apply fle_refl].
    + destruct b as [|y0 [|y1 [|y2 [|y3 [|y4 [|y5 [|y6 [|y7 rest']]]]]]]];
        try discriminate Hlen.
      cbn [List.length] in Hlen.
      rewrite !pairwise_sum_block by lia.
      do 8 (let E := fresh in
            inversion Hab as [|? ? ? ? E Hab']; subst; clear Hab; rename Hab' into Hab).
      apply block_sum_fle; assumption.
    + rewrite !pairwise_sum_split by lia. rewrite <- Hlen.
      cbn [fadd Binary64]. apply fle_add; apply IH.
      * apply Forall2_firstn, Hab.
      * apply Forall2_skipn, Hab.
Qed.

(** The count of a non-empty list, as the float numpy divides by, is
    positive. *)
Section CountPositive.
Local Open Scope R_scope.

Lemma SFltb_of_lt (x y : spec_float) :
  valid_binary x = true -> valid_binary y = true ->
  sf_is_nan x = false -> sf_is_nan y = false -> ext x < ext y ->
  SFltb x y = true.
Proof.
  intros Vx Vy Nx Ny Hlt. unfold SFltb.
  destruct (SFcompare_spec x y Vx Vy Nx Ny) as (c & -> & HR).
  destruct c; try reflexivity; cbn [Rcmp] in HR; lra.
Qed.

Lemma ext_one : ext (Prim2SF 1) = 1.
Proof.
  change (Prim2SF 1) with (S754_finite false 4503599627370496 (-52)).
  cbn [ext]. change 4503599627370496%Z with (2 ^ 52)%Z.
  rewrite IZR_pow2 by lia. rewrite <- bpow_add. reflexivity.
Qed.

Lemma of_uint63_at_least_one (z : Z) :
  (0 < z < 2 ^ 63)%Z ->
  sf_is_nan (Prim2SF (of_uint63 (Uint63.of_Z z))) = false
  /\ 1 <= ext (Prim2SF (of_uint63 (Uint63.of_Z z))).
Proof.
  intros Hz. rewrite of_uint63_spec, Uint63.of_Z_spec.
  change Uint63.wB with (2 ^ 63)%Z. rewrite Z.mod_small by lia.
  pose proof (binary_normalize_Rnd z 0 false) as Hr.
  split; [apply (Rnd_not_nan _ _ Hr)|].
  rewrite <- ext_one.
  apply (Rnd_mono (ext (Prim2SF 1)) (IZR z * bpow 0)).
  - apply Rnd_self; [apply Prim2SF_valid|reflexivity].
  - exact Hr.
  - rewrite ext_one, bpow_0, Rmult_1_r. apply IZR_le. lia.
Qed.

Lemma count_positive (n : nat) :
  (0 < n)%nat -> (Z.of_nat n < 2 ^ 63)%Z ->
  PrimFloat.ltb 0 (of_Q (inject_Z (Z.of_nat n)) : float) = true.
Proof.
  intros Hn Hlt.
  destruct (Z.of_nat n) as [|p|p] eqn:Ez; [lia| |lia].
  change (of_Q (inject_Z (Z.pos p)) : float)
    with (of_uint63 (Uint63.of_Z (Z.pos p)) / 1)%float.
  destruct (of_uint63_at_least_one (Z.pos p) ltac:(lia)) as [Nx Hx].
  rewrite ltb_spec, div_spec.
  pose proof (Prim2SF_valid (of_uint63 (Uint63.of_Z (Z.pos p)))) as Vx.
  set (x := Prim2SF (of_uint63 (Uint63.of_Z (Z.pos p)))) in *.
  pose proof (Prim2SF_valid 1) as V1.
  assert (Hq : sf_is_nan (SF64div x (Prim2SF 1)) = false
               /\ 1 <= ext (SF64div x (Prim2SF 1))).
  { pose proof (bpow_pos 1024) as HB.
    assert (HB1 : 1 <= bpow 1024) by (apply bpow_ge_1; lia).
    destruct x as [s|s| |s m e] eqn:Ex; try discriminate Nx.
    - cbn [ext] in Hx. lra.
    - destruct s; cbn [ext] in Hx; [lra|].
      change (Prim2SF 1) with (S754_finite false 4503599627370496 (-52)).
      cbn [SF64div SFdiv xorb sf_is_nan ext]. split; [reflexivity|lra].
    - assert (Hr : Rnd (ext (S754_finite s m e) / ext (Prim2SF 1))
                       (SF64div (S754_finite s m e) (Prim2SF 1))).
      { apply SFdiv_Rnd; try assumption; try reflexivity. rewrite ext_one. lra. }
      split; [apply (Rnd_not_nan _ _ Hr)|].
      rewrite <- ext_one at 1.
      apply (Rnd_mono (ext (Prim2SF 1)) (ext (S754_finite s m e) / ext (Prim2SF 1))).
      + apply Rnd_self; [exact V1|reflexivity].
      + exact Hr.
      + rewrite ext_one. lra. }
  destruct Hq as [Nq Hq].
  apply SFltb_of_lt; try assumption; try reflexivity.
  - unfold x. rewrite <- div_spec. apply Prim2SF_valid.
  - change (ext (Prim2SF 0)) with 0. lra.
Qed.

End CountPositive.

Lemma np_mean_fle (a b : list float) :
  Forall2 fle a b ->
  (0 < List.length a)%nat -> (Z.of_nat (List.length a) < 2 ^ 63)%Z ->
  fle (np_mean a) (np_mean b).
Proof.
  intros Hab Hpos Hlt. pose proof (Forall2_length Hab) as Hlen.
  unfold np_mean, np_sum. rewrite <- Hlen. cbn [fdiv fadd Binary64].
  apply fle_div; [apply count_positive; assumption|].
  apply fle_add; [apply fle_refl|]. apply pairwise_sum_fle, Hab.
Qed.

Lemma Forall2_repeat_l (lo : float) (l : list float) :
  (forall x, In x l -> fle lo x) -> Forall2 fle (repeat lo (List.length l)) l.
Proof.
  induction l as [|x l IH]; intros Hall; cbn [List.length repeat]; constructor.
  - apply Hall. left. reflexivity.
  - apply IH. intros y Hy. apply Hall. right. exact Hy.
Qed.

Lemma Forall2_repeat_r (hi : float) (l : list float) :
  (forall x, In x l -> fle x hi) -> Forall2 fle l (repeat hi (List.length l)).
Proof.
  induction l as [|x l IH]; intros Hall; cbn [List.length repeat]; constructor.
  - apply Hall. left. reflexivity.
  - apply IH. intros y Hy. apply Hall. right. exact Hy.
Qed.

(** The mean of a list lies between the means numpy computes for as many
    copies of a lower and of an upper bound of its elements. *)
Lemma np_mean_bracket (lo hi : float) (l : list float) :
  (0 < List.length l)%nat -> (Z.of_nat (List.length l) < 2 ^ 63)%Z ->
  (forall x, In x l -> fle lo x /\ fle x hi) ->
  fle (np_mean (repeat lo (List.length l))) (np_mean l)
  /\ fle (np_mean l) (np_mean (repeat hi (List.length l))).
Proof.
  intros Hpos Hlt Hall. split.
  - apply np_mean_fle.
    + apply Forall2_repeat_l. intros x Hx. apply Hall, Hx.
    + rewrite repeat_length. exact Hpos.
    + rewrite repeat_length. exact Hlt.
  - apply np_mean_fle; try assumption.
    apply Forall2_repeat_r. intros x Hx. apply Hall, Hx.
Qed.

(** *** The scalar loop obeys the laws of [np.min] and [np.max] *)

Section ScalarLoop.
Local Open Scope R_scope.

Lemma ltb_nan_r (a b : float) : PrimFloat.is_nan b = true -> PrimFloat.ltb a b = false.
Proof.
  rewrite is_nan_spec, ltb_spec. intros Hb.
  destruct (Prim2SF b); try discriminate Hb.
  unfold SFltb. rewrite SFcompare_nan_r. reflexivity.
Qed.

Lemma ltb_nan_l (a b : float) : PrimFloat.is_nan a = true -> PrimFloat.ltb a b = false.
Proof.
  rewrite is_nan_spec, ltb_spec. intros Ha.
  destruct (Prim2SF a); try discriminate Ha. reflexivity.
Qed.

Lemma ltb_cases (a b : float) :
  PrimFloat.is_nan a = false -> PrimFloat.is_nan b = false ->
  (PrimFloat.ltb a b = true /\ ext (Prim2SF a) < ext (Prim2SF b))
  \/ (PrimFloat.ltb a b = false /\ ext (Prim2SF b) <= ext (Prim2SF a)).
Proof.
  rewrite !is_nan_spec, ltb_spec. intros Na Nb. unfold SFltb.
  destruct (SFcompare_spec _ _ (Prim2SF_valid a) (Prim2SF_valid b) Na Nb)
    as (c & -> & HR).
  destruct c; cbn [Rcmp] in HR; [right|left|right]; split; try reflexivity; lra.
Qed.

Lemma ltb_false_of_ext (a b : float) :
  ext (Prim2SF b) <= ext (Prim2SF a) -> PrimFloat.ltb a b = false.
Proof.
  intros Hle. apply ltb_false_of_fle. right; right. exact Hle.
Qed.

Lemma minimum_cases (a b : float) :
  PrimFloat.is_nan a = false -> PrimFloat.is_nan b = false ->
  (minimum a b = a /\ ext (Prim2SF a) <= ext (Prim2SF b))
  \/ (minimum a b = b /\ ext (Prim2SF b) <= ext (Prim2SF a)).
Proof.
  intros Na Nb. unfold minimum. cbn [fltb fisnan Binary64]. rewrite Na, orb_false_r.
  destruct (ltb_cases a b Na Nb) as [[-> H]|[-> H]]; [left|right];
    split; try reflexivity; lra.
Qed.

Lemma maximum_cases (a b : float) :
  PrimFloat.is_nan a = false -> PrimFloat.is_nan b = false ->
  (maximum a b = a /\ ext (Prim2SF b) <= ext (Prim2SF a))
  \/ (maximum a b = b /\ ext (Prim2SF a) <= ext (Prim2SF b)).
Proof.
  intros Na Nb. unfold maximum. cbn [fltb fisnan Binary64]. rewrite Na, orb_false_r.
  destruct (ltb_cases b a Nb Na) as [[-> H]|[-> H]]; [left|right];
    split; try reflexivity; lra.
Qed.

Lemma fold_minimum_nan (xs : list float) :
  forall x : float,
    PrimFloat.is_nan x = true -> PrimFloat.is_nan (fold_left minimum xs x) = true.
Proof.
  induction xs as [|z xs IH]; intros x Hx; cbn [fold_left]; [exact Hx|].
  apply IH. unfold minimum. cbn [fltb fisnan Binary64].
  rewrite Hx, orb_true_r. exact Hx.
Qed.

Lemma fold_maximum_nan (xs : list float) :
  forall x : float,
    PrimFloat.is_nan x = true -> PrimFloat.is_nan (fold_left maximum xs x) = true.
Proof.
  induction xs as [|z xs IH]; intros x Hx; cbn [fold_left]; [exact Hx|].
  apply IH. unfold maximum. cbn [fltb fisnan Binary64].
  rewrite Hx, orb_true_r. exact Hx.
Qed.

Lemma fold_minimum_some_nan (xs : list float) :
  forall x : float,
    existsb PrimFloat.is_nan (x :: xs) = true ->
    PrimFloat.is_nan (fold_left minimum xs x) = true.
Proof.
  induction xs as [|z xs IH]; intros x Hex; cbn [existsb] in Hex.
  - rewrite orb_false_r in Hex. exact Hex.
  - cbn [fold_left].
    destruct (PrimFloat.is_nan x) eqn:Nx.
    { apply fold_minimum_nan. unfold minimum. cbn [fltb fisnan Binary64].
      rewrite Nx, orb_true_r. exact Nx. }
    cbn [orb] in Hex.
    destruct (PrimFloat.is_nan z) eqn:Nz.
    { apply fold_minimum_nan. unfold minimum. cbn [fltb fisnan Binary64].
      rewrite Nx, (ltb_nan_r x z Nz). exact Nz. }
    cbn [orb] in Hex. apply IH. cbn [existsb].
    destruct (minimum_cases x z Nx Nz) as [[-> _]|[-> _]];
      rewrite ?Nx, ?Nz; exact Hex.
Qed.

Lemma fold_maximum_some_nan (xs : list float) :
  forall x : float,
    existsb PrimFloat.is_nan (x :: xs) = true ->
    PrimFloat.is_nan (fold_left maximum xs x) = true.
Proof.
  induction xs as [|z xs IH]; intros x Hex; cbn [existsb] in Hex.
  - rewrite orb_false_r in Hex. exact Hex.
  - cbn [fold_left].
    destruct (PrimFloat.is_nan x) eqn:Nx.
    { apply fold_maximum_nan. unfold maximum. cbn [fltb fisnan Binary64].
      rewrite Nx, orb_true_r. exact Nx. }
    cbn [orb] in Hex.
    destruct (PrimFloat.is_nan z) eqn:Nz.
    { apply fold_maximum_nan. unfold maximum. cbn [fltb fisnan Binary64].
      rewrite Nx, (ltb_nan_l z x Nz). exact Nz. }
    cbn [orb] in Hex. apply IH. cbn [existsb].
    destruct (maximum_cases x z Nx Nz) as [[-> _]|[-> _]];
      rewrite ?Nx, ?Nz; exact Hex.
Qed.

Lemma fold_minimum_spec (xs : list float) :
  forall x : float,
    existsb PrimFloat.is_nan (x :: xs) = false ->
    In (fold_left minimum xs x) (x :: xs) /\
    forall y, In y (x :: xs) ->
      ext (Prim2SF (fold_left minimum xs x)) <= ext (Prim2SF y).
Proof.
  induction xs as [|z xs IH]; intros x Hex; cbn [fold_left].
  - split; [left; reflexivity|]. intros y [<-|[]]. lra.
  - cbn [existsb] in Hex.
    apply orb_false_iff in Hex. destruct Hex as [Nx Hex].
    apply orb_false_iff in Hex. destruct Hex as [Nz Hex].
    destruct (minimum_cases x z Nx Nz) as [[E Hle]|[E Hle]]; rewrite E.
    + destruct (IH x) as [Hin Hmin]; [cbn [existsb]; rewrite Nx; exact Hex|].
      split.
      * destruct Hin as [<-|Hin]; [left; reflexivity|right; right; exact Hin].
      * intros y [<-|[<-|Hy]].
        -- apply Hmin. left. reflexivity.
        -- pose proof (Hmin x (or_introl eq_refl)). lra.
        -- apply Hmin. right. exact Hy.
    + destruct (IH z) as [Hin Hmin]; [cbn [existsb]; rewrite Nz; exact Hex|].
      split.
      * right. exact Hin.
      * intros y [<-|[<-|Hy]].
        -- pose proof (Hmin z (or_introl eq_refl)). lra.
        -- apply Hmin. left. reflexivity.
        -- apply Hmin. right. exact Hy.
Qed.

Lemma fold_maximum_spec (xs : list float) :
  forall x : float,
    existsb PrimFloat.is_nan (x :: xs) = false ->
    In (fold_left maximum xs x) (x :: xs) /\
    forall y, In y (x :: xs) ->
      ext (Prim2SF y) <= ext (Prim2SF (fold_left maximum xs x)).
Proof.
  induction xs as [|z xs IH]; intros x Hex; cbn [fold_left].
  - split; [left; reflexivity|]. intros y [<-|[]]. lra.
  - cbn [existsb] in Hex.
    apply orb_false_iff in Hex. destruct Hex as [Nx Hex].
    apply orb_false_iff in Hex. destruct Hex as [Nz Hex].
    destruct (maximum_cases x z Nx Nz) as [[E Hle]|[E Hle]]; rewrite E.
    + destruct (IH x) as [Hin Hmax]; [cbn [existsb]; rewrite Nx; exact Hex|].
      split.
      * destruct Hin as [<-|Hin]; [left; reflexivity|right; right; exact Hin].
      * intros y [<-|[<-|Hy]].
        -- apply Hmax. left. reflexivity.
        -- pose proof (Hmax x (or_introl eq_refl)). lra.
        -- apply Hmax. right. exact Hy.
    + destruct (IH z) as [Hin Hmax]; [cbn [existsb]; rewrite Nz; exact Hex|].
      split.
      * right. exact Hin.
      * intros y [<-|[<-|Hy]].
        -- pose proof (Hmax z (or_introl eq_refl)). lra.
        -- apply Hmax. left. reflexivity.
        -- apply Hmax. right. exact Hy.
Qed.

Lemma scalar_loop_laws : extremum_laws (scalar_loop (A:=float)).
Proof.
  intros l Hne. destruct l as [|x xs]; [contradiction|].
  cbn [minimum_reduce maximum_reduce scalar_loop fisnan fltb Binary64].
  split.
  - intros Hex. split.
    + apply fold_minimum_some_nan, Hex.
    + apply fold_maximum_some_nan, Hex.
  - intros Hex.
    destruct (fold_minimum_spec xs x Hex) as [Hin Hmin].
    destruct (fold_maximum_spec xs x Hex) as [Hin' Hmax].
    split; [exact Hin|]. split; [exact Hin'|].
    intros y Hy. split; apply ltb_false_of_ext; [apply Hmin|apply Hmax]; exact Hy.
Qed.

End ScalarLoop.

(** What the laws give for a list without NaN, as an order on floats. *)
Lemma extremum_laws_fle (np : NumpyBuild float) (l : list float) :
  extremum_laws np -> l <> [] ->
  existsb PrimFloat.is_nan l = false ->
  forall y, In y l -> fle (minimum_reduce l) y /\ fle y (maximum_reduce l).
Proof.
  intros Hlaws Hne Hex y Hy.
  destruct (Hlaws l Hne) as [_ Hok].
  destruct (Hok Hex) as (Hin & Hin' & Hall).
  assert (Hnan : forall z, In z l -> PrimFloat.is_nan z = false).
  { intros z Hz. destruct (PrimFloat.is_nan z) eqn:E; [|reflexivity].
    assert (existsb PrimFloat.is_nan l = true)
      by (apply existsb_exists; exists z; split; assumption).
    congruence. }
  destruct (Hall y Hy) as [Hlo Hhi]. cbn [fltb Binary64] in Hlo, Hhi.
  pose proof (Hnan y Hy) as Ny.
  pose proof (Hnan _ Hin) as Nlo. pose proof (Hnan _ Hin') as Nhi.
  split.
  - destruct (ltb_cases y (minimum_reduce l) Ny Nlo) as [[E _]|[_ Hle]];
      [congruence|]. right; right. exact Hle.
  - destruct (ltb_cases (maximum_reduce l) y Nhi Ny) as [[E _]|[_ Hle]];
      [congruence|]. right; right. exact Hle.
Qed.

(** *** Minimum and maximum in exact arithmetic *)

Lemma minimum_exact (a b : Q) :
  (minimum a b = a /\ a <= b) \/ (minimum a b = b /\ b <= a).
Proof.
  unfold minimum. cbn. destruct (Qle_bool b a) eqn:E; cbn.
  - right. split; [reflexivity|]. apply Qle_bool_iff, E.
  - left. split; [reflexivity|]. apply Qlt_le_weak, Qnot_le_lt.
    intros Hle. apply Qle_bool_iff in Hle. congruence.
Qed.

Lemma maximum_exact (a b : Q) :
  (maximum a b = a /\ b <= a) \/ (maximum a b = b /\ a <= b).
Proof.
  unfold maximum. cbn. destruct (Qle_bool a b) eqn:E; cbn.
  - right. split; [reflexivity|]. apply Qle_bool_iff, E.
  - left. split; [reflexivity|]. apply Qlt_le_weak, Qnot_le_lt.
    intros Hle. apply Qle_bool_iff in Hle. congruence.
Qed.

Lemma fold_minimum_exact (xs : list Q) :
  forall x : Q,
    In (fold_left minimum xs x) (x :: xs) /\
    forall y, In y (x :: xs) -> fold_left minimum xs x <= y.
Proof.
  induction xs as [|z xs IH]; intros x; cbn [fold_left].
  - split; [left; reflexivity|]. intros y [<-|[]]. apply Qle_refl.
  - destruct (IH (minimum x z)) as [Hin Hle].
    assert (Hx : fold_left minimum xs (minimum x z) <= minimum x z)
      by (apply Hle; left; reflexivity).
    destruct (minimum_exact x z) as [[E Hxz]|[E Hzx]]; rewrite E in *.
    + split.
      * destruct Hin as [<-|Hin]; [left; reflexivity|right; right; exact Hin].
      * intros y [<-|[<-|Hy]]; [exact Hx|lra|apply Hle; right; exact Hy].
    + split.
      * right. exact Hin.
      * intros y [<-|[<-|Hy]]; [lra|exact Hx|apply Hle; right; exact Hy].
Qed.

Lemma fold_maximum_exact (xs : list Q) :
  forall x : Q,
    In (fold_left maximum xs x) (x :: xs) /\
    forall y, In y (x :: xs) -> y <= fold_left maximum xs x.
Proof.
  induction xs as [|z xs IH]; intros x; cbn [fold_left].
  - split; [left; reflexivity|]. intros y [<-|[]]. apply Qle_refl.
  - destruct (IH (maximum x z)) as [Hin Hle].
    assert (Hx : maximum x z <= fold_left maximum xs (maximum x z))
      by (apply Hle; left; reflexivity).
    destruct (maximum_exact x z) as [[E Hzx]|[E Hxz]]; rewrite E in *.
    + split.
      * destruct Hin as [<-|Hin]; [left; reflexivity|right; right; exact Hin].
      * intros y [<-|[<-|Hy]]; [exact Hx|lra|apply Hle; right; exact Hy].
    + split.
      * right. exact Hin.
      * intros y [<-|[<-|Hy]]; [lra|exact Hx|apply Hle; right; exact Hy].
Qed.

Lemma np_min_exact (l : list Q) (lo : Q) :
  np_min l = Return lo -> In lo l /\ forall y, In y l -> lo <= y.
Proof.
  destruct l as [|x xs]; cbn [np_min]; intros E; [discriminate E|].
  injection E as <-. apply fold_minimum_exact.
Qed.

Lemma np_max_exact (l : list Q) (hi : Q) :
  np_max l = Return hi -> In hi l /\ forall y, In y l -> y <= hi.
Proof.
  destruct l as [|x xs]; cbn [np_max]; intros E; [discriminate E|].
  injection E as <-. apply fold_maximum_exact.
Qed.

(** *** A run with a valid sample count *)

Lemma drawn_ratios_length {A} `{PyFloat A} (f : BankFinancials A) (g : rng A) (n : nat) :
  List.length (map (drawn_ratio f g) (seq 0 n)) = n.
Proof. rewrite length_map, length_seq. reflexivity. Qed.

Lemma run_monte_carlo_binary64 (np : NumpyBuild float)
    (f : BankFinancials float) (num_simulations : Z) (s : process float) :
  (0 < num_simulations)%Z ->
  PrimFloat.eqb (risk_weighted_assets f) 0 = false ->
  exists ratios,
    List.length ratios = Z.to_nat num_simulations /\
    run_monte_carlo f num_simulations s
    = after_run s (Z.to_nat num_simulations) ratios (np_mean ratios)
        (minimum_reduce ratios) (maximum_reduce ratios) /\
    ratios_of_draws f (np_random s) (Z.to_nat num_simulations) ratios.
Proof.
  intros Hn Hrwa.
  destruct (run_monte_carlo_returns hundred_nonzero_binary64 f num_simulations s Hn Hrwa)
    as (lo & hi & Hlo & Hhi & Hrun).
  set (ratios := map (drawn_ratio f (np_random s)) (seq 0 (Z.to_nat num_simulations))) in *.
  pose proof (drawn_ratios_length f (np_random s) (Z.to_nat num_simulations)) as Hlen.
  fold ratios in Hlen.
  exists ratios. split; [exact Hlen|]. split.
  - destruct ratios as [|x xs]; [cbn in Hlen; lia|].
    cbn [np_min np_max] in Hlo, Hhi. injection Hlo as <-. injection Hhi as <-.
    exact Hrun.
  - split; [exact Hlen|].
    intros i Hi. apply (drawn_ratios_nth hundred_nonzero_binary64); assumption.
Qed.

Lemma run_monte_carlo_exact (f : BankFinancials Q) (num_simulations : Z)
    (s : process Q) :
  (0 < num_simulations)%Z ->
  ~ risk_weighted_assets f == 0 ->
  exists ratios lo hi,
    run_monte_carlo f num_simulations s
    = after_run s (Z.to_nat num_simulations) ratios (np_mean ratios) lo hi /\
    ratios_of_draws f (np_random s) (Z.to_nat num_simulations) ratios /\
    np_mean ratios * inject_Z num_simulations == Qsum ratios /\
    In lo ratios /\ In hi ratios /\
    (forall x, In x ratios -> lo <= x <= hi) /\
    lo <= np_mean ratios <= hi.
Proof.
  intros Hn Hrwa. pose proof (proj2 (feqb_zero_exact _) Hrwa) as Hz.
  destruct (run_monte_carlo_returns hundred_nonzero_exact f num_simulations s Hn Hz)
    as (lo & hi & Hlo & Hhi & Hrun).
  set (ratios := map (drawn_ratio f (np_random s)) (seq 0 (Z.to_nat num_simulations))) in *.
  assert (Hlen : List.length ratios = Z.to_nat num_simulations)
    by (unfold ratios; rewrite length_map, length_seq; reflexivity).
  assert (Hne : ratios <> []).
  { intros E. rewrite E in Hlen. cbn in Hlen. lia. }
  destruct (np_min_exact ratios lo Hlo) as [Hlo_in Hlo_le].
  destruct (np_max_exact ratios hi Hhi) as [Hhi_in Hhi_le].
  assert (Hall : forall x, In x ratios -> lo <= x <= hi)
    by (intros x Hx; split; [apply Hlo_le|apply Hhi_le]; exact Hx).
  exists ratios, lo, hi.
  split; [exact Hrun|]. split.
  { split; [exact Hlen|]. intros i Hi.
    apply (drawn_ratios_nth hundred_nonzero_exact); assumption. }
  split.
  { rewrite <- (np_mean_exact ratios Hne). unfold count.
    rewrite Hlen, Z2Nat.id by lia. reflexivity. }
  repeat split; try assumption; try (apply Hall; assumption);
    apply (np_mean_between lo hi ratios Hne Hall).
Qed.

(** The triples of a generator that keeps numpy's contract lie in the ranges
    asked for. *)
Lemma drawn_triple_in_range (g : rng float) (i : nat) :
  uniform_contract g -> in_draw_range (drawn_triple g i) = true.
Proof.
  intros Hg. unfold in_draw_range, drawn_triple.
  cbn [interest_rate_hike credit_loss_rate market_shock].
  set (k := (3 * i + position g)%nat).
  pose proof (Hg k) as H0. pose proof (Hg (S k)) as H1. pose proof (Hg (S (S k))) as H2.
  repeat rewrite andb_true_iff in H0, H1, H2.
  destruct H0 as [[[A0 B0] _] _]. destruct H1 as [[_ C1] D1]. destruct H2 as [[_ C2] D2].
  change (of_Q 0 : float) with 0%float. change (of_Q 5 : float) with 5%float.
  change (of_Q 10 : float) with 10%float.
  rewrite A0, B0, C1, D1, C2, D2. reflexivity.
Qed.

(** A turn reads the three stream values of its own indices and no other. *)
Lemma drawn_triple_reads (g g' : rng float) (k i : nat) :
  differ_at_most_at g g' k ->
  (k < 3 * i + position g \/ 3 * i + 2 + position g < k)%nat ->
  drawn_triple g' i = drawn_triple g i.
Proof.
  intros [Hpos Hsame] Hk. unfold drawn_triple. rewrite Hpos.
  rewrite !Hsame by lia. reflexivity.
Qed.

(** What the laws of [np.min] and [np.max] say of the two values shown. *)
Lemma extrema_of_run (np : NumpyBuild float) (ratios : list float) :
  extremum_laws np -> ratios <> [] ->
  (existsb PrimFloat.is_nan ratios = true ->
   PrimFloat.is_nan (minimum_reduce ratios) = true /\
   PrimFloat.is_nan (maximum_reduce ratios) = true)
  /\ (existsb PrimFloat.is_nan ratios = false ->
      In (minimum_reduce ratios) ratios /\ In (maximum_reduce ratios) ratios /\
      forall x, In x ratios ->
        PrimFloat.ltb x (minimum_reduce ratios) = false /\
        PrimFloat.ltb (maximum_reduce ratios) x = false).
Proof.
  intros Hlaws Hne. exact (Hlaws ratios Hne).
Qed.

(** C8, as stated, fails in binary64: the mean shown is not the arithmetic
    mean of the ratios.  On financials with a CET1 of 1e20 every draw gives
    the same ratio, 8.333333333333332e+17, so that number is the arithmetic
    mean of any number of them; for three draws numpy's mean of the list is
    8.333333333333334e+17, the next float up. *)
Lemma mean_is_not_arithmetic_mean :
  let x := 8.333333333333332e+17%float in
  let mean := 8.333333333333334e+17%float in
  run_monte_carlo (A:=float) large_financials 3 fresh_process
  = after_run fresh_process 3 [x; x; x] mean x x
  /\ np_mean [x; x; x] = mean
  /\ PrimFloat.eqb mean x = false
  /\ PrimFloat.ltb x mean = true.
Proof.
  cbv zeta. split; [vm_compute; reflexivity|].
  split; [vm_compute; reflexivity|]. split; reflexivity.
Qed.

(** C8 (amended).  For a sample count N > 0 and RWA != 0 the block makes N
    turns.  Turn i calls [np.random.uniform] three times, with bounds (0, 5),
    (0, 10) and (0, 10); the three calls take the values of index 3i, 3i+1
    and 3i+2 of the generator's stream, counted from its position, and a
    change of the stream at any other index leaves the triple as it is: no
    value is used for two fields or two draws.  Under numpy's contract for
    these calls the triple lies in [0,5) x [0,10) x [0,10).  The ratio
    appended is the updated_cet1_ratio that [compute_result] gives for the
    triple.  The block returns the N ratios in draw order, shows numpy's mean,
    minimum and maximum of that list and its histogram, and leaves the
    generator advanced by 3 N values.  Minimum and maximum are NaN if a ratio
    is NaN, and otherwise members of the list that no ratio is below, resp.
    above.  The mean is numpy's binary64 mean, the pairwise sum over N: it
    is not the arithmetic mean in general, and lies between the means numpy
    computes for N copies of any lower and of any upper bound of the ratios.  In exact arithmetic the mean times N is the
    sum of the ratios, and minimum and maximum are members of the list that
    bound every ratio. *)
Theorem monte_carlo_draws_and_aggregates :
  (forall (np : NumpyBuild float)
          (f : BankFinancials float) (num_simulations : Z) (s : process float),
      (0 < num_simulations)%Z ->
      PrimFloat.eqb (risk_weighted_assets f) 0 = false ->
      exists ratios lo hi,
        run_monte_carlo f num_simulations s
        = after_run s (Z.to_nat num_simulations) ratios (np_mean ratios) lo hi /\
        ratios_of_draws f (np_random s) (Z.to_nat num_simulations) ratios /\
        (forall i : nat,
            drawn_triple (np_random s) i
            = Build_StressTriple
                (stream (np_random s) (3 * i + position (np_random s)) 0%float 5%float)
                (stream (np_random s) (3 * i + 1 + position (np_random s)) 0%float 10%float)
                (stream (np_random s) (3 * i + 2 + position (np_random s)) 0%float 10%float))
        /\
        (forall (g' : rng float) (k i : nat),
            differ_at_most_at (np_random s) g' k ->
            (k < 3 * i + position (np_random s)
             \/ 3 * i + 2 + position (np_random s) < k)%nat ->
            drawn_triple g' i = drawn_triple (np_random s) i) /\
        (uniform_contract (np_random s) ->
         forall i : nat, in_draw_range (drawn_triple (np_random s) i) = true) /\
        (extremum_laws np ->
         (existsb PrimFloat.is_nan ratios = true ->
          PrimFloat.is_nan lo = true /\ PrimFloat.is_nan hi = true)
         /\ (existsb PrimFloat.is_nan ratios = false ->
             In lo ratios /\ In hi ratios /\
             forall x, In x ratios ->
               PrimFloat.ltb x lo = false /\ PrimFloat.ltb hi x = false)) /\
        ((num_simulations < 2 ^ 63)%Z ->
         forall a b : float,
           (forall x, In x ratios ->
              PrimFloat.leb a x = true /\ PrimFloat.leb x b = true) ->
           PrimFloat.ltb (np_mean ratios)
             (np_mean (repeat a (Z.to_nat num_simulations))) = false /\
           PrimFloat.ltb (np_mean (repeat b (Z.to_nat num_simulations)))
             (np_mean ratios) = false))
  /\ (forall (f : BankFinancials Q) (num_simulations : Z) (s : process Q),
      (0 < num_simulations)%Z ->
      ~ risk_weighted_assets f == 0 ->
      exists ratios lo hi,
        run_monte_carlo f num_simulations s
        = after_run s (Z.to_nat num_simulations) ratios (np_mean ratios) lo hi /\
        ratios_of_draws f (np_random s) (Z.to_nat num_simulations) ratios /\
        np_mean ratios * inject_Z num_simulations == Qsum ratios /\
        In lo ratios /\ In hi ratios /\
        (forall x, In x ratios -> lo <= x <= hi)).
Proof.
  split.
  - intros np f n s Hn Hrwa.
    destruct (run_monte_carlo_binary64 np f n s Hn Hrwa) as (ratios & Hlen & Hrun & Hdraws).
    assert (Hne : ratios <> []).
    { intros E. rewrite E in Hlen. cbn in Hlen. lia. }
    exists ratios, (minimum_reduce ratios), (maximum_reduce ratios).
    split; [exact Hrun|]. split; [exact Hdraws|].
    split.
    { intros i. unfold drawn_triple.
      replace (3 * i + 1 + position (np_random s))%nat
        with (S (3 * i + position (np_random s))) by lia.
      replace (3 * i + 2 + position (np_random s))%nat
        with (S (S (3 * i + position (np_random s)))) by lia.
      reflexivity. }
    split; [intros g' k i; apply drawn_triple_reads|].
    split; [intros Hg i; apply drawn_triple_in_range, Hg|].
    split; [intros Hlaws; apply extrema_of_run; assumption|].
    intros Hlt a b Hall. rewrite <- Hlen.
    destruct (np_mean_bracket a b ratios) as [Hlo Hhi].
    + rewrite Hlen. lia.
    + rewrite Hlen, Z2Nat.id by lia. exact Hlt.
    + intros x Hx. destruct (Hall x Hx) as [Ha Hb].
      split; apply fle_of_leb; assumption.
    + split; apply ltb_false_of_fle; assumption.
  - intros f n s Hn Hrwa.
    destruct (run_monte_carlo_exact f n s Hn Hrwa)
      as (ratios & lo & hi & Hrun & Hdraws & Hmean & Hlo & Hhi & Hall & _).
    exists ratios, lo, hi. repeat (split; [assumption|]). exact Hall.
Qed.

(** The example generator keeps numpy's contract. *)
Lemma sixteenths_contract : uniform_contract (sixteenths (A:=float)).
Proof.
  intros k. cbn [stream sixteenths].
  pose proof (Z.mod_pos_bound (Z.of_nat k) 16 ltac:(lia)) as Hj.
  set (j := (Z.of_nat k mod 16)%Z) in *.
  assert (Ej : (j = 0 \/ j = 1 \/ j = 2 \/ j = 3 \/ j = 4 \/ j = 5 \/ j = 6 \/ j = 7
               \/ j = 8 \/ j = 9 \/ j = 10 \/ j = 11 \/ j = 12 \/ j = 13 \/ j = 14
               \/ j = 15)%Z) by lia.
  clearbody j.
  repeat (destruct Ej as [->|Ej]; [vm_compute; reflexivity|]).
  subst j. vm_compute. reflexivity.
Qed.

Lemma monte_carlo_draws_and_aggregates_witness :
  exists ratios lo hi,
    run_monte_carlo (A:=float) default_financials 2 fresh_process
    = after_run fresh_process 2 ratios (np_mean ratios) lo hi /\
    ratios_of_draws default_financials sixteenths 2 ratios /\
    (forall i : nat, in_draw_range (drawn_triple sixteenths i) = true) /\
    In lo ratios /\ In hi ratios /\
    (forall x, In x ratios ->
       PrimFloat.ltb x lo = false /\ PrimFloat.ltb hi x = false) /\
    PrimFloat.ltb (np_mean ratios) (np_mean (repeat 0%float 2)) = false.
Proof.
  destruct (proj1 monte_carlo_draws_and_aggregates scalar_loop
              default_financials 2%Z fresh_process)
    as (ratios & lo & hi & Hrun & Hdraws & _ & _ & Hrange & Hext & Hmean);
    [reflexivity|reflexivity|].
  assert (Eratios : ratios = [7.5833333333333339; 4.583333333333333]%float).
  { apply (f_equal fst) in Hrun. vm_compute in Hrun. injection Hrun as <-. reflexivity. }
  destruct (Hext scalar_loop_laws) as [_ Hok].
  destruct Hok as (Hlo & Hhi & Hall); [rewrite Eratios; reflexivity|].
  exists ratios, lo, hi.
  split; [exact Hrun|]. split; [exact Hdraws|].
  split; [exact (Hrange sixteenths_contract)|].
  split; [exact Hlo|]. split; [exact Hhi|]. split; [exact Hall|].
  apply (fun H => Hmean H 0%float 8%float); [reflexivity|].
  intros x Hx. rewrite Eratios in Hx.
  destruct Hx as [<-|[<-|[]]]; split; reflexivity.
Defined.

(** *** Repeated runs *)

(** C9, as stated, fails twice.  The block has no generator or seed of its
    own to fix: it draws from numpy's process-wide generator and leaves it
    advanced, so the same run repeated with the same financials and the same
    sample count continues the stream, and here returns another ratio.  And
    in binary64 the mean need not lie between the minimum and the maximum: on
    financials with a CET1 of 1e20 all ratios are 8.333333333333332e+17,
    which is then the minimum and the maximum, while the mean of 100 of them
    is 8.33333333333333e+17, below both, and the mean of 500 of them is
    8.333333333333334e+17, above both; so is the mean of 3 of them, for which
    the order of the additions plays no role. *)
Lemma second_run_differs :
  (fst (run_monte_carlo (A:=float) default_financials 1 fresh_process)
   = Return [7.5833333333333339%float]
   /\ fst (run_monte_carlo (A:=float) default_financials 1
             (snd (run_monte_carlo (A:=float) default_financials 1 fresh_process)))
      = Return [4.583333333333333%float]
   /\ ~ repeatable (A:=float) default_financials 1 fresh_process)
  /\ (let x := 8.333333333333332e+17%float in
      let mean := 8.33333333333333e+17%float in
      run_monte_carlo (A:=float) large_financials 100 fresh_process
      = after_run fresh_process 100 (repeat x 100) mean x x
      /\ PrimFloat.ltb mean x = true)
  /\ (let x := 8.333333333333332e+17%float in
      let mean := 8.333333333333334e+17%float in
      run_monte_carlo (A:=float) large_financials 500 fresh_process
      = after_run fresh_process 500 (repeat x 500) mean x x
      /\ PrimFloat.ltb x mean = true)
  /\ (let x := 8.333333333333332e+17%float in
      let mean := 8.333333333333334e+17%float in
      run_monte_carlo (A:=float) large_financials 3 fresh_process
      = after_run fresh_process 3 (repeat x 3) mean x x
      /\ PrimFloat.ltb x mean = true).
Proof.
  split; [|split; [|split]].
  - split; [vm_compute; reflexivity|]. split; [vm_compute; reflexivity|].
    unfold repeatable. intros E.
    apply (f_equal (same_single_ratio
                      (fst (run_monte_carlo (A:=float) default_financials 1 fresh_process))))
      in E.
    vm_compute in E. discriminate E.
  - cbv zeta. split; [vm_compute; reflexivity|reflexivity].
  - cbv zeta. split; [vm_compute; reflexivity|reflexivity].
  - cbv zeta. split; [vm_compute; reflexivity|reflexivity].
Qed.

(** C9 (amended).  The random source of the block is numpy's process-wide
    generator, which a run with N > 0 and RWA != 0 leaves advanced by 3 N
    values.  The outcome of a run is determined by the financials, the sample
    count and the next 3 N values of the generator: two runs entered with
    generators that agree on those values return the same ratios (or raise
    the same exception), whatever else differs between the two processes.
    In binary64 the mean shown need not lie between the minimum and the
    maximum shown; when no ratio is NaN it lies between the means numpy
    computes for N copies of the minimum and for N copies of the maximum.  In exact arithmetic, for N > 0 and RWA != 0, the
    mean lies between the minimum and the maximum. *)
Theorem monte_carlo_determined_by_generator :
  (forall (np : NumpyBuild float)
          (f : BankFinancials float) (num_simulations : Z) (s s' : process float),
      agree_on (np_random s) (np_random s') (3 * Z.to_nat num_simulations) ->
      fst (run_monte_carlo f num_simulations s)
      = fst (run_monte_carlo f num_simulations s'))
  /\ (forall (np : NumpyBuild float)
             (f : BankFinancials float) (num_simulations : Z) (s : process float),
      (0 < num_simulations)%Z ->
      PrimFloat.eqb (risk_weighted_assets f) 0 = false ->
      np_random (snd (run_monte_carlo f num_simulations s))
      = advance (np_random s) (3 * Z.to_nat num_simulations))
  /\ (forall (np : NumpyBuild float)
             (f : BankFinancials float) (num_simulations : Z) (s : process float),
      (0 < num_simulations < 2 ^ 63)%Z ->
      PrimFloat.eqb (risk_weighted_assets f) 0 = false ->
      extremum_laws np ->
      exists ratios lo hi,
        run_monte_carlo f num_simulations s
        = after_run s (Z.to_nat num_simulations) ratios (np_mean ratios) lo hi /\
        (existsb PrimFloat.is_nan ratios = false ->
         PrimFloat.ltb (np_mean ratios)
           (np_mean (repeat lo (Z.to_nat num_simulations))) = false /\
         PrimFloat.ltb (np_mean (repeat hi (Z.to_nat num_simulations)))
           (np_mean ratios) = false))
  /\ (forall (f : BankFinancials Q) (num_simulations : Z) (s : process Q),
      (0 < num_simulations)%Z ->
      ~ risk_weighted_assets f == 0 ->
      exists ratios lo hi,
        run_monte_carlo f num_simulations s
        = after_run s (Z.to_nat num_simulations) ratios (np_mean ratios) lo hi /\
        lo <= np_mean ratios <= hi).
Proof.
  split; [|split; [|split]].
  - intros np f n s s'. apply (run_monte_carlo_agree hundred_nonzero_binary64).
  - intros np f n s Hn Hrwa.
    destruct (run_monte_carlo_binary64 np f n s Hn Hrwa) as (ratios & _ & -> & _).
    reflexivity.
  - intros np f n s [Hn Hlt] Hrwa Hlaws.
    destruct (run_monte_carlo_binary64 np f n s Hn Hrwa) as (ratios & Hlen & Hrun & _).
    assert (Hne : ratios <> []).
    { intros E. rewrite E in Hlen. cbn in Hlen. lia. }
    exists ratios, (minimum_reduce ratios), (maximum_reduce ratios).
    split; [exact Hrun|]. intros Hnan. rewrite <- Hlen.
    destruct (np_mean_bracket (minimum_reduce ratios) (maximum_reduce ratios) ratios)
      as [Hlo Hhi].
    + rewrite Hlen. lia.
    + rewrite Hlen, Z2Nat.id by lia. exact Hlt.
    + intros x Hx. apply (extremum_laws_fle np ratios Hlaws Hne Hnan x Hx).
    + split; apply ltb_false_of_fle; assumption.
  - intros f n s Hn Hrwa.
    destruct (run_monte_carlo_exact f n s Hn Hrwa)
      as (ratios & lo & hi & Hrun & _ & _ & _ & _ & _ & Hbetween).
    exists ratios, lo, hi. split; assumption.
Qed.

(** Two processes with the same generator and different pages; and the mean
    of a run against its extrema. *)
Lemma monte_carlo_determined_by_generator_witness :
  fst (run_monte_carlo (A:=float) default_financials 3
         {| np_random := sixteenths; page := [ShowHeader] |})
  = fst (run_monte_carlo (A:=float) default_financials 3 fresh_process)
  /\ exists ratios lo hi,
       run_monte_carlo (A:=float) large_financials 100 fresh_process
       = after_run fresh_process 100 ratios (np_mean ratios) lo hi /\
       PrimFloat.ltb (np_mean ratios) (np_mean (repeat lo 100)) = false /\
       PrimFloat.ltb (np_mean (repeat hi 100)) (np_mean ratios) = false.
Proof.
  split.
  - apply (proj1 monte_carlo_determined_by_generator scalar_loop).
    intros i low high _. reflexivity.
  - destruct (proj1 (proj2 (proj2 monte_carlo_determined_by_generator)) scalar_loop
                large_financials 100%Z fresh_process)
      as (ratios & lo & hi & Hrun & Hmean);
      [split; reflexivity|reflexivity|exact scalar_loop_laws|].
    assert (Eratios : ratios = repeat 8.333333333333332e+17%float 100).
    { apply (f_equal fst) in Hrun. vm_compute in Hrun. injection Hrun as <-. reflexivity. }
    exists ratios, lo, hi. split; [exact Hrun|].
    apply Hmean. rewrite Eratios. reflexivity.
Defined.
(** * Further properties of the script *)

(** ** Binary64 and zero *)

Lemma binary64_add_zero_r (x : float) :
  x <> (-0)%float -> (x + 0)%float = x.
Proof.
  intros Hx. apply Prim2SF_inj. rewrite add_spec.
  change (Prim2SF 0%float) with (S754_zero false).
  destruct (Prim2SF x) as [[|]|[|]| |s m e] eqn:E; try reflexivity.
  exfalso. apply Hx. rewrite <- (SF2Prim_Prim2SF x), E. reflexivity.
Qed.

(** A finite binary64 above 0 has a clear sign bit and a mantissa. *)
Lemma Prim2SF_positive (x : float) :
  PrimFloat.ltb 0 x = true -> PrimFloat.is_finite x = true ->
  exists m e, Prim2SF x = S754_finite false m e.
Proof.
  intros Hpos Hfin. rewrite ltb_spec in Hpos.
  change (Prim2SF 0%float) with (S754_zero false) in Hpos.
  destruct (Prim2SF_finite x Hfin) as [[s E]|(s & m & e & E)]; rewrite E in Hpos.
  - destruct s; discriminate Hpos.
  - destruct s; [discriminate Hpos|]. eauto.
Qed.

Lemma binary64_positive_nonzero (x : float) :
  PrimFloat.ltb 0 x = true -> PrimFloat.is_finite x = true ->
  PrimFloat.eqb x 0 = false.
Proof.
  intros Hpos Hfin. rewrite eqb_spec.
  destruct (Prim2SF_positive x Hpos Hfin) as (m & e & ->). reflexivity.
Qed.

Lemma binary64_mul_positive_zero (x : float) :
  PrimFloat.ltb 0 x = true -> PrimFloat.is_finite x = true ->
  (x * 0)%float = 0%float.
Proof.
  intros Hpos Hfin. apply Prim2SF_inj. rewrite mul_spec.
  destruct (Prim2SF_positive x Hpos Hfin) as (m & e & ->). reflexivity.
Qed.

Lemma binary64_mul_finite_zero (x : float) :
  PrimFloat.is_finite x = true ->
  (x * 0)%float = 0%float \/ (x * 0)%float = (-0)%float.
Proof.
  intros Hfin.
  assert (Hz : exists s, Prim2SF (x * 0)%float = S754_zero s).
  { rewrite mul_spec. change (Prim2SF 0%float) with (S754_zero false).
    destruct (Prim2SF_finite x Hfin) as [[s ->]|(s & m & e & ->)]; cbn; eauto. }
  destruct Hz as [s Hs]. rewrite <- (SF2Prim_Prim2SF (x * 0)%float), Hs.
  destruct s; [right|left]; reflexivity.
Qed.

(** ** The two scenario tables *)

Lemma set_parameters_known {A} `{PyFloat A}
    (custom : StressTriple A) (scenario : string) :
  In scenario scenario_names -> exists t, set_parameters custom scenario = Some t.
Proof.
  intros Hin. cbn in Hin.
  repeat (destruct Hin as [<-|Hin]; [eexists; reflexivity|]).
  contradiction.
Qed.

Lemma set_parameters_unknown {A} `{PyFloat A}
    (custom : StressTriple A) (scenario : string) :
  ~ In scenario scenario_names -> set_parameters custom scenario = None.
Proof.
  intros Hout. unfold set_parameters.
  repeat match goal with
  | |- context [String.eqb scenario ?name] =>
      destruct (String.eqb_spec scenario name) as [->|_];
      [exfalso; apply Hout; cbn; tauto|]
  end.
  reflexivity.
Qed.

(** X1. The scenario chain of the main page (lines 50-89) and
    [get_scenario_parameters] (lines 213-236) hold the same table of nine
    predefined triples: for each of the nine names, and at every instance of
    the arithmetic, the function returns the tuple of the three values the
    chain assigns.  Under "Custom Scenario" each reads three sliders of its
    own, those of lines 87-89 for the chain and those of lines 233-235 for the
    function, and their values are independent of each other.  For every name
    outside the ten of the selectboxes the chain assigns nothing and the
    function returns None, and the chain assigns nothing only then. *)
Theorem scenario_tables_agree :
  forall (A : Type) (arith : PyFloat A)
         (custom_main custom_comparison : StressTriple A) (scenario : string),
    (In scenario predefined_names ->
     exists t,
       set_parameters custom_main scenario = Some t /\
       get_scenario_parameters custom_comparison scenario
       = Return (PyTuple (interest_rate_hike t) (credit_loss_rate t) (market_shock t)))
    /\ set_parameters custom_main "Custom Scenario" = Some custom_main
    /\ get_scenario_parameters custom_comparison "Custom Scenario"
       = Return (PyTuple (interest_rate_hike custom_comparison)
                   (credit_loss_rate custom_comparison)
                   (market_shock custom_comparison))
    /\ (~ In scenario scenario_names ->
        set_parameters custom_main scenario = None /\
        get_scenario_parameters custom_comparison scenario = Return PyNone)
    /\ (set_parameters custom_main scenario = None <-> ~ In scenario scenario_names).
Proof.
  intros A arith custom_main custom_comparison scenario.
  split; [|split; [|split; [|split]]].
  - intros Hin. cbn in Hin.
    repeat (destruct Hin as [<-|Hin]; [eexists; split; reflexivity|]).
    contradiction.
  - reflexivity.
  - reflexivity.
  - intros Hout. split.
    + apply set_parameters_unknown, Hout.
    + apply get_scenario_parameters_unknown, Hout.
  - split.
    + intros Hnone Hin.
      destruct (set_parameters_known custom_main scenario Hin) as [t Ht]. congruence.
    + apply set_parameters_unknown.
Qed.

Lemma scenario_tables_agree_witness :
  (exists t,
     set_parameters (A:=float) mild_recession "Credit Crisis" = Some t /\
     get_scenario_parameters (A:=float) worst_case "Credit Crisis"
     = Return (PyTuple (interest_rate_hike t) (credit_loss_rate t) (market_shock t)))
  /\ (set_parameters (A:=float) mild_recession "Stagflation" = None /\
      get_scenario_parameters (A:=float) worst_case "Stagflation" = Return PyNone).
Proof.
  split.
  - apply (proj1 (scenario_tables_agree float Binary64 mild_recession worst_case
                    "Credit Crisis")).
    cbn. tauto.
  - apply (proj1 (proj2 (proj2 (proj2
             (scenario_tables_agree float Binary64 mild_recession worst_case
                "Stagflation"))))).
    cbn. intros Hin.
    repeat (destruct Hin as [Hin|Hin]; [discriminate Hin|]). exact Hin.
Defined.
(** ** Baseline and the initial ratio *)

(** X2. Under "Baseline (No Stress)", for financials with a finite RWA > 0
    and a finite Tier 1 capital, the binary64 computation of lines 92-98
    loses nothing to rounding: total_losses is 0, updated_cet1 is the initial
    CET1, and the "Updated CET1 Ratio" equals the "Initial CET1 Ratio" of
    line 105 exactly. *)
Theorem baseline_keeps_initial_ratio :
  forall (f : BankFinancials float) (custom : StressTriple float),
    PrimFloat.ltb 0 (risk_weighted_assets f) = true ->
    PrimFloat.is_finite (risk_weighted_assets f) = true ->
    PrimFloat.is_finite (initial_tier1 f) = true ->
    exists t r,
      set_parameters custom "Baseline (No Stress)" = Some t /\
      compute_result f t = Return r /\
      total_losses r = 0%float /\
      updated_cet1 r = initial_cet1 f /\
      initial_cet1_ratio f = Return (updated_cet1_ratio r).
Proof.
  intros f custom Hpos Hfin Htier.
  pose proof (binary64_positive_nonzero _ Hpos Hfin) as Hnz.
  eexists. eexists. split; [reflexivity|].
  split; [apply compute_result_binary64, Hnz|].
  assert (Hlosses :
    total_losses (stress_result f (Build_StressTriple (of_Q 0.0) (of_Q 0.0) (of_Q 0.0)))
    = 0%float).
  { unfold stress_result. cbn [total_losses interest_rate_hike credit_loss_rate market_shock].
    change (fdiv (of_Q 0.0 : float) (of_Q 100)) with 0%float.
    change (@fmul float Binary64) with PrimFloat.mul.
    change (@fadd float Binary64) with PrimFloat.add.
    rewrite (binary64_mul_positive_zero _ Hpos Hfin).
    destruct (binary64_mul_finite_zero _ Htier) as [-> | ->]; reflexivity. }
  assert (Hcet1 :
    updated_cet1 (stress_result f (Build_StressTriple (of_Q 0.0) (of_Q 0.0) (of_Q 0.0)))
    = initial_cet1 f).
  { change (updated_cet1 (stress_result f (Build_StressTriple (of_Q 0.0) (of_Q 0.0) (of_Q 0.0))))
      with (initial_cet1 f
            - total_losses (stress_result f
                (Build_StressTriple (of_Q 0.0) (of_Q 0.0) (of_Q 0.0))))%float.
    rewrite Hlosses. apply binary64_sub_zero_r. }
  split; [exact Hlosses|]. split; [exact Hcet1|].
  unfold initial_cet1_ratio, truediv.
  change (feqb (risk_weighted_assets f) (of_Q 0))
    with (PrimFloat.eqb (risk_weighted_assets f) 0).
  rewrite Hnz. cbn [bind]. f_equal.
  change (updated_cet1_ratio (stress_result f (Build_StressTriple (of_Q 0.0) (of_Q 0.0) (of_Q 0.0))))
    with (fmul (fdiv (updated_cet1 (stress_result f
            (Build_StressTriple (of_Q 0.0) (of_Q 0.0) (of_Q 0.0))))
            (risk_weighted_assets f)) (of_Q 100)).
  rewrite Hcet1. reflexivity.
Qed.

Lemma baseline_keeps_initial_ratio_witness :
  exists t r,
    set_parameters (A:=float) mild_recession "Baseline (No Stress)" = Some t /\
    compute_result (A:=float) default_financials t = Return r /\
    total_losses r = 0%float /\
    updated_cet1 r = 1000%float /\
    initial_cet1_ratio (A:=float) default_financials = Return (updated_cet1_ratio r).
Proof.
  refine (baseline_keeps_initial_ratio default_financials mild_recession _ _ _);
    reflexivity.
Defined.

(** ** The what-if path *)

Lemma compute_result_zero_rwa_binary64 (f : BankFinancials float) (t : StressTriple float) :
  PrimFloat.eqb (risk_weighted_assets f) 0 = true ->
  compute_result f t = Raise ZeroDivisionError.
Proof.
  intros Hrwa. rewrite (compute_result_eq hundred_nonzero_binary64).
  change (feqb (risk_weighted_assets f) (of_Q 0))
    with (PrimFloat.eqb (risk_weighted_assets f) 0).
  rewrite Hrwa. reflexivity.
Qed.

(** X3. The what-if ratio of lines 161-167 is the stress formula of lines
    92-98 applied to the totals of lines 157-159: it raises exactly when
    [compute_result] raises on the composed triple, ZeroDivisionError for
    RWA == 0, and otherwise it is the updated_cet1_ratio [compute_result]
    returns for the composed triple, bit for bit. *)
Theorem what_if_is_stress_of_totals :
  forall (f : BankFinancials float) (current what_if : StressTriple float),
    what_if_cet1_ratio f current what_if
    = bind (compute_result f (compose current what_if))
           (fun r => Return (updated_cet1_ratio r))
    /\ (PrimFloat.eqb (risk_weighted_assets f) 0 = true ->
        what_if_cet1_ratio f current what_if = Raise ZeroDivisionError)
    /\ (PrimFloat.eqb (risk_weighted_assets f) 0 = false ->
        exists r,
          compute_result f (compose current what_if) = Return r /\
          what_if_cet1_ratio f current what_if = Return (updated_cet1_ratio r)).
Proof.
  intros f current what_if.
  pose proof (what_if_ratio_eq hundred_nonzero_binary64 f current what_if) as Heq.
  split; [exact Heq|]. split; intros Hrwa; rewrite Heq.
  - rewrite (compute_result_zero_rwa_binary64 _ _ Hrwa). reflexivity.
  - exists (stress_result f (compose current what_if)).
    rewrite (compute_result_binary64 _ _ Hrwa). split; reflexivity.
Qed.

Lemma what_if_is_stress_of_totals_witness :
  what_if_cet1_ratio (A:=float) default_financials mild_recession mild_recession
  = Return (208 / 12000 * 100)%float.
Proof.
  destruct (proj2 (proj2 (what_if_is_stress_of_totals
                            default_financials mild_recession mild_recession)))
    as (r & Hr & Hw); [reflexivity|].
  vm_compute in Hr. injection Hr as <-. exact Hw.
Defined.

(** X4. With the what-if sliders at their default 0.0, the totals are the
    current rates themselves and the what-if ratio is the ratio the stress
    formula gives for the current rates, in binary64, for every current rate
    other than the negative zero. *)
Theorem what_if_default_is_current :
  forall (f : BankFinancials float) (current : StressTriple float),
    interest_rate_hike current <> (-0)%float ->
    credit_loss_rate current <> (-0)%float ->
    market_shock current <> (-0)%float ->
    compose current what_if_default = current
    /\ what_if_cet1_ratio f current what_if_default
       = bind (compute_result f current) (fun r => Return (updated_cet1_ratio r)).
Proof.
  intros f current Hh Hc Hm.
  assert (Hcompose : compose current what_if_default = current).
  { destruct current as [h c m]. cbn [interest_rate_hike credit_loss_rate market_shock] in *.
    unfold compose, what_if_default.
    cbn [interest_rate_hike credit_loss_rate market_shock].
    change (of_Q 0.0 : float) with 0%float.
    change (@fadd float Binary64) with PrimFloat.add.
    rewrite !binary64_add_zero_r by assumption. reflexivity. }
  split; [exact Hcompose|].
  rewrite (what_if_ratio_eq hundred_nonzero_binary64), Hcompose. reflexivity.
Qed.

Lemma what_if_default_is_current_witness :
  compose (A:=float) mild_recession what_if_default = mild_recession
  /\ what_if_cet1_ratio (A:=float) default_financials mild_recession what_if_default
     = bind (compute_result default_financials mild_recession)
            (fun r => Return (updated_cet1_ratio r)).
Proof.
  apply (what_if_default_is_current default_financials mild_recession);
    intros E; apply (f_equal (PrimFloat.ltb 0)) in E; vm_compute in E; discriminate E.
Defined.

(** ** How the scenario comparison ends *)

Lemma lookup_known {A} `{PyFloat A} (custom : StressTriple A) (scenario : string) :
  In scenario scenario_names -> exists t, lookup custom scenario = Return t.
Proof.
  intros Hin. cbn in Hin.
  repeat (destruct Hin as [<-|Hin]; [eexists; reflexivity|]).
  contradiction.
Qed.

Lemma lookup_unknown {A} `{PyFloat A} (custom : StressTriple A) (scenario : string) :
  ~ In scenario scenario_names -> lookup custom scenario = Raise TypeError.
Proof.
  intros Hout. unfold lookup.
  rewrite (get_scenario_parameters_unknown custom scenario Hout). reflexivity.
Qed.

(** The keys the two calls of [get_scenario_parameters] register: the second
    registration fails exactly when both calls create the custom sliders. *)
Lemma registration (scenario_1 scenario_2 : string) :
  st_register ["scenario_1"; "scenario_2"]%string (widget_keys scenario_1)
  = Return (["scenario_1"; "scenario_2"]%string ++ widget_keys scenario_1)
  /\ st_register (["scenario_1"; "scenario_2"]%string ++ widget_keys scenario_1)
       (widget_keys scenario_2)
     = if ((scenario_1 =? "Custom Scenario") && (scenario_2 =? "Custom Scenario"))%string
       then Raise StreamlitDuplicateElementKey
       else Return ((["scenario_1"; "scenario_2"]%string ++ widget_keys scenario_1)
                    ++ widget_keys scenario_2).
Proof.
  unfold widget_keys.
  destruct (scenario_1 =? "Custom Scenario")%string,
           (scenario_2 =? "Custom Scenario")%string; split; reflexivity.
Qed.

(** X6. With RWA != 0, the only financials with which the script reaches the
    scenario comparison of lines 239-261, the comparison ends in one of three
    ways.  If one of the two names is outside the ten of the selectboxes it
    raises TypeError.  If both names are "Custom Scenario", the second call
    of [get_scenario_parameters] creates the three custom sliders a second
    time under the same keys, and Streamlit raises
    StreamlitDuplicateElementKey.  Otherwise it returns the two ratios that
    [compute_result] gives for the two looked-up triples, and their
    difference, second minus first. *)
Theorem scenario_comparison_outcome :
  forall (f : BankFinancials float) (custom : StressTriple float)
         (scenario_1 scenario_2 : string),
    PrimFloat.eqb (risk_weighted_assets f) 0 = false ->
    (~ In scenario_1 scenario_names \/ ~ In scenario_2 scenario_names ->
     scenario_comparison f custom scenario_1 scenario_2 = Raise TypeError)
    /\ (scenario_1 = "Custom Scenario"%string -> scenario_2 = "Custom Scenario"%string ->
        scenario_comparison f custom scenario_1 scenario_2
        = Raise StreamlitDuplicateElementKey)
    /\ (In scenario_1 scenario_names -> In scenario_2 scenario_names ->
        ~ (scenario_1 = "Custom Scenario"%string /\ scenario_2 = "Custom Scenario"%string) ->
        exists t1 t2 r1 r2,
          lookup custom scenario_1 = Return t1 /\
          lookup custom scenario_2 = Return t2 /\
          compute_result f t1 = Return r1 /\
          compute_result f t2 = Return r2 /\
          scenario_comparison f custom scenario_1 scenario_2
          = Return (updated_cet1_ratio r1, updated_cet1_ratio r2,
                    (updated_cet1_ratio r2 - updated_cet1_ratio r1)%float)).
Proof.
  intros f custom s1 s2 Hrwa. unfold scenario_comparison.
  destruct (registration s1 s2) as [-> Hsecond]. cbn [bind].
  split; [|split].
  - intros [Hout|Hout].
    + rewrite (lookup_unknown custom s1 Hout). reflexivity.
    + destruct (in_dec string_dec s1 scenario_names) as [H1|H1].
      * destruct (lookup_known custom s1 H1) as [t1 ->]. cbn [bind].
        rewrite Hsecond.
        assert (E : (s2 =? "Custom Scenario")%string = false).
        { apply String.eqb_neq. intros ->. apply Hout. cbn. tauto. }
        rewrite E, andb_false_r. cbn [bind].
        rewrite (lookup_unknown custom s2 Hout). reflexivity.
      * rewrite (lookup_unknown custom s1 H1). reflexivity.
  - intros -> ->. rewrite Hsecond. reflexivity.
  - intros H1 H2 Hnot.
    destruct (lookup_known custom s1 H1) as [t1 E1].
    destruct (lookup_known custom s2 H2) as [t2 E2].
    exists t1, t2, (stress_result f t1), (stress_result f t2).
    rewrite E1, E2. cbn [bind]. rewrite Hsecond.
    assert (E : ((s1 =? "Custom Scenario") && (s2 =? "Custom Scenario"))%string = false).
    { destruct (String.eqb_spec s1 "Custom Scenario") as [->|_]; [|reflexivity].
      destruct (String.eqb_spec s2 "Custom Scenario") as [->|_]; [|reflexivity].
      exfalso. apply Hnot. split; reflexivity. }
    rewrite E. cbn [bind].
    rewrite compare_eq_binary64, !(compute_result_binary64 _ _ Hrwa).
    repeat split.
Qed.

Lemma scenario_comparison_outcome_witness :
  scenario_comparison (A:=float) default_financials mild_recession
    "Mild Recession" "Stagflation" = Raise TypeError
  /\ scenario_comparison (A:=float) default_financials mild_recession
       "Custom Scenario" "Custom Scenario" = Raise StreamlitDuplicateElementKey
  /\ exists t1 t2 r1 r2,
       lookup (A:=float) mild_recession "Custom Scenario" = Return t1 /\
       lookup (A:=float) mild_recession "Market Crash" = Return t2 /\
       compute_result default_financials t1 = Return r1 /\
       compute_result default_financials t2 = Return r2 /\
       scenario_comparison (A:=float) default_financials mild_recession
         "Custom Scenario" "Market Crash"
       = Return (updated_cet1_ratio r1, updated_cet1_ratio r2,
                 (updated_cet1_ratio r2 - updated_cet1_ratio r1)%float).
Proof.
  split; [|split].
  - refine (proj1 (scenario_comparison_outcome default_financials mild_recession
                     "Mild Recession" "Stagflation" _) _); [reflexivity|].
    right. cbn. intros Hin.
    repeat (destruct Hin as [Hin|Hin]; [discriminate Hin|]). exact Hin.
  - refine (proj1 (proj2 (scenario_comparison_outcome default_financials mild_recession
                            "Custom Scenario" "Custom Scenario" _)) _ _); reflexivity.
  - refine (proj2 (proj2 (scenario_comparison_outcome default_financials mild_recession
                            "Custom Scenario" "Market Crash" _)) _ _ _).
    + reflexivity.
    + cbn. tauto.
    + cbn. tauto.
    + intros [_ E]. discriminate E.
Defined.
(** ** Successive Monte Carlo runs *)

Lemma drawn_ratio_advance {A} `{PyFloat A}
    (f : BankFinancials A) (g : rng A) (n i : nat) :
  drawn_ratio f (advance g (3 * n)) i = drawn_ratio f g (n + i).
Proof.
  unfold drawn_ratio, drawn_triple, advance. cbn [position stream].
  replace (3 * i + (3 * n + position g))%nat with (3 * (n + i) + position g)%nat by lia.
  reflexivity.
Qed.

Lemma seq_from (n m : nat) : seq n m = map (Nat.add n) (seq 0 m).
Proof.
  induction n as [|n IH].
  - rewrite map_id. reflexivity.
  - rewrite <- seq_shift, IH, map_map. reflexivity.
Qed.

Lemma drawn_ratios_split {A} `{PyFloat A}
    (f : BankFinancials A) (g : rng A) (n m : nat) :
  map (drawn_ratio f g) (seq 0 (n + m))
  = map (drawn_ratio f g) (seq 0 n)
    ++ map (drawn_ratio f (advance g (3 * n))) (seq 0 m).
Proof.
  rewrite seq_app, map_app. f_equal. cbn [Nat.add].
  rewrite (seq_from n m), map_map. apply map_ext. intros i.
  symmetry. apply drawn_ratio_advance.
Qed.

(** X7. For RWA != 0, a run of N > 0 draws followed, in the same process, by
    a run of M > 0 draws returns two lists whose concatenation is what one
    run of N + M draws returns from the same starting generator, and both
    ways leave the generator in the same state, whatever the build of
    numpy. *)
Theorem monte_carlo_runs_concatenate :
  forall (np : NumpyBuild float)
         (f : BankFinancials float) (n m : Z) (s : process float),
    (0 < n)%Z -> (0 < m)%Z ->
    PrimFloat.eqb (risk_weighted_assets f) 0 = false ->
    exists first second,
      fst (run_monte_carlo f n s) = Return first /\
      fst (run_monte_carlo f m (snd (run_monte_carlo f n s))) = Return second /\
      fst (run_monte_carlo f (n + m) s) = Return (first ++ second) /\
      np_random (snd (run_monte_carlo f m (snd (run_monte_carlo f n s))))
      = np_random (snd (run_monte_carlo f (n + m) s)).
Proof.
  intros np f n m s Hn Hm Hrwa.
  destruct (run_monte_carlo_returns hundred_nonzero_binary64 f n s Hn Hrwa)
    as (lo1 & hi1 & _ & _ & Hrun1).
  rewrite Hrun1. cbn [fst snd].
  match goal with
  | |- context [run_monte_carlo f m ?s1] =>
      destruct (run_monte_carlo_returns hundred_nonzero_binary64 f m s1 Hm Hrwa)
        as (lo2 & hi2 & _ & _ & Hrun2)
  end.
  rewrite Hrun2. cbn [fst snd np_random].
  destruct (run_monte_carlo_returns hundred_nonzero_binary64 f (n + m) s
              ltac:(lia) Hrwa) as (lo & hi & _ & _ & Hrun).
  rewrite Hrun. cbn [fst snd np_random].
  eexists. eexists. split; [reflexivity|]. split; [reflexivity|].
  rewrite Z2Nat.inj_add by lia. split.
  - f_equal. apply drawn_ratios_split.
  - rewrite advance_advance. f_equal. lia.
Qed.

Lemma monte_carlo_runs_concatenate_witness :
  exists first second,
    fst (run_monte_carlo (A:=float) default_financials 2 fresh_process) = Return first /\
    fst (run_monte_carlo (A:=float) default_financials 3
           (snd (run_monte_carlo (A:=float) default_financials 2 fresh_process)))
    = Return second /\
    fst (run_monte_carlo (A:=float) default_financials (2 + 3) fresh_process)
    = Return (first ++ second) /\
    np_random (snd (run_monte_carlo (A:=float) default_financials 3
                      (snd (run_monte_carlo (A:=float) default_financials 2 fresh_process))))
    = np_random (snd (run_monte_carlo (A:=float) default_financials (2 + 3) fresh_process)).
Proof.
  apply (monte_carlo_runs_concatenate scalar_loop default_financials 2%Z 3%Z
           fresh_process);
    reflexivity.
Defined.

(** ** What-if sliders only add stress *)

Section AddNonNegative.
Local Open Scope R_scope.

Lemma add_zero_ext (x : float) :
  sf_is_nan (Prim2SF (x + 0)%float) = sf_is_nan (Prim2SF x)
  /\ ext (Prim2SF (x + 0)%float) = ext (Prim2SF x).
Proof.
  rewrite add_spec. change (Prim2SF 0%float) with (S754_zero false).
  destruct (Prim2SF x) as [[|]|[|]| |s m e]; split; reflexivity.
Qed.

(** Adding a float that is not below 0 does not lower a float. *)
Lemma fle_add_nonneg (c w : float) :
  PrimFloat.leb 0 w = true -> fle c (c + w)%float.
Proof.
  intros Hw.
  pose proof (fle_add c c 0%float w (fle_refl c) (fle_of_leb _ _ Hw)) as Hadd.
  destruct (add_zero_ext c) as [Nc Ec].
  unfold fle, le_or_nan in *. rewrite Nc, Ec in Hadd. tauto.
Qed.

End AddNonNegative.

Lemma initial_cet1_ratio_binary64 (f : BankFinancials float) :
  PrimFloat.eqb (risk_weighted_assets f) 0 = false ->
  initial_cet1_ratio f
  = Return (initial_cet1 f / risk_weighted_assets f * of_Q 100)%float.
Proof.
  intros Hrwa. unfold initial_cet1_ratio, truediv.
  change (feqb (risk_weighted_assets f) (of_Q 0))
    with (PrimFloat.eqb (risk_weighted_assets f) 0).
  rewrite Hrwa. reflexivity.
Qed.

(** X8. In binary64, with RWA > 0, tier1_capital >= 0 and the three what-if
    sliders at values that are not below 0 (their ranges start at 0), the
    what-if ratio of lines 161-167 is never greater than the ratio the stress
    formula gives for the current rates alone, and the what-if losses are
    never smaller than the losses at the current rates; where the two ratios
    are not NaN, the what-if ratio is at most (<=) the other. *)
Theorem what_if_never_above_current :
  forall (f : BankFinancials float) (current what_if : StressTriple float),
    PrimFloat.ltb 0 (risk_weighted_assets f) = true ->
    PrimFloat.leb 0 (initial_tier1 f) = true ->
    PrimFloat.leb 0 (interest_rate_hike what_if) = true ->
    PrimFloat.leb 0 (credit_loss_rate what_if) = true ->
    PrimFloat.leb 0 (market_shock what_if) = true ->
    exists r_current r_total w,
      compute_result f current = Return r_current /\
      compute_result f (compose current what_if) = Return r_total /\
      what_if_cet1_ratio f current what_if = Return w /\
      w = updated_cet1_ratio r_total /\
      PrimFloat.ltb (updated_cet1_ratio r_current) w = false /\
      PrimFloat.ltb (total_losses r_total) (total_losses r_current) = false /\
      (PrimFloat.is_nan w = false ->
       PrimFloat.is_nan (updated_cet1_ratio r_current) = false ->
       PrimFloat.leb w (updated_cet1_ratio r_current) = true).
Proof.
  intros f current what_if Hrwa Htier Hh Hc Hm.
  pose proof (eqb_zero_of_ltb _ Hrwa) as Hnz.
  assert (Hle : fle_triple current (compose current what_if)).
  { unfold fle_triple, compose.
    cbn [interest_rate_hike credit_loss_rate market_shock fadd Binary64].
    repeat split; apply fle_add_nonneg; assumption. }
  destruct (stress_result_monotone f current (compose current what_if) Hrwa Htier Hle)
    as [HL HR].
  exists (stress_result f current), (stress_result f (compose current what_if)),
    (updated_cet1_ratio (stress_result f (compose current what_if))).
  split; [apply compute_result_binary64, Hnz|].
  split; [apply compute_result_binary64, Hnz|].
  split.
  { rewrite (what_if_ratio_eq hundred_nonzero_binary64),
      (compute_result_binary64 _ _ Hnz). reflexivity. }
  split; [reflexivity|].
  split; [apply ltb_false_of_fle, HR|].
  split; [apply ltb_false_of_fle, HL|].
  intros N1 N2. apply leb_of_fle; assumption.
Qed.

Lemma what_if_never_above_current_witness :
  exists r_current r_total w,
    compute_result (A:=float) default_financials mild_recession = Return r_current /\
    compute_result (A:=float) default_financials (compose mild_recession worst_case)
    = Return r_total /\
    what_if_cet1_ratio (A:=float) default_financials mild_recession worst_case = Return w /\
    w = updated_cet1_ratio r_total /\
    PrimFloat.ltb (updated_cet1_ratio r_current) w = false /\
    PrimFloat.ltb (total_losses r_total) (total_losses r_current) = false /\
    (PrimFloat.is_nan w = false ->
     PrimFloat.is_nan (updated_cet1_ratio r_current) = false ->
     PrimFloat.leb w (updated_cet1_ratio r_current) = true).
Proof.
  apply (what_if_never_above_current default_financials mild_recession worst_case);
    reflexivity.
Defined.

(** ** Ratios inside the slider ranges *)

Lemma in_box_fields (t : StressTriple float) :
  in_box t = true ->
  (PrimFloat.leb 0 (interest_rate_hike t) = true /\
   PrimFloat.leb 0 (credit_loss_rate t) = true /\
   PrimFloat.leb 0 (market_shock t) = true)
  /\ fle_triple t worst_case.
Proof.
  unfold in_box. intros Hbox. repeat rewrite andb_true_iff in Hbox.
  destruct Hbox as [[[[[Hh0 Hh5] Hc0] Hc10] Hm0] Hm10].
  split; [repeat split; assumption|].
  unfold fle_triple, worst_case. cbn [interest_rate_hike credit_loss_rate market_shock].
  repeat split; apply fle_of_leb; assumption.
Qed.

(** The ratio of a triple inside the box lies between the ratio of the worst
    case and the unstressed ratio. *)
Lemma ratio_in_box (f : BankFinancials float) (t : StressTriple float) :
  PrimFloat.ltb 0 (risk_weighted_assets f) = true ->
  PrimFloat.leb 0 (initial_tier1 f) = true ->
  in_box t = true ->
  fle (updated_cet1_ratio (stress_result f worst_case))
      (updated_cet1_ratio (stress_result f t))
  /\ fle (updated_cet1_ratio (stress_result f t))
         (initial_cet1 f / risk_weighted_assets f * of_Q 100)%float.
Proof.
  intros Hrwa Htier Hbox.
  destruct (in_box_fields t Hbox) as [(Hh & Hc & Hm) Hle].
  split.
  - apply (stress_result_monotone f t worst_case Hrwa Htier Hle).
  - apply stress_ratio_le_baseline; assumption.
Qed.

Lemma ltb_leb (x y : float) : PrimFloat.ltb x y = true -> PrimFloat.leb x y = true.
Proof.
  rewrite ltb_spec, leb_spec. unfold SFltb, SFleb.
  destruct (SFcompare (Prim2SF x) (Prim2SF y)) as [[| |]|]; intros E;
    try discriminate E; reflexivity.
Qed.

Lemma in_draw_range_in_box (t : StressTriple float) :
  in_draw_range t = true -> in_box t = true.
Proof.
  unfold in_draw_range, in_box. intros H. repeat rewrite andb_true_iff in H.
  destruct H as [[[[[Hh0 Hh5] Hc0] Hc10] Hm0] Hm10].
  rewrite Hh0, Hc0, Hm0, (ltb_leb _ _ Hh5), (ltb_leb _ _ Hc10), (ltb_leb _ _ Hm10).
  reflexivity.
Qed.

(** X9. In binary64, for RWA > 0, tier1_capital >= 0, a sample count above 0
    and a generator that keeps numpy's contract for [uniform(0, 5)] and
    [uniform(0, 10)], no ratio the Monte Carlo block returns is below the
    ratio [compute_result] gives for the worst case (5, 10, 10) or above the
    initial ratio of line 105; where the numbers compared are not NaN, the
    ratio is at least (>=) the first and at most (<=) the second.  When no
    ratio is NaN, the same holds of the minimum and the maximum shown. *)
Theorem monte_carlo_ratios_in_range :
  forall (np : NumpyBuild float)
         (f : BankFinancials float) (num_simulations : Z) (s : process float),
    (0 < num_simulations)%Z ->
    PrimFloat.ltb 0 (risk_weighted_assets f) = true ->
    PrimFloat.leb 0 (initial_tier1 f) = true ->
    uniform_contract (np_random s) ->
    exists ratios lo hi worst baseline,
      run_monte_carlo f num_simulations s
      = after_run s (Z.to_nat num_simulations) ratios (np_mean ratios) lo hi /\
      compute_result f worst_case = Return worst /\
      initial_cet1_ratio f = Return baseline /\
      (forall x, In x ratios ->
         PrimFloat.ltb x (updated_cet1_ratio worst) = false /\
         PrimFloat.ltb baseline x = false /\
         (PrimFloat.is_nan x = false ->
          (PrimFloat.is_nan (updated_cet1_ratio worst) = false ->
           PrimFloat.leb (updated_cet1_ratio worst) x = true) /\
          (PrimFloat.is_nan baseline = false -> PrimFloat.leb x baseline = true))) /\
      (extremum_laws np -> existsb PrimFloat.is_nan ratios = false ->
       PrimFloat.ltb lo (updated_cet1_ratio worst) = false /\
       PrimFloat.ltb baseline hi = false).
Proof.
  intros np f n s Hn Hrwa Htier Hgen.
  pose proof (eqb_zero_of_ltb _ Hrwa) as Hnz.
  destruct (run_monte_carlo_binary64 np f n s Hn Hnz)
    as (ratios & Hlen & Hrun & [_ Hnth]).
  exists ratios, (minimum_reduce ratios), (maximum_reduce ratios),
    (stress_result f worst_case),
    (initial_cet1 f / risk_weighted_assets f * of_Q 100)%float.
  split; [exact Hrun|].
  split; [apply compute_result_binary64, Hnz|].
  split; [apply initial_cet1_ratio_binary64, Hnz|].
  assert (Hall : forall x, In x ratios ->
            fle (updated_cet1_ratio (stress_result f worst_case)) x
            /\ fle x (initial_cet1 f / risk_weighted_assets f * of_Q 100)%float).
  { intros x Hx. destruct (In_nth_error _ _ Hx) as [i Hi].
    assert (Hlt : (i < Z.to_nat n)%nat).
    { rewrite <- Hlen. apply nth_error_Some. congruence. }
    destruct (Hnth i Hlt) as (r & Hr & Hi').
    rewrite (compute_result_binary64 _ _ Hnz) in Hr. injection Hr as <-.
    assert (Ex : x = updated_cet1_ratio (stress_result f (drawn_triple (np_random s) i)))
      by congruence.
    rewrite Ex. apply ratio_in_box; try assumption.
    apply in_draw_range_in_box, drawn_triple_in_range, Hgen. }
  split.
  - intros x Hx. destruct (Hall x Hx) as [Hw Hb].
    split; [apply ltb_false_of_fle, Hw|]. split; [apply ltb_false_of_fle, Hb|].
    intros Nx. split; intros N; apply leb_of_fle; assumption.
  - intros Hlaws Hnan.
    assert (Hne : ratios <> []).
    { intros E. rewrite E in Hlen. cbn in Hlen. lia. }
    destruct (extrema_of_run np ratios Hlaws Hne) as [_ Hok].
    destruct (Hok Hnan) as (Hlo & Hhi & _).
    split; apply ltb_false_of_fle; [apply (Hall _ Hlo)|apply (Hall _ Hhi)].
Qed.

Lemma monte_carlo_ratios_in_range_witness :
  exists ratios lo hi worst baseline,
    run_monte_carlo (A:=float) default_financials 4 fresh_process
    = after_run fresh_process 4 ratios (np_mean ratios) lo hi /\
    compute_result (A:=float) default_financials worst_case = Return worst /\
    initial_cet1_ratio (A:=float) default_financials = Return baseline /\
    (forall x, In x ratios ->
       PrimFloat.ltb x (updated_cet1_ratio worst) = false /\
       PrimFloat.ltb baseline x = false /\
       (PrimFloat.is_nan x = false ->
        (PrimFloat.is_nan (updated_cet1_ratio worst) = false ->
         PrimFloat.leb (updated_cet1_ratio worst) x = true) /\
        (PrimFloat.is_nan baseline = false -> PrimFloat.leb x baseline = true))) /\
    (extremum_laws (scalar_loop (A:=float)) -> existsb PrimFloat.is_nan ratios = false ->
     PrimFloat.ltb lo (updated_cet1_ratio worst) = false /\
     PrimFloat.ltb baseline hi = false).
Proof.
  refine (monte_carlo_ratios_in_range scalar_loop default_financials 4%Z fresh_process
            _ _ _ _).
  - reflexivity.
  - reflexivity.
  - reflexivity.
  - exact sixteenths_contract.
Defined.

(** X10. In binary64, for RWA > 0 and tier1_capital >= 0: whichever of the
    ten scenarios is selected on the main page, with the custom sliders
    inside their ranges, the triple that lines 50-89 assign lies in the box
    [0,5] x [0,10] x [0,10], and the updated ratio of lines 92-98 is not
    below the ratio of the worst case (5, 10, 10) and not above the initial
    ratio of line 105; where the numbers compared are not NaN, it is at least
    (>=) the first and at most (<=) the second. *)
Theorem selected_scenario_in_range :
  forall (f : BankFinancials float) (custom : StressTriple float) (scenario : string),
    PrimFloat.ltb 0 (risk_weighted_assets f) = true ->
    PrimFloat.leb 0 (initial_tier1 f) = true ->
    in_box custom = true ->
    In scenario scenario_names ->
    exists t r worst baseline,
      set_parameters custom scenario = Some t /\
      in_box t = true /\
      compute_result f t = Return r /\
      compute_result f worst_case = Return worst /\
      initial_cet1_ratio f = Return baseline /\
      PrimFloat.ltb (updated_cet1_ratio r) (updated_cet1_ratio worst) = false /\
      PrimFloat.ltb baseline (updated_cet1_ratio r) = false /\
      (PrimFloat.is_nan (updated_cet1_ratio r) = false ->
       (PrimFloat.is_nan (updated_cet1_ratio worst) = false ->
        PrimFloat.leb (updated_cet1_ratio worst) (updated_cet1_ratio r) = true) /\
       (PrimFloat.is_nan baseline = false ->
        PrimFloat.leb (updated_cet1_ratio r) baseline = true)).
Proof.
  intros f custom scenario Hrwa Htier Hbox Hin.
  pose proof (eqb_zero_of_ltb _ Hrwa) as Hnz.
  assert (Ht : exists t, set_parameters custom scenario = Some t /\ in_box t = true).
  { cbn in Hin.
    repeat (destruct Hin as [<-|Hin];
            [eexists; split; [reflexivity|]; first [exact Hbox | reflexivity]|]).
    contradiction. }
  destruct Ht as (t & Hset & Ht).
  destruct (ratio_in_box f t Hrwa Htier Ht) as [Hw Hb].
  exists t, (stress_result f t), (stress_result f worst_case),
    (initial_cet1 f / risk_weighted_assets f * of_Q 100)%float.
  split; [exact Hset|]. split; [exact Ht|].
  split; [apply compute_result_binary64, Hnz|].
  split; [apply compute_result_binary64, Hnz|].
  split; [apply initial_cet1_ratio_binary64, Hnz|].
  split; [apply ltb_false_of_fle, Hw|]. split; [apply ltb_false_of_fle, Hb|].
  intros Nr. split; intros N; apply leb_of_fle; assumption.
Qed.

Lemma selected_scenario_in_range_witness :
  exists t r worst baseline,
    set_parameters (A:=float) mild_recession "Credit Crisis" = Some t /\
    in_box t = true /\
    compute_result (A:=float) default_financials t = Return r /\
    compute_result (A:=float) default_financials worst_case = Return worst /\
    initial_cet1_ratio (A:=float) default_financials = Return baseline /\
    PrimFloat.ltb (updated_cet1_ratio r) (updated_cet1_ratio worst) = false /\
    PrimFloat.ltb baseline (updated_cet1_ratio r) = false /\
    (PrimFloat.is_nan (updated_cet1_ratio r) = false ->
     (PrimFloat.is_nan (updated_cet1_ratio worst) = false ->
      PrimFloat.leb (updated_cet1_ratio worst) (updated_cet1_ratio r) = true) /\
     (PrimFloat.is_nan baseline = false ->
      PrimFloat.leb (updated_cet1_ratio r) baseline = true)).
Proof.
  refine (selected_scenario_in_range default_financials mild_recession
            "Credit Crisis" _ _ _ _).
  - reflexivity.
  - reflexivity.
  - reflexivity.
  - cbn. tauto.
Defined.
